(** * The sort kernel of the native SQL engine

    A shallow embedding of [codegen/arrow_compute/ext/sort_kernel.cc]:
    the signature derivation and the build/load step ([LoadJITFunction]),
    the code generator (the [Get...] string builders of the two kernel
    classes), the run-time behaviour of the generated [TypedSorterImpl]
    and [SorterResultIterator] classes, and the kernel factory.

    The generator is embedded twice: once as the string builders the source
    has, and once as a small syntax of the emitted C++ fragments, with a
    proof that the syntax prints to the very text the builders return.  The
    run-time model interprets that syntax, so that a statement about the
    behaviour of a generated kernel is tied to the text that is emitted.

    Conventions.  A C++ call that can leave the defined behaviour (a read or
    a store outside a vector or a buffer, an overflow of a signed counter)
    returns an [option], with [None] for the undefined case.  Code that can
    be left through [RETURN_NOT_OK], or whose number of iterations is
    bounded from outside, returns a [Run].  The 64-bit counters wrap
    ([wrap64]).  What the file takes from outside the source (the hash of
    strings, the compiler and the loader, the sort algorithms, the memory
    pool, the batch size) is a parameter. *)

From Stdlib Require Import ZArith NArith Lia Bool Ascii String.
From Stdlib Require Import DecimalString HexadecimalString DecimalNat DecimalZ HexadecimalN.
From stdpp Require Import base option list strings gmap.
From Equations Require Import Equations.

Open Scope Z_scope.

(** ** Text helpers: [std::to_string], [std::endl], [std::hex] *)

Definition endl : string := String (ascii_of_nat 10) EmptyString.

(** [std::to_string(int)] on the non-negative indices the generator prints *)
Definition to_string (n : nat) : string :=
  DecimalString.NilEmpty.string_of_uint (Nat.to_uint n).

(** [std::to_string(int)] on an arbitrary [int] *)
Definition to_string_int (z : Z) : string :=
  DecimalString.NilEmpty.string_of_int (Z.to_int z).

(** [ss << std::hex << v] for an unsigned [v] *)
Definition to_hex (v : N) : string :=
  HexadecimalString.NilEmpty.string_of_uint (N.to_hex_uint v).

Fixpoint concat_str (l : list string) : string :=
  match l with
  | [] => ""
  | s :: r => s +:+ concat_str r
  end.

(** machine integers of the generated classes *)
Definition wrap64 (z : Z) : Z := z mod 2 ^ 64.
Definition wrap32 (z : Z) : Z := z mod 2 ^ 32.

(** ** The part of Arrow the kernel relies on *)

Module Arrow.

Inductive StatusCode := Invalid | IOError | OutOfMemory | UnknownError.

Inductive Status :=
| OK
| Error (code : StatusCode) (msg : string).

Definition ok (s : Status) : bool :=
  match s with OK => true | Error _ _ => false end.

(** the data types a sort key or an output column can have *)
Inductive DataType :=
| boolean | uint8 | int8 | uint16 | int16 | uint32 | int32 | uint64 | int64
| float16 | float32 | float64 | utf8 | binary | date32 | date64.

Definition DataType_ToString (t : DataType) : string :=
  match t with
  | boolean => "bool" | uint8 => "uint8" | int8 => "int8"
  | uint16 => "uint16" | int16 => "int16" | uint32 => "uint32"
  | int32 => "int32" | uint64 => "uint64" | int64 => "int64"
  | float16 => "halffloat" | float32 => "float" | float64 => "double"
  | utf8 => "string" | binary => "binary"
  | date32 => "date32[day]" | date64 => "date64[ms]"
  end.

(** integer and floating point types *)
Definition is_numeric (t : DataType) : bool :=
  match t with
  | uint8 | int8 | uint16 | int16 | uint32 | int32 | uint64 | int64
  | float16 | float32 | float64 => true
  | _ => false
  end.

Record Field := field { name : string; type : DataType; nullable : bool }.

(** [Field::ToString]: the name, a colon, the type, and a mark when the
    field is not nullable *)
Definition Field_ToString (f : Field) : string :=
  name f +:+ ": " +:+ DataType_ToString (type f)
    +:+ (if nullable f then "" else " not null").

Definition Schema := list Field.

Definition num_fields (s : Schema) : nat := length s.

(** [Schema::ToString]: one field per line *)
Fixpoint Schema_ToString_from (i : nat) (s : Schema) : string :=
  match s with
  | [] => ""
  | f :: r =>
      (if (0 <? i)%nat then endl else "") +:+ Field_ToString f
        +:+ Schema_ToString_from (S i) r
  end.

Definition Schema_ToString (s : Schema) : string := Schema_ToString_from 0 s.

(** [Schema::GetAllFieldIndices]: the positions of the fields of that name *)
Fixpoint GetAllFieldIndices_from (i : nat) (s : Schema) (n : string) : list nat :=
  match s with
  | [] => []
  | f :: r =>
      if String.eqb (name f) n
      then i :: GetAllFieldIndices_from (S i) r n
      else GetAllFieldIndices_from (S i) r n
  end.

Definition GetAllFieldIndices (s : Schema) (n : string) : list nat :=
  GetAllFieldIndices_from 0 s n.

(** An array is a validity bitmap and a value buffer of the same length:
    a null row still has a slot in the value buffer. *)
Record Cell := cell { valid : bool; slot : Z }.

Abbreviation Array := (list Cell).

Definition non_null (v : Z) : Cell := cell true v.
Definition null : Cell := cell false 0.

Definition array_length (a : Array) : Z := Z.of_nat (length a).

Definition null_count (a : Array) : Z :=
  Z.of_nat (length (filter (fun c => valid c = false) a)).

(** [IsNull(i)] and [GetView(i)]; [None] stands for a read outside the
    buffers, which C++ leaves undefined *)
Definition IsNull (a : Array) (i : Z) : option bool :=
  if i <? 0 then None else negb <$> (valid <$> a !! Z.to_nat i).

Definition GetView (a : Array) (i : Z) : option Z :=
  if i <? 0 then None else slot <$> a !! Z.to_nat i.

(** [arrow::Concatenate]: rejects an empty vector of arrays *)
Definition Concatenate (arrays : list Array) : Status + Array :=
  match arrays with
  | [] => inl (Error Invalid "Must pass at least one array")
  | _ => inr (concat arrays)
  end.

End Arrow.

Import Arrow.

(** ** Signature derivation ([LoadJITFunction], first half) *)

Section Signature.

(** [std::hash<std::string>]: left to the C++ implementation *)
Variable hash : string -> N.

(** the loop over the key fields; the counter [i] is printed and is not
    advanced by the loop *)
Fixpoint sort_key_args (i : nat) (key_field_list : list Field) : string :=
  match key_field_list with
  | [] => ""
  | f :: r =>
      "[sort_key_" +:+ to_string i +:+ "]" +:+ Field_ToString f
        +:+ sort_key_args i r
  end.

Definition func_args_ss (nulls_first_ asc_ : bool)
    (key_field_list : list Field) (result_schema : Schema) : string :=
  "[Sorter]" +:+ (if nulls_first_ then "nulls_first" else "nulls_last")
    +:+ "|" +:+ (if asc_ then "asc" else "desc")
    +:+ sort_key_args 0 key_field_list
    +:+ "[schema]" +:+ Schema_ToString result_schema.

Definition signature (nulls_first_ asc_ : bool)
    (key_field_list : list Field) (result_schema : Schema) : string :=
  to_hex (hash (func_args_ss nulls_first_ asc_ key_field_list result_schema)).

End Signature.

(** ** Syntax of the emitted fragments *)

Module Emit.

(** the variables of the generated [Finish] that the fragments mention *)
Inductive Var :=
| indices_begin | indices_end | items_total | nulls_total
| indices_i | indices_null.

Definition Var_text (v : Var) : string :=
  match v with
  | indices_begin => "indices_begin"
  | indices_end => "indices_end"
  | items_total => "items_total_"
  | nulls_total => "nulls_total_"
  | indices_i => "indices_i"
  | indices_null => "indices_null"
  end.

(** pointer arithmetic [v], [p + v], [p - v] *)
Inductive Ptr :=
| At (v : Var)
| Plus (p : Ptr) (v : Var)
| Minus (p : Ptr) (v : Var).

Fixpoint Ptr_text (p : Ptr) : string :=
  match p with
  | At v => Var_text v
  | Plus q v => Ptr_text q +:+ " + " +:+ Var_text v
  | Minus q v => Ptr_text q +:+ " - " +:+ Var_text v
  end.

(** [(p)->array_id = array_id; (p)->id = i;] *)
Inductive Store := StoreIndex (p : Ptr).

Definition Store_text (s : Store) : string :=
  match s with
  | StoreIndex p =>
      endl +:+ "    (" +:+ Ptr_text p +:+ ")->array_id = array_id;"
        +:+ endl +:+ "    (" +:+ Ptr_text p +:+ ")->id = i;"
  end.

(** the body of the comparator lambda *)
Inductive CmpOp := Lt | Gt.

Inductive Comp :=
| Return (op : CmpOp) (key : nat)
| IfEq (key : nat) (on_equal on_differ : Comp).

Definition CmpOp_text (op : CmpOp) : string :=
  match op with Lt => " < " | Gt => " > " end.

Definition view_text (key : nat) (side : string) : string :=
  "cached_" +:+ to_string key +:+ "_[" +:+ side +:+ ".array_id]->GetView("
    +:+ side +:+ ".id)".

Fixpoint Comp_text (c : Comp) : string :=
  match c with
  | Return op key =>
      "return " +:+ view_text key "x" +:+ CmpOp_text op
        +:+ view_text key "y" +:+ ";" +:+ endl
  | IfEq key c1 c2 =>
      "if (" +:+ view_text key "x" +:+ " == " +:+ view_text key "y"
        +:+ ") {" +:+ Comp_text c1 +:+ "} else { " +:+ Comp_text c2 +:+ "}"
  end.

(** the sort statement: the algorithm, the range, and what orders it *)
Inductive Algorithm := ska_sort | std_sort.

Inductive Order :=
| ByKey (key : nat)     (* a key extractor reading column [key] *)
| ByComp                (* the comparator [comp] *)
| ByValue.              (* no third argument: the elements themselves *)

Record SortCall := sort_call
  { algorithm : Algorithm; first : Ptr; last : Ptr; order : Order }.

Definition Algorithm_text (a : Algorithm) : string :=
  match a with ska_sort => "ska_sort" | std_sort => "std::sort" end.

Definition Order_text (o : Order) : string :=
  match o with
  | ByKey key =>
      ", [this](auto& x) -> decltype(auto){ return cached_"
        +:+ to_string key +:+ "_[x.array_id]->GetView(x.id); }"
  | ByComp => ", comp"
  | ByValue => ""
  end.

Definition SortCall_text (s : SortCall) : string :=
  Algorithm_text (algorithm s) +:+ "(" +:+ Ptr_text (first s) +:+ ", "
    +:+ Ptr_text (last s) +:+ Order_text (order s) +:+ ");".

(** [std::stable_partition] of the whole buffer, by [IsNull] or its
    negation *)
Inductive Partition := NullsToFront | ValidToFront.

Definition Partition_text (p : Partition) : string :=
  "std::stable_partition(indices_begin, indices_end, [this](auto ind) {return "
    +:+ (match p with NullsToFront => "" | ValidToFront => "!" end)
    +:+ "concatenated_array_->IsNull(ind);});".

(** one statement per column *)
Definition CachedInsert_text (i : nat) : string :=
  "cached_" +:+ to_string i
    +:+ "_.push_back(std::dynamic_pointer_cast<ArrayType_" +:+ to_string i
    +:+ ">(in[" +:+ to_string i +:+ "]));" +:+ endl.

Definition TypedBuild_text (i : nat) : string :=
  "if (!cached_" +:+ to_string i +:+ "_[item->array_id]->IsNull(item->id)) {"
    +:+ endl +:+ "  RETURN_NOT_OK(builder_" +:+ to_string i
    +:+ "_->Append(cached_" +:+ to_string i
    +:+ "_[item->array_id]->GetView(item->id)));" +:+ endl
    +:+ "} else {" +:+ endl
    +:+ "  RETURN_NOT_OK(builder_" +:+ to_string i +:+ "_->AppendNull());"
    +:+ endl +:+ "}" +:+ endl.

(** What the generator fills into the fixed text of the generated
    translation unit.  The indexed kernel: *)
Record IndexedSource := indexed_source
  { cached_insert : list nat;      (* one [push_back] per column *)
    comp_func : Comp;              (* the body of [comp] *)
    pre_sort_valid : Store;        (* where a row with a valid first cell goes *)
    pre_sort_null : Store;         (* where a row with a null first cell goes *)
    sort_func : SortCall;
    typed_build : list nat;        (* one [Append]/[AppendNull] per column *)
    batch_size : Z }.              (* the literal in [Next] *)

(** The in-place kernel: *)
Record InplaceSource := inplace_source
  { ctype : string;                (* the C type of the only column *)
    inplace_comp : CmpOp;          (* [return x < y;] or [return x > y;] *)
    partition_func : Partition;
    inplace_sort_func : SortCall;
    inplace_batch_size : Z }.

Inductive Source :=
| Indexed (s : IndexedSource)
| Inplace (s : InplaceSource).

(** the first statement of the generated [Next] *)
Definition Next_length_text (batch : Z) : string :=
  "auto length = (total_length_ - offset_) > " +:+ to_string_int batch
    +:+ " ? " +:+ to_string_int batch +:+ " : (total_length_ - offset_);".

End Emit.

(** ** The generator of the indexed kernel: [SortArraysToIndicesKernel::Impl] *)

Module Impl.

(** The constructor: the position of every key in the schema.  [None]
    stands for the [throw] taken when a key name does not occur exactly
    once. *)
Fixpoint key_index_list (key_field_list : list Field) (result_schema : Schema)
  : option (list nat) :=
  match key_field_list with
  | [] => Some []
  | f :: r =>
      match GetAllFieldIndices result_schema (name f) with
      | [i] => cons i <$> key_index_list r result_schema
      | _ => None
      end
  end.

Section Generator.

Variables (nulls_first_ asc_ : bool).

(** *** The string builders, as the source has them *)

Definition GetCachedInsert (shuffle_size : nat) : string :=
  concat_str
    (map (fun i =>
            "cached_" +:+ to_string i
              +:+ "_.push_back(std::dynamic_pointer_cast<ArrayType_"
              +:+ to_string i +:+ ">(in[" +:+ to_string i +:+ "]));" +:+ endl)
       (seq 0 shuffle_size)).

(** [sort_key_index_list[cur_key_index]] outside the vector is undefined:
    [None] *)
Equations? GetCompFunction_ (cur_key_index : nat)
    (sort_key_index_list : list nat) : option string
    by wf (length sort_key_index_list - cur_key_index)%nat lt :=
GetCompFunction_ cur_key_index sort_key_index_list
  with sort_key_index_list !! cur_key_index := {
  | None => None
  | Some cur_key_id =>
      let comp_str :=
        if asc_
        then "return cached_" +:+ to_string cur_key_id
               +:+ "_[x.array_id]->GetView(x.id) < cached_"
               +:+ to_string cur_key_id
               +:+ "_[y.array_id]->GetView(y.id);" +:+ endl
        else "return cached_" +:+ to_string cur_key_id
               +:+ "_[x.array_id]->GetView(x.id) > cached_"
               +:+ to_string cur_key_id
               +:+ "_[y.array_id]->GetView(y.id);" +:+ endl in
      match decide (cur_key_index + 1 < length sort_key_index_list)%nat with
      | left _ =>
          rest ← GetCompFunction_ (cur_key_index + 1) sort_key_index_list;
          Some ("if (cached_" +:+ to_string cur_key_id
                  +:+ "_[x.array_id]->GetView(x.id) == cached_"
                  +:+ to_string cur_key_id
                  +:+ "_[y.array_id]->GetView(y.id)) {"
                  +:+ rest +:+ "} else { " +:+ comp_str +:+ "}")
      | right _ => Some comp_str
      end }.
Proof. lia. Qed.

Definition GetCompFunction (sort_key_index_list : list nat) : option string :=
  body ← GetCompFunction_ 0 sort_key_index_list;
  Some ("auto comp = [this](ArrayItemIndex x, ArrayItemIndex y) {"
          +:+ body +:+ "};").

Definition GetPreSortValid : string :=
  if nulls_first_
  then endl +:+ "    (indices_begin + nulls_total_ + indices_i)->array_id = array_id;"
         +:+ endl +:+ "    (indices_begin + nulls_total_ + indices_i)->id = i;"
  else endl +:+ "    (indices_begin + indices_i)->array_id = array_id;"
         +:+ endl +:+ "    (indices_begin + indices_i)->id = i;".

Definition GetPreSortNull : string :=
  if nulls_first_
  then endl +:+ "    (indices_begin + indices_null)->array_id = array_id;"
         +:+ endl +:+ "    (indices_begin + indices_null)->id = i;"
  else endl +:+ "    (indices_end - nulls_total_ + indices_null)->array_id = array_id;"
         +:+ endl +:+ "    (indices_end - nulls_total_ + indices_null)->id = i;".

(** [key_index_list[0]] is read only when the list has one element *)
Definition GetSortFunction (key_index_list : list nat) : string :=
  if asc_ then
    match key_index_list with
    | [k] =>
        if nulls_first_
        then "ska_sort(indices_begin + nulls_total_, indices_begin + "
               +:+ "items_total_, "
               +:+ "[this](auto& x) -> decltype(auto){ return cached_"
               +:+ to_string k +:+ "_[x.array_id]->GetView(x.id); });"
        else "ska_sort(indices_begin, indices_begin + items_total_ - "
               +:+ "nulls_total_, "
               +:+ "[this](auto& x) -> decltype(auto){ return cached_"
               +:+ to_string k +:+ "_[x.array_id]->GetView(x.id); });"
    | _ =>
        if nulls_first_
        then "std::sort(indices_begin + nulls_total_, indices_begin + "
               +:+ "items_total_, " +:+ "comp);"
        else "std::sort(indices_begin, indices_begin + items_total_ - "
               +:+ "nulls_total_, comp);"
    end
  else
    if nulls_first_
    then "std::sort(indices_begin + nulls_total_, indices_begin + "
           +:+ "items_total_, " +:+ "comp);"
    else "std::sort(indices_begin, indices_begin + items_total_ - "
           +:+ "nulls_total_, comp);".

Definition GetTypedBuild (shuffle_size : nat) : string :=
  concat_str
    (map (fun i =>
            "if (!cached_" +:+ to_string i
              +:+ "_[item->array_id]->IsNull(item->id)) {" +:+ endl
              +:+ "  RETURN_NOT_OK(builder_" +:+ to_string i
              +:+ "_->Append(cached_" +:+ to_string i
              +:+ "_[item->array_id]->GetView(item->id)));" +:+ endl
              +:+ "} else {" +:+ endl
              +:+ "  RETURN_NOT_OK(builder_" +:+ to_string i
              +:+ "_->AppendNull());" +:+ endl
              +:+ "}" +:+ endl)
       (seq 0 shuffle_size)).

(** *** The same builders, producing syntax *)

Definition direction : Emit.CmpOp := if asc_ then Emit.Lt else Emit.Gt.

Equations? comp_body (cur_key_index : nat) (sort_key_index_list : list nat)
    : option Emit.Comp
    by wf (length sort_key_index_list - cur_key_index)%nat lt :=
comp_body cur_key_index sort_key_index_list
  with sort_key_index_list !! cur_key_index := {
  | None => None
  | Some cur_key_id =>
      match decide (cur_key_index + 1 < length sort_key_index_list)%nat with
      | left _ =>
          rest ← comp_body (cur_key_index + 1) sort_key_index_list;
          Some (Emit.IfEq cur_key_id rest (Emit.Return direction cur_key_id))
      | right _ => Some (Emit.Return direction cur_key_id)
      end }.
Proof. lia. Qed.

Definition pre_sort_valid : Emit.Store :=
  if nulls_first_
  then Emit.StoreIndex
         (Emit.Plus (Emit.Plus (Emit.At Emit.indices_begin) Emit.nulls_total)
            Emit.indices_i)
  else Emit.StoreIndex (Emit.Plus (Emit.At Emit.indices_begin) Emit.indices_i).

Definition pre_sort_null : Emit.Store :=
  if nulls_first_
  then Emit.StoreIndex (Emit.Plus (Emit.At Emit.indices_begin) Emit.indices_null)
  else Emit.StoreIndex
         (Emit.Plus (Emit.Minus (Emit.At Emit.indices_end) Emit.nulls_total)
            Emit.indices_null).

(** the range handed to the sort: behind the nulls, or before them *)
Definition sort_first : Emit.Ptr :=
  if nulls_first_
  then Emit.Plus (Emit.At Emit.indices_begin) Emit.nulls_total
  else Emit.At Emit.indices_begin.

Definition sort_last : Emit.Ptr :=
  if nulls_first_
  then Emit.Plus (Emit.At Emit.indices_begin) Emit.items_total
  else Emit.Minus (Emit.Plus (Emit.At Emit.indices_begin) Emit.items_total)
         Emit.nulls_total.

Definition sort_func (key_index_list : list nat) : Emit.SortCall :=
  if asc_ then
    match key_index_list with
    | [k] => Emit.sort_call Emit.ska_sort sort_first sort_last (Emit.ByKey k)
    | _ => Emit.sort_call Emit.std_sort sort_first sort_last Emit.ByComp
    end
  else Emit.sort_call Emit.std_sort sort_first sort_last Emit.ByComp.

(** *** [ProduceCodes]

    The text between the fragments is fixed; what is returned here are
    the fragments that carry behaviour.  [GetBatchSize] reads the
    configuration of the process and is a parameter. *)
Variable GetBatchSize : Z.

Definition ProduceCodes (key_index_list_ : list nat) (result_schema : Schema)
  : option Emit.Source :=
  let shuffle_size := length result_schema in
  body ← comp_body 0 key_index_list_;
  Some (Emit.Indexed
          (Emit.indexed_source (seq 0 shuffle_size) body
             pre_sort_valid pre_sort_null (sort_func key_index_list_)
             (seq 0 shuffle_size) GetBatchSize)).

End Generator.

End Impl.

(** ** The generator of the in-place kernel: [SortInplaceKernel] *)

Module SortInplaceKernel.

(** The constructor: the one of [Impl], then the same test on the first
    key once more.  [key_field_list[0]] on an empty list is undefined. *)
Definition key_index_list (key_field_list : list Field) (result_schema : Schema)
  : option (list nat) :=
  l ← Impl.key_index_list key_field_list result_schema;
  f ← key_field_list !! 0%nat;
  match GetAllFieldIndices result_schema (name f) with
  | [_] => Some l
  | _ => None
  end.

Section Generator.

Variables (nulls_first_ asc_ : bool).

Definition GetCompFunction (data_type : string) : string :=
  if asc_
  then "auto comp = [this](" +:+ data_type +:+ "& x, " +:+ data_type
         +:+ "& y) {" +:+ "return x < y; };"
  else "auto comp = [this](" +:+ data_type +:+ "& x, " +:+ data_type
         +:+ "& y) {" +:+ "return x > y; };".

Definition GetPartitionFunction : string :=
  if nulls_first_
  then "std::stable_partition(indices_begin, indices_end, [this](auto ind) {return "
         +:+ "concatenated_array_->IsNull(ind);});"
  else "std::stable_partition(indices_begin, indices_end, [this](auto ind) {return "
         +:+ "!concatenated_array_->IsNull(ind);});".

Definition GetSortFunction : string :=
  if asc_ then
    if nulls_first_
    then "ska_sort(indices_begin + nulls_total_, indices_begin + "
           +:+ "items_total_);"
    else "ska_sort(indices_begin, indices_begin + items_total_ - "
           +:+ "nulls_total_);"
  else
    if nulls_first_
    then "std::sort(indices_begin + nulls_total_, indices_begin + "
           +:+ "items_total_, comp);"
    else "std::sort(indices_begin, indices_begin + items_total_ - "
           +:+ "nulls_total_, comp);".

(** the same, as syntax *)
Definition comp_text (data_type : string) (op : Emit.CmpOp) : string :=
  "auto comp = [this](" +:+ data_type +:+ "& x, " +:+ data_type
    +:+ "& y) {return x" +:+ Emit.CmpOp_text op +:+ "y; };".

Definition partition_func : Emit.Partition :=
  if nulls_first_ then Emit.NullsToFront else Emit.ValidToFront.

Definition sort_func : Emit.SortCall :=
  if asc_
  then Emit.sort_call Emit.ska_sort (Impl.sort_first nulls_first_)
         (Impl.sort_last nulls_first_) Emit.ByValue
  else Emit.sort_call Emit.std_sort (Impl.sort_first nulls_first_)
         (Impl.sort_last nulls_first_) Emit.ByComp.

(** [GetCTypeString] comes from the common code generation helpers and
    is a parameter, like [GetBatchSize]. *)
Variable GetCTypeString : DataType -> string.
Variable GetBatchSize : Z.

(** [typed_codegen_list[0]] on an empty schema is undefined *)
Definition ProduceCodes (result_schema : Schema) : option Emit.Source :=
  f ← result_schema !! 0%nat;
  Some (Emit.Inplace
          (Emit.inplace_source (GetCTypeString (type f))
             (Impl.direction asc_) partition_func sort_func GetBatchSize)).

End Generator.

End SortInplaceKernel.

(** ** The build/load step ([LoadJITFunction], second half) *)

Module Loader.

(** The process as the loader sees it: the advisory file lock and the
    store of compiled libraries, named by signature.  A compiled library
    is represented by the source it was compiled from. *)
Record Host := host { lock_held : bool; libraries : gmap string Emit.Source }.

(** Modelled from the spec: [FileSpinLock] and [FileSpinUnLock] of the
    common code generation helpers, which are not among the sources: a
    process-wide advisory lock around build and load.  Taking the lock
    while it is held never returns ([None]). *)
Definition FileSpinLock (h : Host) : option Host :=
  if lock_held h then None else Some (host true (libraries h)).

Definition FileSpinUnLock (h : Host) : Host := host false (libraries h).

Section Toolchain.

(** what the compiler toolchain says to a source text *)
Variable compiler : Emit.Source -> Status.

(** what the dynamic loader says to an artifact of the store: [OK], or why
    the artifact does not load (torn, corrupt, no factory symbol) *)
Variable loader : Emit.Source -> Status.

(** Modelled from the spec: [LoadLibrary] of the common helpers: load the
    artifact named by the signature from the store.  A missing artifact is
    a failure, and so is an artifact that is present and does not load;
    [sorter] is written only when the artifact has loaded. *)
Definition LoadLibrary (signature : string) (h : Host)
    (sorter : option Emit.Source) : Status * option Emit.Source :=
  match libraries h !! signature with
  | Some lib =>
      match loader lib with
      | OK => (OK, Some lib)
      | e => (e, sorter)
      end
  | None => (Error IOError "library not found", sorter)
  end.

(** Modelled from the spec: [CompileCodes] of the common helpers: submit
    the source to the toolchain and persist the artifact under the
    signature. *)
Definition CompileCodes (codes : Emit.Source) (signature : string) (h : Host)
  : Status * Host :=
  match compiler codes with
  | OK => (OK, host (lock_held h) (<[signature := codes]> (libraries h)))
  | e => (e, h)
  end.

Variable hash : string -> N.

(** [ProduceCodes] is virtual: the caller passes the one of its class.
    The result is the returned status, the process afterwards and the
    [sorter] member. *)
Definition LoadJITFunction (ProduceCodes : Schema -> option Emit.Source)
    (nulls_first_ asc_ : bool)
    (key_field_list : list Field) (result_schema : Schema)
    (h : Host) (sorter : option Emit.Source)
  : option (Status * Host * option Emit.Source) :=
  let signature := signature hash nulls_first_ asc_ key_field_list result_schema in
  h ← FileSpinLock h;
  let '(status, sorter) := LoadLibrary signature h sorter in
  if negb (ok status) then
    codes ← ProduceCodes result_schema;
    let '(st, h) := CompileCodes codes signature h in
    if negb (ok st) then Some (st, h, sorter) else
    let '(st, sorter) := LoadLibrary signature h sorter in
    if negb (ok st) then Some (st, h, sorter) else
    Some (OK, FileSpinUnLock h, sorter)
  else
    Some (OK, FileSpinUnLock h, sorter).

End Toolchain.

End Loader.

(** ** The kernel factory: [SortArraysToIndicesKernel] *)

Module SortArraysToIndicesKernel.

(** the two classes that the object behind [impl_] can have *)
Inductive Variant := UseSortInplace | UseImpl.

(** the object behind [impl_]: its class, which selects the overrides that
    its virtual functions run, and the members of [Impl] *)
Record Kernel := kernel
  { impl_ : Variant;
    nulls_first_ : bool;
    asc_ : bool;
    key_index_list_ : list nat;
    sorter : option Emit.Source }.

(** how a constructor call ends *)
Inductive Built :=
| Constructed (k : Kernel) (h : Loader.Host)
| Thrown (h : Loader.Host).

(** the test at the head of the constructor *)
Definition variant_of (key_field_list : list Field) (result_schema : Schema)
  : Variant :=
  if (length key_field_list =? 1)%nat && (num_fields result_schema =? 1)%nat
  then UseSortInplace else UseImpl.

(** [new Impl(...)] and [new SortInplaceKernel(...)]: the constructor of the
    class resolves the keys; [None] when it throws *)
Definition new_Impl (key_field_list : list Field) (result_schema : Schema)
    (nulls_first asc : bool) : option Kernel :=
  key_index_list ← Impl.key_index_list key_field_list result_schema;
  Some (kernel UseImpl nulls_first asc key_index_list None).

Definition new_SortInplaceKernel (key_field_list : list Field)
    (result_schema : Schema) (nulls_first asc : bool) : option Kernel :=
  key_index_list ← SortInplaceKernel.key_index_list key_field_list result_schema;
  Some (kernel UseSortInplace nulls_first asc key_index_list None).

Section Factory.

Variable compiler : Emit.Source -> Status.
Variable loader : Emit.Source -> Status.
Variable hash : string -> N.
Variable GetCTypeString : DataType -> string.
Variable GetBatchSize : Z.

(** the virtual call [ProduceCodes]: the override of the class of the
    object runs, on the members of the object *)
Definition ProduceCodes (k : Kernel) (result_schema : Schema)
  : option Emit.Source :=
  match impl_ k with
  | UseSortInplace =>
      SortInplaceKernel.ProduceCodes (nulls_first_ k) (asc_ k)
        GetCTypeString GetBatchSize result_schema
  | UseImpl =>
      Impl.ProduceCodes (nulls_first_ k) (asc_ k) GetBatchSize
        (key_index_list_ k) result_schema
  end.

(** the constructor of the kernel: the object of the one or the other
    class is built, and [LoadJITFunction] is called on it *)
Definition construct (key_field_list : list Field) (result_schema : Schema)
    (nulls_first asc : bool) (h : Loader.Host) : option Built :=
  let impl :=
    match variant_of key_field_list result_schema with
    | UseSortInplace =>
        new_SortInplaceKernel key_field_list result_schema nulls_first asc
    | UseImpl => new_Impl key_field_list result_schema nulls_first asc
    end in
  match impl with
  | None => Some (Thrown h)
  | Some k =>
      '(status, h, sorter) ←
        Loader.LoadJITFunction compiler loader hash (ProduceCodes k)
          (nulls_first_ k) (asc_ k) key_field_list result_schema h (sorter k);
      if negb (ok status) then Some (Thrown h)
      else Some (Constructed
                   (kernel (impl_ k) (nulls_first_ k) (asc_ k)
                      (key_index_list_ k) sorter) h)
  end.

End Factory.

End SortArraysToIndicesKernel.

(** ** Run-time behaviour of the generated classes *)

(** Modelled from the spec: [ArrayItemIndex] of [array_item_index.h], which
    is not among the sources: a pair [(batch_id: u32, row_id: u32)]. *)
Record ArrayItemIndex := item { array_id : Z; id : Z }.

(** one output batch: its row count and its columns *)
Record RecordBatch := record_batch { num_rows : Z; columns : list Array }.

(** the outcome of a piece of code: it has run to its end; it was left
    through [RETURN_NOT_OK] with the error of the call that failed, nothing
    being written to the output; it was not through when the bound on its
    iterations was reached; its behaviour is undefined *)
Inductive Run (A : Type) :=
| Done (a : A)
| Failed
| OutOfFuel
| Undefined.
Arguments Done {A} a.
Arguments Failed {A}.
Arguments OutOfFuel {A}.
Arguments Undefined {A}.

(** a [for] loop over the elements of [l]; [None] as soon as one iteration
    is undefined *)
Fixpoint for_each {A S : Type} (body : S -> A -> option S) (l : list A) (s : S)
  : option S :=
  match l with
  | [] => Some s
  | x :: r => s' ← body s x; for_each body r s'
  end.

(** the sort algorithms, which the generated code takes from libraries *)
Record SortLibrary := sort_library
  { ska_sort_by : forall A : Type, (A -> Z) -> list A -> list A;
    std_sort_by : forall A : Type, (A -> A -> bool) -> list A -> list A }.

Definition CmpOp_eval (op : Emit.CmpOp) (a b : Z) : bool :=
  match op with Emit.Lt => a <? b | Emit.Gt => a >? b end.

(** the comparator lambda, over whatever [GetView] gives for a key column *)
Fixpoint Comp_eval (view : nat -> ArrayItemIndex -> option Z) (c : Emit.Comp)
    (x y : ArrayItemIndex) : option bool :=
  match c with
  | Emit.Return op key =>
      a ← view key x; b ← view key y; Some (CmpOp_eval op a b)
  | Emit.IfEq key c1 c2 =>
      a ← view key x; b ← view key y;
      if a =? b then Comp_eval view c1 x y else Comp_eval view c2 x y
  end.

Fixpoint Ptr_eval (env : Emit.Var -> Z) (p : Emit.Ptr) : Z :=
  match p with
  | Emit.At v => env v
  | Emit.Plus q v => Ptr_eval env q + env v
  | Emit.Minus q v => Ptr_eval env q - env v
  end.

(** [algorithm(first, last, ...)] on a buffer: the range must lie inside the
    buffer; what is outside the range stays *)
Definition sort_range {A : Type} (sort : list A -> option (list A))
    (lo hi : Z) (buf : list A) : option (list A) :=
  if (0 <=? lo) && (lo <=? hi) && (hi <=? Z.of_nat (length buf)) then
    sorted ← sort (take (Z.to_nat (hi - lo)) (drop (Z.to_nat lo) buf));
    Some (take (Z.to_nat lo) buf ++ sorted ++ drop (Z.to_nat hi) buf)
  else None.

(** *** The iterator of the indexed kernel: [SorterResultIterator] *)

Module SorterResultIterator.

Record State := state
  { cached_ : list (list Array);
    builders_ : list Array;        (* [builder_0_], [builder_1_], ... *)
    indices_begin_ : list ArrayItemIndex;
    offset_ : Z;
    total_length_ : Z }.

Definition create (indices_in : list ArrayItemIndex)
    (cached : list (list Array)) : State :=
  state cached (replicate (length cached) []) indices_in 0
    (Z.of_nat (length indices_in)).

Definition HasNext (it : State) : bool :=
  if offset_ it >=? total_length_ it then false else true.

(** the first statement of [Next]; the literal is converted to the
    unsigned type of the other operand *)
Definition batch_length (batch : Z) (offset total_length : Z) : Z :=
  if wrap64 (total_length - offset) >? wrap64 batch
  then wrap64 batch
  else wrap64 (total_length - offset).

(** the statement of column [i] for one item.  ([Append] and [AppendNull]
    of the builders can fail when the memory pool refuses to grow them; the
    loop of this iterator advances with every item whatever they do, and the
    model of it follows the calls in which the builders get their memory.) *)
Definition typed_build_run (cached : list (list Array)) (x : ArrayItemIndex)
    (builders : list Array) (i : nat) : option (list Array) :=
  col ← cached !! i;
  a ← col !! Z.to_nat (array_id x);
  is_null ← IsNull a (id x);
  if negb is_null then
    v ← GetView a (id x);
    Some (alter (fun b => b ++ [non_null v]) i builders)
  else
    Some (alter (fun b => b ++ [null]) i builders).

Definition append_item (src : Emit.IndexedSource) (it : State)
    (builders : list Array) (count : nat) : option (list Array) :=
  x ← indices_begin_ it !! Z.to_nat (offset_ it + Z.of_nat count);
  for_each (typed_build_run (cached_ it) x) (Emit.typed_build src) builders.

Definition Next (src : Emit.IndexedSource) (it : State)
  : option (Status * RecordBatch * State) :=
  let length := batch_length (Emit.batch_size src) (offset_ it) (total_length_ it) in
  outs ← for_each (append_item src it) (seq 0 (Z.to_nat length)) (builders_ it);
  let offset := wrap64 (offset_ it + length) in
  Some (OK, record_batch length outs,
        state (cached_ it) (replicate (List.length outs) []) (indices_begin_ it)
          offset (total_length_ it)).

End SorterResultIterator.

(** *** The indexed kernel: the class generated by [Impl::ProduceCodes] *)

Module TypedSorterImpl.

Record State := state
  { cached_ : list (list Array);   (* [cached_0_], [cached_1_], ... *)
    first_ : list Array;
    num_batches_ : Z;
    items_total_ : Z;
    nulls_total_ : Z }.

Definition create (src : Emit.IndexedSource) : State :=
  state (replicate (length (Emit.cached_insert src)) []) [] 0 0 0.

(** [cached_i_.push_back(in[i])], column after column *)
Definition cached_insert_run (in_ : list Array)
    (cached : list (list Array)) (i : nat) : option (list (list Array)) :=
  a ← in_ !! i; Some (alter (fun v => v ++ [a]) i cached).

Definition Evaluate (src : Emit.IndexedSource) (st : State) (in_ : list Array)
  : option (Status * State) :=
  in0 ← in_ !! 0%nat;
  let num_batches := wrap64 (num_batches_ st + 1) in
  let items_total := wrap64 (items_total_ st + array_length in0) in
  let nulls_total := wrap64 (nulls_total_ st + null_count in0) in
  let first := first_ st ++ [in0] in
  cached ← for_each (cached_insert_run in_) (Emit.cached_insert src) (cached_ st);
  Some (OK, state cached first num_batches items_total nulls_total).

(** the working state of the partition loop of [Finish] *)
Record Cursor := cursor
  { indices_buf : list ArrayItemIndex; indices_i : Z; indices_null : Z }.

Definition env (st : State) (c : Cursor) (v : Emit.Var) : Z :=
  match v with
  | Emit.indices_begin => 0
  | Emit.indices_end => items_total_ st
  | Emit.items_total => items_total_ st
  | Emit.nulls_total => nulls_total_ st
  | Emit.indices_i => indices_i c
  | Emit.indices_null => indices_null c
  end.

(** a store through a pointer outside the buffer is undefined *)
Definition store (st : State) (c : Cursor) (s : Emit.Store)
    (array_id i : Z) : option (list ArrayItemIndex) :=
  match s with
  | Emit.StoreIndex p =>
      let at_ := Ptr_eval (env st c) p in
      if (0 <=? at_) && (at_ <? Z.of_nat (length (indices_buf c)))
      then Some (<[Z.to_nat at_ := item (wrap32 array_id) (wrap32 i)]> (indices_buf c))
      else None
  end.

Definition visit_row (src : Emit.IndexedSource) (st : State)
    (array_id : nat) (a : Array) (c : Cursor) (i : nat) : option Cursor :=
  is_null ← IsNull a (Z.of_nat i);
  if negb is_null then
    buf ← store st c (Emit.pre_sort_valid src) (Z.of_nat array_id) (Z.of_nat i);
    Some (cursor buf (indices_i c + 1) (indices_null c))
  else
    buf ← store st c (Emit.pre_sort_null src) (Z.of_nat array_id) (Z.of_nat i);
    Some (cursor buf (indices_i c) (indices_null c + 1)).

Definition visit_array (src : Emit.IndexedSource) (st : State)
    (c : Cursor) (array_id : nat) : option Cursor :=
  a ← first_ st !! array_id;
  for_each (visit_row src st array_id a) (seq 0 (length a)) c.

(** [sizeof(ArrayItemIndex)]: two fields of 32 bits *)
Definition sizeof_ArrayItemIndex : Z := 8.

(** [int64_t buf_size = items_total_ * sizeof(ArrayItemIndex)]: the product
    is taken in 64 unsigned bits and then read as a signed number *)
Definition buf_size (st : State) : Z :=
  let product := wrap64 (items_total_ st * sizeof_ArrayItemIndex) in
  if product <? 2 ^ 63 then product else product - 2 ^ 64.

(** [array_id++] on the [int] that counts the arrays: beyond [INT_MAX] the
    increment is undefined *)
Definition next_array_id (array_id : nat) : option nat :=
  if Z.of_nat array_id <? 2 ^ 31 - 1 then Some (S array_id) else None.

(** [Finish] between the allocation and the sort statement.  The buffer has
    [buf_size] bytes (its initial content is whatever the pool returns; the
    model takes zeros); [indices_end = indices_begin + items_total_] must
    not point behind it; then the two loops fill it. *)
Definition partition_pass (src : Emit.IndexedSource) (st : State) : option Cursor :=
  let slots := buf_size st / sizeof_ArrayItemIndex in
  let indices_buf := replicate (Z.to_nat slots) (item 0 0) in
  if items_total_ st <=? slots then
    for_each
      (fun c array_id =>
         c ← visit_array src st c array_id;
         _ ← next_array_id array_id;
         Some c)
      (seq 0 (Z.to_nat (num_batches_ st)))
      (cursor indices_buf 0 0)
  else None.

(** [cached_key_[x.array_id]->GetView(x.id)] *)
Definition view (st : State) (key : nat) (x : ArrayItemIndex) : option Z :=
  col ← cached_ st !! key;
  a ← col !! Z.to_nat (array_id x);
  GetView a (id x).

Section Sort.

Variable lib : SortLibrary.

(** [arrow::AllocateBuffer(ctx_->memory_pool(), size, &buf)]: the memory
    pool belongs to the caller's context; what it answers to a request for
    [size] bytes is a parameter *)
Variable AllocateBuffer : Z -> Status.

(** the sort statement on the range it names; every key it reads must
    be readable *)
Definition sort_items (src : Emit.IndexedSource) (st : State)
    (range : list ArrayItemIndex) : option (list ArrayItemIndex) :=
  match Emit.algorithm (Emit.sort_func src), Emit.order (Emit.sort_func src) with
  | Emit.ska_sort, Emit.ByKey key =>
      _ ← mapM (view st key) range;
      Some (ska_sort_by lib _ (fun x => default 0 (view st key x)) range)
  | Emit.std_sort, Emit.ByComp =>
      _ ← mapM (fun x => Comp_eval (view st) (Emit.comp_func src) x x) range;
      Some (std_sort_by lib _
              (fun x y => default false
                            (Comp_eval (view st) (Emit.comp_func src) x y))
              range)
  | _, _ => None
  end.

Definition sort_pass (src : Emit.IndexedSource) (st : State) (c : Cursor)
  : option (list ArrayItemIndex) :=
  sort_range (sort_items src st)
    (Ptr_eval (env st c) (Emit.first (Emit.sort_func src)))
    (Ptr_eval (env st c) (Emit.last (Emit.sort_func src)))
    (indices_buf c).

(** [Finish]: the status and the array behind [out] after the call, which
    is empty before it.  When the pool refuses the buffer, its error is
    returned and [out] is not written; otherwise [out] is the array of the
    [items_total_] sorted indices. *)
Definition Finish (src : Emit.IndexedSource) (st : State)
  : option (Status * list ArrayItemIndex) :=
  match AllocateBuffer (buf_size st) with
  | OK =>
      c ← partition_pass src st;
      out ← sort_pass src st c;
      Some (OK, out)
  | e => Some (e, [])
  end.

Definition MakeResultIterator (src : Emit.IndexedSource) (st : State)
  : option (Status * option SorterResultIterator.State) :=
  '(status, indices_out) ← Finish src st;
  if negb (ok status) then Some (status, None)
  else Some (OK, Some (SorterResultIterator.create indices_out (cached_ st))).

End Sort.

End TypedSorterImpl.

(** *** The iterator of the in-place kernel *)

Module InplaceResultIterator.

Record State := state
  { builder_0_ : Array;
    indices_begin_ : list Z;
    offset_ : Z;
    total_length_ : Z;
    nulls_total_ : Z }.

Definition create (indices_begin : list Z) (nulls_total length : Z) : State :=
  state [] indices_begin 0 length nulls_total.

Definition HasNext (it : State) : bool :=
  if offset_ it >=? total_length_ it then false else true.

(** [builder_0_->Append(v)] and [builder_0_->AppendNull()].  The builder
    belongs to Arrow: it grows through the memory pool and returns an error
    when the pool refuses.  What the pool does is a parameter: [room] is the
    number of appends that it grants to the builder; [None] is the error. *)
Definition Append (room : nat) (builder : Array) (c : Cell)
  : option (nat * Array) :=
  match room with
  | O => None
  | S room => Some (room, builder ++ [c])
  end.

(** the loop of the branch [offset_ >= nulls_total_]: [count] advances in
    every iteration; [counts] are the values of [count] still to come *)
Fixpoint append_loop (room : nat) (it : State) (counts : list nat)
    (builder : Array) : Run Array :=
  match counts with
  | [] => Done builder
  | count :: counts =>
      match indices_begin_ it !! Z.to_nat (offset_ it + Z.of_nat count) with
      | None => Undefined
      | Some v =>
          match Append room builder (non_null v) with
          | None => Failed
          | Some (room, builder) => append_loop room it counts builder
          end
      end
  end.

(** the loop of the other branch: [count] advances only where a value is
    appended.  Every iteration appends, so the loop ends at the latest when
    the builder has no room left. *)
Fixpoint mixed_loop (room : nat) (it : State) (length count : Z)
    (builder : Array) : Run Array :=
  if count <? length then
    if offset_ it + count <? nulls_total_ it then
      match room with
      | O => Failed
      | S room => mixed_loop room it length count (builder ++ [null])
      end
    else
      match indices_begin_ it !! Z.to_nat (offset_ it + count) with
      | None => Undefined
      | Some v =>
          match room with
          | O => Failed
          | S room =>
              mixed_loop room it length (count + 1) (builder ++ [non_null v])
          end
      end
  else Done builder.

Definition Next (room : nat) (src : Emit.InplaceSource) (it : State)
  : Run (Status * RecordBatch * State) :=
  let length :=
    SorterResultIterator.batch_length (Emit.inplace_batch_size src)
      (offset_ it) (total_length_ it) in
  let filled :=
    if offset_ it >=? nulls_total_ it
    then append_loop room it (seq 0 (Z.to_nat length)) (builder_0_ it)
    else mixed_loop room it length 0 (builder_0_ it) in
  match filled with
  | Done out_0 =>
      Done (OK, record_batch length [out_0],
            state [] (indices_begin_ it) (wrap64 (offset_ it + length))
              (total_length_ it) (nulls_total_ it))
  | Failed => Failed
  | OutOfFuel => OutOfFuel
  | Undefined => Undefined
  end.

End InplaceResultIterator.

(** *** The in-place kernel: the class generated by
    [SortInplaceKernel::ProduceCodes] *)

Module InplaceSorterImpl.

Record State := state
  { cached_0_ : list Array;
    num_batches_ : Z;
    items_total_ : Z;
    nulls_total_ : Z }.

Definition create : State := state [] 0 0 0.

Definition Evaluate (st : State) (in_ : list Array) : option (Status * State) :=
  in0 ← in_ !! 0%nat;
  Some (OK, state (cached_0_ st ++ [in0])
              (wrap64 (num_batches_ st + 1))
              (wrap64 (items_total_ st + array_length in0))
              (wrap64 (nulls_total_ st + null_count in0))).

(** [std::stable_partition]: the elements on which the predicate holds,
    then the others, each group in its order *)
Definition stable_partition (pred : Z -> option bool) (values : list Z)
  : option (list Z) :=
  marked ← mapM (fun v => b ← pred v; Some (v, b)) values;
  Some ((fst <$> filter (fun m => snd m = true) marked)
          ++ (fst <$> filter (fun m => snd m = false) marked)).

(** the lambda handed to the partition: its argument is an element of the
    value buffer, and that is what [IsNull] receives *)
Definition partition_pred (p : Emit.Partition) (concatenated_array_ : Array)
    (ind : Z) : option bool :=
  match p with
  | Emit.NullsToFront => IsNull concatenated_array_ ind
  | Emit.ValidToFront => negb <$> IsNull concatenated_array_ ind
  end.

Definition env (st : State) (concatenated_array_ : Array) (v : Emit.Var) : Z :=
  match v with
  | Emit.indices_begin => 0
  | Emit.indices_end => array_length concatenated_array_
  | Emit.items_total => items_total_ st
  | Emit.nulls_total => nulls_total_ st
  | Emit.indices_i | Emit.indices_null => 0
  end.

Section Sort.

Variable lib : SortLibrary.

Definition sort_values (src : Emit.InplaceSource) (range : list Z)
  : option (list Z) :=
  match Emit.algorithm (Emit.inplace_sort_func src),
        Emit.order (Emit.inplace_sort_func src) with
  | Emit.ska_sort, Emit.ByValue => Some (ska_sort_by lib _ (fun v => v) range)
  | Emit.std_sort, Emit.ByComp =>
      Some (std_sort_by lib _ (CmpOp_eval (Emit.inplace_comp src)) range)
  | _, _ => None
  end.

Definition MakeResultIterator (src : Emit.InplaceSource) (st : State)
  : option (Status * option InplaceResultIterator.State) :=
  match Concatenate (cached_0_ st) with
  | inl status => Some (status, None)
  | inr concatenated_array_ =>
      let indices := slot <$> concatenated_array_ in
      indices ←
        (if nulls_total_ st >? 0
         then stable_partition
                (partition_pred (Emit.partition_func src) concatenated_array_)
                indices
         else Some indices);
      indices ←
        sort_range (sort_values src)
          (Ptr_eval (env st concatenated_array_)
             (Emit.first (Emit.inplace_sort_func src)))
          (Ptr_eval (env st concatenated_array_)
             (Emit.last (Emit.inplace_sort_func src)))
          indices;
      Some (OK, Some (InplaceResultIterator.create indices
                        (nulls_total_ st) (items_total_ st)))
  end.

End Sort.

End InplaceSorterImpl.

(** ** A library instance for the examples: insertion sort, which is stable *)

Fixpoint insert_by {A : Type} (lt : A -> A -> bool) (x : A) (l : list A) : list A :=
  match l with
  | [] => [x]
  | y :: r => if lt y x then y :: insert_by lt x r else x :: y :: r
  end.

Definition insertion_sort {A : Type} (lt : A -> A -> bool) (l : list A) : list A :=
  foldr (insert_by lt) [] l.

Definition reference_library : SortLibrary :=
  sort_library
    (fun A key => insertion_sort (fun x y => key x <? key y))
    (fun A lt => insertion_sort lt).

(** ** Specification-level notions used in the statements *)

(** the strict inequality of the configured direction *)
Definition strict (asc : bool) (a b : Z) : bool := if asc then a <? b else a >? b.

(** The composite comparator in the words of the specification: compare the
    first key; on equality go on with the comparator of the remaining keys;
    at the last key return the strict inequality of the direction. *)
Fixpoint composite_comparator (asc : bool)
    (view : nat -> ArrayItemIndex -> option Z) (keys : list nat)
    (x y : ArrayItemIndex) : option bool :=
  match keys with
  | [] => None
  | k :: rest =>
      a ← view k x; b ← view k y;
      match rest with
      | [] => Some (strict asc a b)
      | _ => if a =? b then composite_comparator asc view rest x y
             else Some (strict asc a b)
      end
  end.

(** a sort library that only rearranges what it is given *)
Definition rearranges (lib : SortLibrary) : Prop :=
  (forall (A : Type) (key : A -> Z) (l : list A), ska_sort_by lib A key l ≡ₚ l)
  /\ (forall (A : Type) (lt : A -> A -> bool) (l : list A), std_sort_by lib A lt l ≡ₚ l).

(** the batch size literal of a generated source *)
Definition source_batch_size (s : Emit.Source) : Z :=
  match s with
  | Emit.Indexed s => Emit.batch_size s
  | Emit.Inplace s => Emit.inplace_batch_size s
  end.

(** [tok] occurs in [s] *)
Fixpoint occurs (tok s : string) : bool :=
  String.prefix tok s
  || match s with
     | EmptyString => false
     | String _ r => occurs tok r
     end.

(** the two markers that delimit the keys in the argument string *)
Definition key_marker : string := "[sort_key_0]".
Definition schema_marker : string := "[schema]".

Definition marker_free (s : string) : bool :=
  negb (occurs key_marker s) && negb (occurs schema_marker s).

Definition starts_with_marker (s : string) : bool :=
  String.prefix key_marker s || String.prefix schema_marker s.

(** the rows of the retained first arrays, in the order in which the loops
    of [Finish] visit them, each with its cell *)
Definition rows_of (array_id : nat) (a : Array) : list (ArrayItemIndex * Cell) :=
  imap (fun i c => (item (Z.of_nat array_id) (Z.of_nat i), c)) a.

Definition rows_in_order (first : list Array) : list (ArrayItemIndex * Cell) :=
  concat (imap rows_of first).

Definition nulls_of (rows : list (ArrayItemIndex * Cell)) : list ArrayItemIndex :=
  fst <$> filter (fun r => valid (snd r) = false) rows.

Definition valids_of (rows : list (ArrayItemIndex * Cell)) : list ArrayItemIndex :=
  fst <$> filter (fun r => valid (snd r) = true) rows.

(** the buffer while the partition loop runs: the rows stored so far, each
    group followed by the slots that are still to be filled *)
Definition layout (nulls_first : bool) (n_nulls n_valid : nat)
    (done : list (ArrayItemIndex * Cell)) : TypedSorterImpl.Cursor :=
  let ns := nulls_of done in
  let vs := valids_of done in
  let free_n := replicate (n_nulls - length ns) (item 0 0) in
  let free_v := replicate (n_valid - length vs) (item 0 0) in
  TypedSorterImpl.cursor
    (if nulls_first then (ns ++ free_n) ++ (vs ++ free_v)
     else (vs ++ free_v) ++ (ns ++ free_n))
    (Z.of_nat (length vs)) (Z.of_nat (length ns)).

(** the counters of a state agree with the arrays it retains, the number
    of arrays fits the [int] that counts them, every row number fits the 32
    bits of an index, and the byte size of the index buffer fits 63 bits *)
Definition consistent (st : TypedSorterImpl.State) : Prop :=
  TypedSorterImpl.num_batches_ st = Z.of_nat (length (TypedSorterImpl.first_ st))
  /\ TypedSorterImpl.items_total_ st
     = Z.of_nat (length (rows_in_order (TypedSorterImpl.first_ st)))
  /\ TypedSorterImpl.nulls_total_ st
     = Z.of_nat (length (nulls_of (rows_in_order (TypedSorterImpl.first_ st))))
  /\ Z.of_nat (length (TypedSorterImpl.first_ st)) <= 2 ^ 31 - 1
  /\ Forall (fun a : Array => Z.of_nat (length a) <= 2 ^ 32) (TypedSorterImpl.first_ st)
  /\ TypedSorterImpl.items_total_ st < 2 ^ 60.

(** an iterator of the indexed kernel whose cursor lies inside the index
    array and whose indices all point at cells of the cached arrays *)
Definition readable (src : Emit.IndexedSource) (it : SorterResultIterator.State)
  : Prop :=
  SorterResultIterator.total_length_ it
  = Z.of_nat (length (SorterResultIterator.indices_begin_ it))
  /\ 0 <= SorterResultIterator.offset_ it <= SorterResultIterator.total_length_ it
  /\ SorterResultIterator.total_length_ it < 2 ^ 64
  /\ Forall (fun x =>
       Forall (fun i =>
         exists col a c,
           SorterResultIterator.cached_ it !! i = Some col
           /\ col !! Z.to_nat (array_id x) = Some a
           /\ 0 <= id x
           /\ a !! Z.to_nat (id x) = Some c)
         (Emit.typed_build src))
       (SorterResultIterator.indices_begin_ it).

(** call [Next] as long as [HasNext] holds, at most [fuel] times *)
Fixpoint drain (fuel : nat) (src : Emit.IndexedSource)
    (it : SorterResultIterator.State) : Run (list RecordBatch) :=
  if SorterResultIterator.HasNext it then
    match fuel with
    | O => OutOfFuel
    | S fuel =>
        match SorterResultIterator.Next src it with
        | Some (_, batch, it') =>
            match drain fuel src it' with
            | Done batches => Done (batch :: batches)
            | r => r
            end
        | None => Undefined
        end
    end
  else Done [].

Definition total_rows (batches : list RecordBatch) : Z :=
  foldr (fun b n => num_rows b + n) 0 batches.


(** ** Notions used in the further properties *)

(** where a store statement writes *)
Definition Store_target (s : Emit.Store) : Emit.Ptr :=
  match s with Emit.StoreIndex p => p end.

(** the accumulate phase: one [Evaluate] per batch, in order *)
Fixpoint feed (src : Emit.IndexedSource) (st : TypedSorterImpl.State)
    (batches : list (list Array)) : option TypedSorterImpl.State :=
  match batches with
  | [] => Some st
  | in_ :: r => '(_, st') ← TypedSorterImpl.Evaluate src st in_; feed src st' r
  end.

(** the first arrays of the batches, and the rows they count *)
Definition firsts (batches : list (list Array)) : list Array :=
  omap (fun in_ : list Array => in_ !! 0%nat) batches.

Definition rows_fed (batches : list (list Array)) : Z :=
  foldr (fun a n => array_length a + n) 0 (firsts batches).

Definition nulls_fed (batches : list (list Array)) : Z :=
  foldr (fun a n => null_count a + n) 0 (firsts batches).

(** the number of rows of a batch, read off its first array *)
Definition batch_rows (in_ : list Array) : nat :=
  length (default [] (in_ !! 0%nat)).

(** a batch of [n] arrays that all have the same number of rows *)
Definition uniform (n : nat) (in_ : list Array) : Prop :=
  length in_ = n /\ Forall (fun a : Array => length a = batch_rows in_) in_.

(** batches that fit the counters of the sorter: at most 2^31 - 1 batches
    ([Finish] counts them in an [int]) of at most 2^32 rows each (the row
    number of an index has 32 bits), and fewer than 2^60 rows in all (the
    byte size of the index buffer is an [int64_t]) *)
Definition fits (batches : list (list Array)) : Prop :=
  Z.of_nat (length batches) <= 2 ^ 31 - 1
  /\ Forall (fun in_ => Z.of_nat (batch_rows in_) <= 2 ^ 32) batches
  /\ rows_fed batches < 2 ^ 60.

(** every cached column has one array per retained first array, of the
    same length *)
Definition shaped (n : nat) (st : TypedSorterImpl.State) : Prop :=
  length (TypedSorterImpl.cached_ st) = n
  /\ Forall (fun col : list Array =>
               Forall2 (fun a a' : Array => length a = length a')
                 (TypedSorterImpl.first_ st) col)
       (TypedSorterImpl.cached_ st).


(** the cell that an index names in column [i] of the cached arrays *)
Definition cell_at (cached : list (list Array)) (i : nat) (x : ArrayItemIndex)
  : option Cell :=
  col ← cached !! i;
  a ← col !! Z.to_nat (array_id x);
  if id x <? 0 then None else a !! Z.to_nat (id x).

(** what a builder keeps of a cell: the value of a valid cell, and of a
    null cell only that it is null *)
Definition built (c : Cell) : Cell :=
  if valid c then non_null (slot c) else null.

(** the indices that a call of [Next] returning [n] rows walks over *)
Definition window (it : SorterResultIterator.State) (n : Z) : list ArrayItemIndex :=
  take (Z.to_nat n)
    (drop (Z.to_nat (SorterResultIterator.offset_ it))
       (SorterResultIterator.indices_begin_ it)).

(** the accumulate phase of the in-place kernel *)
Fixpoint feed_inplace (st : InplaceSorterImpl.State) (batches : list (list Array))
  : option InplaceSorterImpl.State :=
  match batches with
  | [] => Some st
  | in_ :: r => '(_, st') ← InplaceSorterImpl.Evaluate st in_; feed_inplace st' r
  end.

(** the values that the in-place kernel sorts: the slots of the first
    arrays, batch after batch *)
Definition values_fed (batches : list (list Array)) : list Z :=
  slot <$> concat (firsts batches).

(** the values that a call of [Next] of the in-place iterator returning
    [n] rows walks over *)
Definition inplace_window (it : InplaceResultIterator.State) (n : Z) : list Z :=
  take (Z.to_nat n)
    (drop (Z.to_nat (InplaceResultIterator.offset_ it))
       (InplaceResultIterator.indices_begin_ it)).
(** * Properties *)

(** ** The emitted text is the text of the syntax *)

Lemma append_assoc (a b c : string) : (a +:+ b) +:+ c = a +:+ (b +:+ c).
Proof.
  induction a as [|x a IH]; [done|].
  change (String x ((a +:+ b) +:+ c) = String x (a +:+ (b +:+ c))).
  by f_equal.
Qed.

Ltac text_eq := cbn; rewrite ?append_assoc; reflexivity.

Lemma GetPreSortValid_text nf :
  Emit.Store_text (Impl.pre_sort_valid nf) = Impl.GetPreSortValid nf.
Proof. by destruct nf. Qed.

Lemma GetPreSortNull_text nf :
  Emit.Store_text (Impl.pre_sort_null nf) = Impl.GetPreSortNull nf.
Proof. by destruct nf. Qed.

Lemma GetSortFunction_text nf asc keys :
  Emit.SortCall_text (Impl.sort_func nf asc keys) = Impl.GetSortFunction nf asc keys.
Proof.
  unfold Impl.sort_func, Impl.GetSortFunction, Emit.SortCall_text.
  destruct asc, nf; try reflexivity; destruct keys as [|k [|]]; text_eq.
Qed.

Lemma GetCompFunction__text asc cur keys :
  Emit.Comp_text <$> Impl.comp_body asc cur keys = Impl.GetCompFunction_ asc cur keys.
Proof.
  funelim (Impl.comp_body asc cur keys); simp GetCompFunction_; rewrite Heq; simpl.
  - destruct (decide _) as [Hlt|Hge]; simpl.
    + rewrite <- (H Hlt).
      destruct (Impl.comp_body asc (cur_key_index + 1) sort_key_index_list);
        simpl; [|done].
      f_equal. unfold Emit.view_text, Impl.direction. destruct asc; text_eq.
    + f_equal. unfold Emit.view_text, Impl.direction. destruct asc; text_eq.
  - done.
Qed.

Lemma GetCachedInsert_text n :
  concat_str (map Emit.CachedInsert_text (seq 0 n)) = Impl.GetCachedInsert n.
Proof. reflexivity. Qed.

Lemma GetTypedBuild_text n :
  concat_str (map Emit.TypedBuild_text (seq 0 n)) = Impl.GetTypedBuild n.
Proof. reflexivity. Qed.

Lemma Inplace_GetCompFunction_text asc data_type :
  SortInplaceKernel.comp_text data_type (Impl.direction asc)
  = SortInplaceKernel.GetCompFunction asc data_type.
Proof.
  unfold SortInplaceKernel.comp_text, SortInplaceKernel.GetCompFunction.
  destruct asc; text_eq.
Qed.

Lemma Inplace_GetPartitionFunction_text nf :
  Emit.Partition_text (SortInplaceKernel.partition_func nf)
  = SortInplaceKernel.GetPartitionFunction nf.
Proof. by destruct nf. Qed.

Lemma Inplace_GetSortFunction_text nf asc :
  Emit.SortCall_text (SortInplaceKernel.sort_func nf asc)
  = SortInplaceKernel.GetSortFunction nf asc.
Proof. by destruct nf, asc. Qed.

(** the fragments that [ProduceCodes] returns print to what the string
    builders of the class return *)
Lemma Impl_ProduceCodes_text nf asc batch idx schema src :
  Impl.ProduceCodes nf asc batch idx schema = Some (Emit.Indexed src) ->
  concat_str (map Emit.CachedInsert_text (Emit.cached_insert src))
    = Impl.GetCachedInsert (length schema)
  /\ Impl.GetCompFunction_ asc 0 idx = Some (Emit.Comp_text (Emit.comp_func src))
  /\ Emit.Store_text (Emit.pre_sort_valid src) = Impl.GetPreSortValid nf
  /\ Emit.Store_text (Emit.pre_sort_null src) = Impl.GetPreSortNull nf
  /\ Emit.SortCall_text (Emit.sort_func src) = Impl.GetSortFunction nf asc idx
  /\ concat_str (map Emit.TypedBuild_text (Emit.typed_build src))
      = Impl.GetTypedBuild (length schema)
  /\ Emit.batch_size src = batch.
Proof.
  unfold Impl.ProduceCodes. intros Hp.
  destruct (Impl.comp_body asc 0 idx) as [body|] eqn:Hbody; simpl in Hp; [|done].
  injection Hp as <-. simpl.
  split; [apply GetCachedInsert_text|].
  split; [by rewrite <- GetCompFunction__text, Hbody|].
  split; [apply GetPreSortValid_text|].
  split; [apply GetPreSortNull_text|].
  split; [apply GetSortFunction_text|].
  split; [apply GetTypedBuild_text|done].
Qed.

Lemma Inplace_ProduceCodes_text nf asc GetCTypeString batch schema src f :
  SortInplaceKernel.ProduceCodes nf asc GetCTypeString batch schema
    = Some (Emit.Inplace src) ->
  schema !! 0%nat = Some f ->
  SortInplaceKernel.comp_text (Emit.ctype src) (Emit.inplace_comp src)
    = SortInplaceKernel.GetCompFunction asc (GetCTypeString (type f))
  /\ Emit.Partition_text (Emit.partition_func src)
      = SortInplaceKernel.GetPartitionFunction nf
  /\ Emit.SortCall_text (Emit.inplace_sort_func src)
      = SortInplaceKernel.GetSortFunction nf asc
  /\ Emit.inplace_batch_size src = batch.
Proof.
  unfold SortInplaceKernel.ProduceCodes. intros Hp Hf. rewrite Hf in Hp.
  simpl in Hp. injection Hp as <-. simpl.
  split; [apply Inplace_GetCompFunction_text|].
  split; [apply Inplace_GetPartitionFunction_text|].
  split; [apply Inplace_GetSortFunction_text|done].
Qed.

(** the literal of the batch size in the first statement of [Next] *)
Example Next_length_text_10000 :
  Emit.Next_length_text 10000
  = "auto length = (total_length_ - offset_) > 10000 ? 10000 : (total_length_ - offset_);".
Proof. reflexivity. Qed.

(** ** The factory *)

Lemma key_index_list_length keys schema idx :
  Impl.key_index_list keys schema = Some idx -> length idx = length keys.
Proof.
  revert idx. induction keys as [|f r IH]; intros idx; simpl.
  - by intros [= <-].
  - destruct (GetAllFieldIndices schema (name f)) as [|i [|]]; try done.
    destruct (Impl.key_index_list r schema) as [l|]; simpl; [|done].
    intros [= <-]. simpl. by rewrite (IH l).
Qed.

(** [LoadJITFunction], case by case: the lock, the first look at the store,
    and the build that follows a failed load *)
Lemma LoadJITFunction_cases compiler loader hash ProduceCodes nf asc keys schema
    h sorter :
  let sig := signature hash nf asc keys schema in
  let build :=
    match ProduceCodes schema with
    | None => None
    | Some codes =>
        match compiler codes with
        | OK =>
            match loader codes with
            | OK => Some (OK, Loader.host false (<[sig := codes]> (Loader.libraries h)),
                          Some codes)
            | e => Some (e, Loader.host true (<[sig := codes]> (Loader.libraries h)),
                         sorter)
            end
        | e => Some (e, Loader.host true (Loader.libraries h), sorter)
        end
    end in
  Loader.LoadJITFunction compiler loader hash ProduceCodes nf asc keys schema h sorter
  = if Loader.lock_held h then None
    else match Loader.libraries h !! sig with
         | Some lib =>
             match loader lib with
             | OK => Some (OK, Loader.host false (Loader.libraries h), Some lib)
             | _ => build
             end
         | None => build
         end.
Proof.
  intros sig build. subst build.
  unfold Loader.LoadJITFunction, Loader.FileSpinLock. fold sig.
  destruct (Loader.lock_held h); simpl; [done|].
  assert (Hbuild : forall sorter0 : option Emit.Source,
    (codes ← ProduceCodes schema;
     let '(st, h0) := Loader.CompileCodes compiler codes sig
                        (Loader.host true (Loader.libraries h)) in
     if negb (ok st) then Some (st, h0, sorter0) else
     let '(st0, sorter1) := Loader.LoadLibrary loader sig h0 sorter0 in
     if negb (ok st0) then Some (st0, h0, sorter1)
     else Some (OK, Loader.FileSpinUnLock h0, sorter1))
    = match ProduceCodes schema with
      | None => None
      | Some codes =>
          match compiler codes with
          | OK =>
              match loader codes with
              | OK => Some (OK, Loader.host false
                                  (<[sig := codes]> (Loader.libraries h)),
                            Some codes)
              | e => Some (e, Loader.host true
                                (<[sig := codes]> (Loader.libraries h)),
                           sorter0)
              end
          | e => Some (e, Loader.host true (Loader.libraries h), sorter0)
          end
      end).
  { intros sorter0. destruct (ProduceCodes schema) as [codes|]; simpl; [|done].
    unfold Loader.CompileCodes, Loader.LoadLibrary.
    destruct (compiler codes) as [|code msg]; simpl; [|done].
    rewrite lookup_insert_eq. by destruct (loader codes). }
  unfold Loader.LoadLibrary at 1. simpl.
  destruct (Loader.libraries h !! sig) as [lib|]; simpl; [|apply Hbuild].
  destruct (loader lib) as [|code msg]; simpl; [done|apply Hbuild].
Qed.

(** ** The composite comparator *)

Lemma comp_body_unfold asc cur keys :
  Impl.comp_body asc cur keys =
  match keys !! cur with
  | None => None
  | Some k =>
      if decide (cur + 1 < length keys)%nat then
        rest ← Impl.comp_body asc (cur + 1) keys;
        Some (Emit.IfEq k rest (Emit.Return (Impl.direction asc) k))
      else Some (Emit.Return (Impl.direction asc) k)
  end.
Proof.
  rewrite Impl.comp_body_equation_1 at 1.
  destruct (keys !! cur); simpl; [|done].
  by destruct (decide _).
Qed.

Lemma CmpOp_eval_direction asc a b :
  CmpOp_eval (Impl.direction asc) a b = strict asc a b.
Proof. by destruct asc. Qed.

Lemma comp_body_composite asc view x y keys :
  forall n cur, (length keys - cur = S n)%nat ->
    exists c, Impl.comp_body asc cur keys = Some c
      /\ Comp_eval view c x y = composite_comparator asc view (drop cur keys) x y.
Proof.
  induction n as [|n IH]; intros cur Hlen.
  - destruct (lookup_lt_is_Some_2 keys cur) as [k Hk]; [lia|].
    rewrite comp_body_unfold, Hk.
    destruct (decide _) as [?|_]; [lia|].
    eexists; split; [done|].
    rewrite (drop_S _ _ _ Hk), drop_ge by lia. simpl.
    destruct (view k x), (view k y); simpl; try done.
    by rewrite CmpOp_eval_direction.
  - destruct (lookup_lt_is_Some_2 keys cur) as [k Hk]; [lia|].
    destruct (IH (cur + 1)%nat) as (c & Hc & Heval); [lia|].
    rewrite comp_body_unfold, Hk.
    destruct (decide _) as [_|?]; [|lia].
    rewrite Hc. simpl. eexists; split; [done|].
    rewrite (drop_S _ _ _ Hk). simpl.
    replace (S cur) with (cur + 1)%nat by lia.
    destruct (lookup_lt_is_Some_2 keys (cur + 1)) as [k' Hk']; [lia|].
    rewrite (drop_S _ _ _ Hk') in *.
    destruct (view k x), (view k y); simpl; try done.
    rewrite Heval. destruct (_ =? _); [done|].
    by rewrite CmpOp_eval_direction.
Qed.

Lemma comp_body_shift asc k l :
  forall n cur, (length l - cur = n)%nat ->
    Impl.comp_body asc (S cur) (k :: l) = Impl.comp_body asc cur l.
Proof.
  induction n as [|n IH]; intros cur Hlen;
    rewrite (comp_body_unfold asc (S cur)), (comp_body_unfold asc cur); simpl.
  - by rewrite lookup_ge_None_2 by lia.
  - destruct (l !! cur) as [k'|]; [|done].
    destruct (decide (S (cur + 1) < S (length l))%nat),
      (decide (cur + 1 < length l)%nat); try lia; [|done].
    by rewrite (IH (cur + 1)%nat) by lia.
Qed.

(** C4: for a key list [k0; k1; ...; kn] the generator emits a comparator
    (its text is what the string builder returns) that compares k0 first,
    on equality goes on with the comparator of the remaining keys, and at
    the last key returns the strict inequality of the direction, [<] when
    ascending and [>] when descending, with nothing after it. *)
Theorem C4_composite_comparator (asc : bool) (k0 : nat) (ks : list nat)
    (view : nat -> ArrayItemIndex -> option Z) (x y : ArrayItemIndex) :
  exists c : Emit.Comp,
    Impl.comp_body asc 0 (k0 :: ks) = Some c
    /\ Impl.GetCompFunction_ asc 0 (k0 :: ks) = Some (Emit.Comp_text c)
    /\ Comp_eval view c x y = composite_comparator asc view (k0 :: ks) x y
    /\ match ks with
       | [] => c = Emit.Return (if asc then Emit.Lt else Emit.Gt) k0
       | _ :: _ =>
           exists c', Impl.comp_body asc 0 ks = Some c'
             /\ c = Emit.IfEq k0 c' (Emit.Return (if asc then Emit.Lt else Emit.Gt) k0)
       end.
Proof.
  destruct (comp_body_composite asc view x y (k0 :: ks) (length ks) 0%nat)
    as (c & Hc & Heval); [simpl; lia|].
  exists c. split; [done|]. split.
  { by rewrite <- GetCompFunction__text, Hc. }
  split; [done|].
  rewrite comp_body_unfold in Hc. simpl in Hc.
  destruct ks as [|k1 ks].
  - simpl in Hc. by injection Hc as <-.
  - destruct (decide _) as [_|?]; [|simpl in *; lia].
    rewrite (comp_body_shift asc k0 (k1 :: ks) _ 0%nat eq_refl) in Hc.
    destruct (Impl.comp_body asc 0 (k1 :: ks)) as [c'|]; [|done].
    exists c'. split; [done|]. simpl in Hc. by injection Hc as <-.
Qed.

(** ** The factory, continued *)

Ltac c3_finish :=
  repeat split; intros;
  repeat match goal with
         | H : ex _ |- _ => destruct H
         | H : _ /\ _ |- _ => destruct H
         end;
  try done; try tauto; try congruence; try (by eexists).

(** C3: the factory builds the in-place variant if and only if there is
    exactly one key and the output schema has exactly one column, and the
    indexed variant in every other case.  Whatever the constructor returns
    is of the class selected by that test, in all that the class decides:
    the key positions are those that the constructor of the class resolved,
    the library is the one that the store holds under the signature, and
    when the first load failed, so that the library was built, it is what
    [ProduceCodes] of the class generates: the in-place sorter in the one
    case and the indexed sorter in the other.  And the constructor does
    return a kernel: with the lock free, keys that resolve, and a toolchain
    and a loader that accept what is generated, it neither throws nor
    stops. *)
Theorem C3_factory_selects_variant compiler loader hash GetCTypeString GetBatchSize
    (key_field_list : list Field) (result_schema : Schema)
    (nulls_first asc : bool) (h : Loader.Host) :
  let inplace :=
    length key_field_list = 1%nat /\ num_fields result_schema = 1%nat in
  let sig := signature hash nulls_first asc key_field_list result_schema in
  (forall k h',
     SortArraysToIndicesKernel.construct compiler loader hash GetCTypeString
       GetBatchSize key_field_list result_schema nulls_first asc h
     = Some (SortArraysToIndicesKernel.Constructed k h') ->
     (SortArraysToIndicesKernel.impl_ k = SortArraysToIndicesKernel.UseSortInplace
      <-> inplace)
     /\ (SortArraysToIndicesKernel.impl_ k = SortArraysToIndicesKernel.UseImpl
         <-> ~ inplace)
     /\ SortArraysToIndicesKernel.nulls_first_ k = nulls_first
     /\ SortArraysToIndicesKernel.asc_ k = asc
     /\ match SortArraysToIndicesKernel.impl_ k with
        | SortArraysToIndicesKernel.UseSortInplace =>
            SortInplaceKernel.key_index_list key_field_list result_schema
        | SortArraysToIndicesKernel.UseImpl =>
            Impl.key_index_list key_field_list result_schema
        end = Some (SortArraysToIndicesKernel.key_index_list_ k)
     /\ is_Some (SortArraysToIndicesKernel.sorter k)
     /\ SortArraysToIndicesKernel.sorter k = Loader.libraries h' !! sig
     /\ (ok (Loader.LoadLibrary loader sig h None).1 = false ->
         SortArraysToIndicesKernel.sorter k
         = match SortArraysToIndicesKernel.impl_ k with
           | SortArraysToIndicesKernel.UseSortInplace =>
               SortInplaceKernel.ProduceCodes nulls_first asc GetCTypeString
                 GetBatchSize result_schema
           | SortArraysToIndicesKernel.UseImpl =>
               Impl.ProduceCodes nulls_first asc GetBatchSize
                 (SortArraysToIndicesKernel.key_index_list_ k) result_schema
           end
         /\ ((exists s, SortArraysToIndicesKernel.sorter k = Some (Emit.Inplace s))
             <-> inplace)
         /\ ((exists s, SortArraysToIndicesKernel.sorter k = Some (Emit.Indexed s))
             <-> ~ inplace)))
  /\ (Loader.lock_held h = false ->
      key_field_list <> [] ->
      is_Some (Impl.key_index_list key_field_list result_schema) ->
      (forall codes, compiler codes = OK) ->
      (forall codes, loader codes = OK) ->
      exists k h',
        SortArraysToIndicesKernel.construct compiler loader hash GetCTypeString
          GetBatchSize key_field_list result_schema nulls_first asc h
        = Some (SortArraysToIndicesKernel.Constructed k h')).
Proof.
  intros inplace sig.
  assert (Htest : (length key_field_list =? 1)%nat
                  && (num_fields result_schema =? 1)%nat = true <-> inplace).
  { unfold inplace. rewrite andb_true_iff, !Nat.eqb_eq. done. }
  unfold SortArraysToIndicesKernel.construct,
    SortArraysToIndicesKernel.variant_of,
    SortArraysToIndicesKernel.new_SortInplaceKernel,
    SortArraysToIndicesKernel.new_Impl.
  destruct ((length key_field_list =? 1)%nat && (num_fields result_schema =? 1)%nat)
    eqn:Ht; cbv iota.
  - (* the in-place class *)
    assert (Hin : inplace) by (by apply Htest).
    split.
    + intros k h'.
      destruct (SortInplaceKernel.key_index_list key_field_list result_schema)
        as [idx|] eqn:Hidx; simpl; [|done].
      rewrite LoadJITFunction_cases. fold sig.
      unfold SortArraysToIndicesKernel.ProduceCodes. simpl.
      unfold Loader.LoadLibrary.
      destruct (Loader.lock_held h); simpl; [done|].
      assert (Hbuild :
        match
          (match SortInplaceKernel.ProduceCodes nulls_first asc GetCTypeString
                   GetBatchSize result_schema with
           | None => None
           | Some codes =>
               match compiler codes with
               | OK =>
                   match loader codes with
                   | OK => Some (OK, Loader.host false
                                       (<[sig := codes]> (Loader.libraries h)),
                                 Some codes)
                   | e => Some (e, Loader.host true
                                     (<[sig := codes]> (Loader.libraries h)),
                                @None Emit.Source)
                   end
               | e => Some (e, Loader.host true (Loader.libraries h), None)
               end
           end) with
        | Some (status, h0, sorter0) =>
            if negb (ok status) then Some (SortArraysToIndicesKernel.Thrown h0)
            else Some (SortArraysToIndicesKernel.Constructed
                         (SortArraysToIndicesKernel.kernel
                            SortArraysToIndicesKernel.UseSortInplace
                            nulls_first asc idx sorter0) h0)
        | None => None
        end = Some (SortArraysToIndicesKernel.Constructed k h') ->
        is_Some (SortArraysToIndicesKernel.sorter k)
        /\ k = SortArraysToIndicesKernel.kernel
                 SortArraysToIndicesKernel.UseSortInplace nulls_first asc idx
                 (SortInplaceKernel.ProduceCodes nulls_first asc GetCTypeString
                    GetBatchSize result_schema)
        /\ SortArraysToIndicesKernel.sorter k = Loader.libraries h' !! sig
        /\ exists s, SortArraysToIndicesKernel.sorter k = Some (Emit.Inplace s)).
      { destruct (SortInplaceKernel.ProduceCodes _ _ _ _ _) as [codes|] eqn:Hp;
          simpl; [|done].
        destruct (compiler codes); simpl; [|done].
        destruct (loader codes); simpl; [|done].
        intros [= <- <-]. simpl. rewrite lookup_insert_eq.
        split; [by eexists|]. split; [done|]. split; [done|].
        unfold SortInplaceKernel.ProduceCodes in Hp.
        destruct (result_schema !! 0%nat); simpl in Hp; [|done].
        injection Hp as <-. by eexists. }
      destruct (Loader.libraries h !! sig) as [lib|] eqn:Hlib; simpl.
      * destruct (loader lib) as [|code msg] eqn:Hload; simpl.
        -- clear Hbuild. intros [= <- <-]. simpl. unfold inplace in *. c3_finish.
        -- intros Hk. destruct (Hbuild Hk) as (Hs & -> & Hst & Hsrc).
           clear Hbuild Hk. simpl in *. unfold inplace in *. c3_finish.
      * intros Hk. destruct (Hbuild Hk) as (Hs & -> & Hst & Hsrc).
        clear Hbuild Hk. simpl in *. unfold inplace in *. c3_finish.
    + intros Hlock Hne [idx0 Hidx0] Hcomp Hload.
      destruct Hin as [Hk1 Hs1].
      assert (Hidx : SortInplaceKernel.key_index_list key_field_list result_schema
                     = Some idx0).
      { unfold SortInplaceKernel.key_index_list. rewrite Hidx0. simpl.
        destruct key_field_list as [|f r]; [done|]. simpl in *.
        destruct (GetAllFieldIndices result_schema (name f)) as [|i [|]]; done. }
      rewrite Hidx. simpl. rewrite LoadJITFunction_cases, Hlock.
      unfold SortArraysToIndicesKernel.ProduceCodes,
        SortInplaceKernel.ProduceCodes. simpl.
      destruct result_schema as [|f0 [|]]; try done. simpl.
      rewrite !Hcomp, !Hload.
      destruct (_ !! _) as [lib|]; [rewrite Hload|]; simpl; by do 2 eexists.
  - (* the indexed class *)
    assert (Hout : ~ inplace) by (by intros Hi%Htest).
    split.
    + intros k h'.
      destruct (Impl.key_index_list key_field_list result_schema)
        as [idx|] eqn:Hidx; simpl; [|done].
      rewrite LoadJITFunction_cases. fold sig.
      unfold SortArraysToIndicesKernel.ProduceCodes. simpl.
      unfold Loader.LoadLibrary.
      destruct (Loader.lock_held h); simpl; [done|].
      assert (Hbuild :
        match
          (match Impl.ProduceCodes nulls_first asc GetBatchSize idx
                   result_schema with
           | None => None
           | Some codes =>
               match compiler codes with
               | OK =>
                   match loader codes with
                   | OK => Some (OK, Loader.host false
                                       (<[sig := codes]> (Loader.libraries h)),
                                 Some codes)
                   | e => Some (e, Loader.host true
                                     (<[sig := codes]> (Loader.libraries h)),
                                @None Emit.Source)
                   end
               | e => Some (e, Loader.host true (Loader.libraries h), None)
               end
           end) with
        | Some (status, h0, sorter0) =>
            if negb (ok status) then Some (SortArraysToIndicesKernel.Thrown h0)
            else Some (SortArraysToIndicesKernel.Constructed
                         (SortArraysToIndicesKernel.kernel
                            SortArraysToIndicesKernel.UseImpl
                            nulls_first asc idx sorter0) h0)
        | None => None
        end = Some (SortArraysToIndicesKernel.Constructed k h') ->
        is_Some (SortArraysToIndicesKernel.sorter k)
        /\ k = SortArraysToIndicesKernel.kernel
                 SortArraysToIndicesKernel.UseImpl nulls_first asc idx
                 (Impl.ProduceCodes nulls_first asc GetBatchSize idx result_schema)
        /\ SortArraysToIndicesKernel.sorter k = Loader.libraries h' !! sig
        /\ exists s, SortArraysToIndicesKernel.sorter k = Some (Emit.Indexed s)).
      { destruct (Impl.ProduceCodes _ _ _ _ _) as [codes|] eqn:Hp;
          simpl; [|done].
        destruct (compiler codes); simpl; [|done].
        destruct (loader codes); simpl; [|done].
        intros [= <- <-]. simpl. rewrite lookup_insert_eq.
        split; [by eexists|]. split; [done|]. split; [done|].
        unfold Impl.ProduceCodes in Hp.
        destruct (Impl.comp_body asc 0 idx); simpl in Hp; [|done].
        injection Hp as <-. by eexists. }
      destruct (Loader.libraries h !! sig) as [lib|] eqn:Hlib; simpl.
      * destruct (loader lib) as [|code msg] eqn:Hload; simpl.
        -- clear Hbuild. intros [= <- <-]. simpl. unfold inplace in *. c3_finish.
        -- intros Hk. destruct (Hbuild Hk) as (Hs & -> & Hst & Hsrc).
           clear Hbuild Hk. simpl in *. unfold inplace in *. c3_finish.
      * intros Hk. destruct (Hbuild Hk) as (Hs & -> & Hst & Hsrc).
        clear Hbuild Hk. simpl in *. unfold inplace in *. c3_finish.
    + intros Hlock Hne [idx Hidx] Hcomp Hload.
      rewrite Hidx. simpl. rewrite LoadJITFunction_cases, Hlock.
      unfold SortArraysToIndicesKernel.ProduceCodes. simpl.
      assert (Hp : is_Some (Impl.ProduceCodes nulls_first asc GetBatchSize idx
                              result_schema)).
      { unfold Impl.ProduceCodes.
        destruct (comp_body_composite asc (fun _ _ => None) (item 0 0) (item 0 0)
                    idx (length idx - 1) 0) as (c & Hc & _).
        { apply key_index_list_length in Hidx.
          destruct key_field_list; [done|]. simpl in Hidx. lia. }
        rewrite Hc. by eexists. }
      destruct Hp as [codes ->]. rewrite !Hcomp, !Hload.
      destruct (_ !! _) as [lib|]; [rewrite Hload|]; simpl; by do 2 eexists.
Qed.

Lemma C3_factory_selects_variant_witness :
  exists k h',
    SortArraysToIndicesKernel.construct (fun _ => OK) (fun _ => OK) (fun _ => 0%N)
      (fun _ => "int32_t") 10000 [field "a" int32 true]
      [field "a" int32 true] true true (Loader.host false ∅)
    = Some (SortArraysToIndicesKernel.Constructed k h').
Proof.
  apply (C3_factory_selects_variant (fun _ => OK) (fun _ => OK) (fun _ => 0%N)
           (fun _ => "int32_t") 10000 [field "a" int32 true]
           [field "a" int32 true] true true (Loader.host false ∅)).
  - reflexivity.
  - discriminate.
  - by eexists.
  - reflexivity.
  - reflexivity.
Defined.

(** ** The sort statement *)

(** C5, as stated, fails: a single ascending key of a non-numeric type gets
    the radix sort as well, in both kernels. *)
Lemma C5_counterexample :
  let key := field "s" utf8 true in
  let schema := [key; field "v" int32 true] in
  is_numeric (type key) = false
  /\ Impl.key_index_list [key] schema = Some [0%nat]
  /\ Emit.algorithm (Impl.sort_func true true [0%nat]) = Emit.ska_sort
  /\ SortArraysToIndicesKernel.variant_of [key] [key]
     = SortArraysToIndicesKernel.UseSortInplace
  /\ Emit.algorithm (SortInplaceKernel.sort_func true true) = Emit.ska_sort.
Proof. repeat split. Qed.

(** C5, amended: the sort statement is the radix sort exactly when the
    direction is ascending and there is exactly one key, whatever the type
    of the key; in every other configuration it is [std::sort] with the
    comparator [comp].  In both cases the range is the region behind the
    [nulls_total_] leading slots (nulls first) or before the [nulls_total_]
    trailing slots (nulls last).  The in-place kernel, which has one key,
    takes the radix sort exactly when ascending, on the same range. *)
Theorem C5_sort_statement (nulls_first asc : bool)
    (key_field_list : list Field) (result_schema : Schema) (idx : list nat)
    (st : TypedSorterImpl.State) (c : TypedSorterImpl.Cursor)
    (H : Impl.key_index_list key_field_list result_schema = Some idx) :
  let call := Impl.sort_func nulls_first asc idx in
  let call' := SortInplaceKernel.sort_func nulls_first asc in
  (Emit.algorithm call = Emit.ska_sort
     <-> asc = true /\ length key_field_list = 1%nat)
  /\ (Emit.algorithm call = Emit.std_sort
        <-> ~ (asc = true /\ length key_field_list = 1%nat))
  /\ match Emit.algorithm call with
     | Emit.ska_sort => exists k, idx = [k] /\ Emit.order call = Emit.ByKey k
     | Emit.std_sort => Emit.order call = Emit.ByComp
     end
  /\ Ptr_eval (TypedSorterImpl.env st c) (Emit.first call)
     = (if nulls_first then TypedSorterImpl.nulls_total_ st else 0)
  /\ Ptr_eval (TypedSorterImpl.env st c) (Emit.last call)
     = (if nulls_first then TypedSorterImpl.items_total_ st
        else TypedSorterImpl.items_total_ st - TypedSorterImpl.nulls_total_ st)
  /\ Emit.SortCall_text call = Impl.GetSortFunction nulls_first asc idx
  /\ (Emit.algorithm call' = Emit.ska_sort <-> asc = true)
  /\ (Emit.algorithm call' = Emit.std_sort <-> asc = false)
  /\ Emit.first call' = Emit.first call /\ Emit.last call' = Emit.last call
  /\ Emit.SortCall_text call' = SortInplaceKernel.GetSortFunction nulls_first asc.
Proof.
  apply key_index_list_length in H.
  intros call call'.
  assert (Hfst : Emit.first call = Impl.sort_first nulls_first).
  { unfold call, Impl.sort_func. destruct asc; [|done]. by destruct idx as [|? [|]]. }
  assert (Hlst : Emit.last call = Impl.sort_last nulls_first).
  { unfold call, Impl.sort_func. destruct asc; [|done]. by destruct idx as [|? [|]]. }
  repeat split.
  all: try (rewrite ?Hfst, ?Hlst; unfold Impl.sort_first, Impl.sort_last;
            destruct nulls_first; simpl; lia).
  all: try apply GetSortFunction_text.
  all: try apply Inplace_GetSortFunction_text.
  all: try (subst call'; unfold SortInplaceKernel.sort_func in *;
            destruct asc; simpl in *; congruence).
  all: subst call; unfold Impl.sort_func in *; rewrite <- ?H.
  all: destruct asc; simpl in *; try done;
    destruct idx as [|k [|k' idx]]; simpl in *; try done; try lia; eauto.
  all: try (intros [_ ?]; done).
  all: try (intros _ [_ ?]; done).
  all: try (intros ?; exfalso; auto).
Qed.

Lemma C5_sort_statement_witness :
  Emit.algorithm (Impl.sort_func true true [0%nat]) = Emit.ska_sort
  <-> true = true /\ length [field "a" int32 true] = 1%nat.
Proof.
  exact (proj1 (C5_sort_statement true true [field "a" int32 true]
                  [field "a" int32 true; field "b" int32 true] [0%nat]
                  (TypedSorterImpl.state [] [] 0 0 0)
                  (TypedSorterImpl.cursor [] 0 0) eq_refl)).
Defined.

(** ** The build/load step *)

(** what [LoadJITFunction] leaves behind: the lock is free again exactly
    when the call returns [OK] *)
Lemma LoadJITFunction_lock compiler loader hash ProduceCodes nf asc keys schema
    h sorter status h' sorter' :
  Loader.LoadJITFunction compiler loader hash ProduceCodes nf asc keys schema h sorter
    = Some (status, h', sorter') ->
  Loader.lock_held h' = negb (ok status).
Proof.
  rewrite LoadJITFunction_cases.
  destruct (Loader.lock_held h); [done|].
  assert (Hbuild :
    match ProduceCodes schema with
    | None => None
    | Some codes =>
        match compiler codes with
        | OK =>
            match loader codes with
            | OK => Some (OK, Loader.host false
                                (<[signature hash nf asc keys schema := codes]>
                                   (Loader.libraries h)), Some codes)
            | e => Some (e, Loader.host true
                              (<[signature hash nf asc keys schema := codes]>
                                 (Loader.libraries h)), sorter)
            end
        | e => Some (e, Loader.host true (Loader.libraries h), sorter)
        end
    end = Some (status, h', sorter') ->
    Loader.lock_held h' = negb (ok status)).
  { destruct (ProduceCodes schema) as [codes|]; [|done].
    destruct (compiler codes); [|by intros [= <- <- <-]].
    destruct (loader codes); by intros [= <- <- <-]. }
  destruct (_ !! _) as [lib|]; [|done].
  destruct (loader lib); [|done]. by intros [= <- <- <-].
Qed.

(** a failed compilation is returned as it is; the compiler is asked once *)
Lemma LoadJITFunction_compile_failure compiler loader hash ProduceCodes nf asc keys
    schema h sorter codes code msg :
  Loader.lock_held h = false ->
  Loader.libraries h !! signature hash nf asc keys schema = None ->
  ProduceCodes schema = Some codes ->
  compiler codes = Error code msg ->
  Loader.LoadJITFunction compiler loader hash ProduceCodes nf asc keys schema h sorter
    = Some (Error code msg, Loader.host true (Loader.libraries h), sorter).
Proof.
  intros Hl Hs Hp Hc. rewrite LoadJITFunction_cases, Hl, Hs, Hp, Hc. done.
Qed.

(** with the lock still held, the next call waits for it without end *)
Lemma LoadJITFunction_waits_when_locked compiler loader hash ProduceCodes nf asc
    keys schema h sorter :
  Loader.lock_held h = true ->
  Loader.LoadJITFunction compiler loader hash ProduceCodes nf asc keys schema h sorter
  = None.
Proof.
  intros Hl. unfold Loader.LoadJITFunction, Loader.FileSpinLock. by rewrite Hl.
Qed.

(** C7: the code at the failing input.  The library is not in the store and
    the toolchain rejects the source: [LoadJITFunction] returns the error of
    the compiler (it is surfaced, and nothing is retried), and the file lock
    taken at the start is still held when the call has returned. *)
Theorem C7_lock_held_after_compile_failure (hash : string -> N)
    (loader : Emit.Source -> Status) :
  let compiler := fun _ : Emit.Source => Error UnknownError "compilation failed" in
  let a := field "a" int32 true in
  let b := field "b" int32 true in
  exists h',
    Loader.LoadJITFunction compiler loader hash
      (Impl.ProduceCodes true true 10000 [0%nat]) true true [a] [a; b]
      (Loader.host false ∅) None
    = Some (Error UnknownError "compilation failed", h', None)
    /\ Loader.lock_held h' = true.
Proof.
  intros compiler a b. eexists. split.
  - rewrite LoadJITFunction_cases. simpl. rewrite lookup_empty. reflexivity.
  - reflexivity.
Qed.


(** ** [Evaluate] *)

Lemma for_each_cached_insert (in_ : list Array) :
  forall (n k : nat) (cached : list (list Array)),
    (k + n <= length in_)%nat -> (k + n <= length cached)%nat ->
    for_each (TypedSorterImpl.cached_insert_run in_) (seq k n) cached
    = Some (take k cached
              ++ zip_with (fun v a => v ++ [a])
                   (take n (drop k cached)) (drop k in_)
              ++ drop (k + n) cached).
Proof.
  induction n as [|n IH]; intros k cached Hin Hc; cbn [for_each seq].
  - simpl. by rewrite Nat.add_0_r, take_drop.
  - destruct (lookup_lt_is_Some_2 in_ k) as [a Ha]; [lia|].
    destruct (lookup_lt_is_Some_2 cached k) as [v Hv]; [lia|].
    replace (TypedSorterImpl.cached_insert_run in_ cached k)
      with (Some (alter (fun v => v ++ [a]) k cached))
      by (unfold TypedSorterImpl.cached_insert_run; by rewrite Ha).
    simpl.
    rewrite IH by (rewrite ?length_alter; lia). f_equal.
    rewrite take_alter_lt, !drop_alter_lt by lia.
    rewrite (take_S_r _ _ _ Hv).
    rewrite alter_app_r_alt by (rewrite length_take; lia).
    replace (k - length (take k cached))%nat with 0%nat
      by (rewrite length_take; lia).
    rewrite (drop_S _ _ _ Ha), (drop_S cached _ _ Hv). simpl.
    rewrite <- app_assoc. simpl.
    by replace (k + S n)%nat with (S (k + n)) by lia.
Qed.

(** C8, as stated, fails: a batch whose two arrays have 2 and 1 rows is
    accepted with [OK], and it is accumulated. *)
Lemma C8_counterexample :
  let a := field "a" int32 true in
  let b := field "b" int32 true in
  let in_ := [[non_null 1; non_null 2]; [non_null 3]] in
  exists src st',
    Impl.ProduceCodes true true 10000 [0%nat] [a; b] = Some (Emit.Indexed src)
    /\ array_length <$> in_ = [2; 1]
    /\ TypedSorterImpl.Evaluate src (TypedSorterImpl.create src) in_ = Some (OK, st')
    /\ st' <> TypedSorterImpl.create src
    /\ TypedSorterImpl.items_total_ st' = 2
    /\ TypedSorterImpl.cached_ st' = [[[non_null 1; non_null 2]]; [[non_null 3]]].
Proof.
  intros a b in_. do 2 eexists.
  split; [reflexivity|]. split; [reflexivity|]. split; [reflexivity|].
  split; [|split; reflexivity].
  intros [=].
Qed.

(** C8, amended: [Evaluate] does not compare row counts.  Every batch that
    has an array for each column is accepted with [OK], whatever the lengths
    of its arrays: each array is appended to the cache of its column, the
    first array is retained, and the running counts grow by the length and
    the null count of the first array.  The in-place kernel does the same
    with the first array alone. *)
Theorem C8_Evaluate_checks_no_row_counts (src : Emit.IndexedSource)
    (st : TypedSorterImpl.State) (st0 : InplaceSorterImpl.State)
    (in_ : list Array) (in0 : Array)
    (Hsrc : Emit.cached_insert src = seq 0 (length (TypedSorterImpl.cached_ st)))
    (Hcols : (length (TypedSorterImpl.cached_ st) <= length in_)%nat)
    (Hin0 : in_ !! 0%nat = Some in0) :
  TypedSorterImpl.Evaluate src st in_
  = Some (OK,
          TypedSorterImpl.state
            (zip_with (fun v a => v ++ [a]) (TypedSorterImpl.cached_ st) in_)
            (TypedSorterImpl.first_ st ++ [in0])
            (wrap64 (TypedSorterImpl.num_batches_ st + 1))
            (wrap64 (TypedSorterImpl.items_total_ st + array_length in0))
            (wrap64 (TypedSorterImpl.nulls_total_ st + null_count in0)))
  /\ InplaceSorterImpl.Evaluate st0 in_
     = Some (OK,
             InplaceSorterImpl.state
               (InplaceSorterImpl.cached_0_ st0 ++ [in0])
               (wrap64 (InplaceSorterImpl.num_batches_ st0 + 1))
               (wrap64 (InplaceSorterImpl.items_total_ st0 + array_length in0))
               (wrap64 (InplaceSorterImpl.nulls_total_ st0 + null_count in0))).
Proof.
  split.
  - unfold TypedSorterImpl.Evaluate. rewrite Hin0, Hsrc. simpl.
    rewrite for_each_cached_insert by (simpl; lia). simpl.
    by rewrite drop_0, firstn_all, drop_all, app_nil_r.
  - unfold InplaceSorterImpl.Evaluate. by rewrite Hin0.
Qed.

Lemma C8_Evaluate_checks_no_row_counts_witness :
  exists st',
    TypedSorterImpl.Evaluate
      (Emit.indexed_source [0%nat; 1%nat] (Emit.Return Emit.Lt 0)
         (Impl.pre_sort_valid true) (Impl.pre_sort_null true)
         (Impl.sort_func true true [0%nat]) [0%nat; 1%nat] 10000)
      (TypedSorterImpl.state [[]; []] [] 0 0 0)
      [[non_null 1; non_null 2]; [non_null 3]]
    = Some (OK, st').
Proof.
  eexists.
  exact (proj1 (C8_Evaluate_checks_no_row_counts
                  (Emit.indexed_source [0%nat; 1%nat] (Emit.Return Emit.Lt 0)
                     (Impl.pre_sort_valid true) (Impl.pre_sort_null true)
                     (Impl.sort_func true true [0%nat]) [0%nat; 1%nat] 10000)
                  (TypedSorterImpl.state [[]; []] [] 0 0 0)
                  InplaceSorterImpl.create
                  [[non_null 1; non_null 2]; [non_null 3]]
                  [non_null 1; non_null 2]
                  eq_refl (le_n 2) eq_refl)).
Defined.

(** ** The result iterators *)

(** while the cursor is before the end of the nulls, the loop appends nulls
    and its counter stays at 0: it is left when the builder refuses *)
Lemma mixed_loop_stuck it length :
  0 < length ->
  InplaceResultIterator.offset_ it < InplaceResultIterator.nulls_total_ it ->
  forall room builder,
    InplaceResultIterator.mixed_loop room it length 0 builder = Failed.
Proof.
  intros Hlen Hoff. induction room as [|room IH]; intros builder; simpl.
  - destruct (Z.ltb_spec 0 length); [|lia]. rewrite Z.add_0_r.
    destruct (Z.ltb_spec (InplaceResultIterator.offset_ it)
                (InplaceResultIterator.nulls_total_ it)); [done|lia].
  - destruct (Z.ltb_spec 0 length); [|lia].
    rewrite Z.add_0_r.
    destruct (Z.ltb_spec (InplaceResultIterator.offset_ it)
                (InplaceResultIterator.nulls_total_ it)); [|lia].
    apply IH.
Qed.

(** C2: the code at the failing input.  The in-place kernel is fed the one
    row [null]; its iterator has a next batch, and the loop of [Next] then
    appends nulls without advancing its counter, until the builder refuses
    a further null: [Next] is left with the error of the builder.  However
    many appends the builder grants, no batch is returned. *)
Theorem C2_inplace_Next_returns_no_batch (room : nat) :
  exists src st it,
    SortInplaceKernel.ProduceCodes true true (fun _ => "int32_t") 10000
      [field "a" int32 true] = Some (Emit.Inplace src)
    /\ InplaceSorterImpl.Evaluate InplaceSorterImpl.create [[null]] = Some (OK, st)
    /\ InplaceSorterImpl.MakeResultIterator reference_library src st
       = Some (OK, Some it)
    /\ InplaceResultIterator.HasNext it = true
    /\ InplaceResultIterator.Next room src it = Failed.
Proof.
  do 3 eexists.
  split; [reflexivity|]. split; [reflexivity|]. split; [reflexivity|].
  split; [reflexivity|].
  unfold InplaceResultIterator.Next. simpl.
  by rewrite mixed_loop_stuck.
Qed.


(** *** The iterator of the indexed kernel *)

Lemma batch_length_min batch offset total :
  0 <= batch < 2 ^ 64 -> 0 <= offset <= total -> total < 2 ^ 64 ->
  SorterResultIterator.batch_length batch offset total
  = Z.min batch (total - offset).
Proof.
  intros Hb Ho Ht. unfold SorterResultIterator.batch_length, wrap64.
  rewrite !Z.mod_small by lia.
  destruct (Z.gtb_spec (total - offset) batch); lia.
Qed.

Lemma for_each_defined {A S : Type} (body : S -> A -> option S) (l : list A) :
  (forall s x, x ∈ l -> is_Some (body s x)) ->
  forall s, is_Some (for_each body l s).
Proof.
  induction l as [|x l IH]; intros Hb s; simpl; [by eexists|].
  destruct (Hb s x) as [s' Hs']; [by left|]. rewrite Hs'. simpl.
  apply IH. intros t y Hy. apply Hb. by right.
Qed.

Lemma typed_build_run_defined cached x builders i col a c :
  cached !! i = Some col ->
  col !! Z.to_nat (array_id x) = Some a ->
  0 <= id x ->
  a !! Z.to_nat (id x) = Some c ->
  is_Some (SorterResultIterator.typed_build_run cached x builders i).
Proof.
  intros Hcol Ha Hid Hc. unfold SorterResultIterator.typed_build_run, IsNull, GetView.
  rewrite Hcol. simpl. rewrite Ha. simpl.
  destruct (Z.ltb_spec (id x) 0); [lia|].
  rewrite Hc. simpl. destruct (valid c); simpl; by eexists.
Qed.

(** One call of [Next] on the indexed iterator: it returns [OK] and a batch
    of [min batch_size (total_length_ - offset_)] rows, and the cursor
    advances by that number. *)
Lemma Indexed_Next_advances src it :
  readable src it ->
  0 <= Emit.batch_size src < 2 ^ 64 ->
  exists batch it',
    SorterResultIterator.Next src it = Some (OK, batch, it')
    /\ num_rows batch
       = Z.min (Emit.batch_size src)
           (SorterResultIterator.total_length_ it - SorterResultIterator.offset_ it)
    /\ SorterResultIterator.offset_ it'
       = SorterResultIterator.offset_ it + num_rows batch
    /\ SorterResultIterator.total_length_ it' = SorterResultIterator.total_length_ it
    /\ readable src it'.
Proof.
  intros (Hlen & Hoff & Htot & Hread) Hb.
  unfold SorterResultIterator.Next.
  rewrite batch_length_min by done.
  set (n := Z.min _ _).
  destruct (for_each_defined (SorterResultIterator.append_item src it)
              (seq 0 (Z.to_nat n))) with (s := SorterResultIterator.builders_ it)
    as [outs Houts].
  { intros s count Hin. apply elem_of_seq in Hin.
    unfold SorterResultIterator.append_item.
    destruct (lookup_lt_is_Some_2 (SorterResultIterator.indices_begin_ it)
                (Z.to_nat (SorterResultIterator.offset_ it + Z.of_nat count)))
      as [x Hx]; [lia|].
    rewrite Hx. simpl. apply for_each_defined.
    intros t i Hi.
    eapply Forall_lookup_1 in Hread; [|exact Hx].
    rewrite Forall_forall in Hread.
    destruct (Hread i Hi) as (col & a & c & ? & ? & ? & ?).
    by eapply typed_build_run_defined. }
  rewrite Houts. simpl. do 2 eexists. split; [reflexivity|]. simpl.
  unfold wrap64. rewrite Z.mod_small by lia.
  repeat split; try done; simpl; lia.
Qed.

(** once the cursor has reached the end, [HasNext] is false, and a further
    [Next] leaves the cursor where it is *)
Lemma Indexed_exhausted src it :
  readable src it ->
  0 <= Emit.batch_size src < 2 ^ 64 ->
  SorterResultIterator.offset_ it = SorterResultIterator.total_length_ it ->
  SorterResultIterator.HasNext it = false
  /\ exists batch it',
       SorterResultIterator.Next src it = Some (OK, batch, it')
       /\ num_rows batch = 0
       /\ SorterResultIterator.HasNext it' = false.
Proof.
  intros Hr Hb Hend.
  assert (Hno : forall jt, SorterResultIterator.offset_ jt
                           = SorterResultIterator.total_length_ jt ->
                           SorterResultIterator.HasNext jt = false).
  { intros jt Hj. unfold SorterResultIterator.HasNext.
    destruct (Z.geb_spec (SorterResultIterator.offset_ jt)
                (SorterResultIterator.total_length_ jt)); [done|lia]. }
  split; [by apply Hno|].
  destruct (Indexed_Next_advances src it Hr Hb) as (b & it' & HN & Hrows & Ho & Ht & _).
  exists b, it'. split; [done|].
  assert (num_rows b = 0) by lia.
  split; [done|]. apply Hno. lia.
Qed.

(** all the rows come out: with a positive batch size, calling [Next] while
    [HasNext] holds ends after at most [total_length_] calls, every batch
    has at most [batch_size] rows, and the batches have
    [total_length_ - offset_] rows together *)
Lemma Indexed_drain src :
  0 < Emit.batch_size src < 2 ^ 64 ->
  forall fuel it,
    readable src it ->
    SorterResultIterator.total_length_ it - SorterResultIterator.offset_ it
      <= Z.of_nat fuel ->
    exists batches,
      drain fuel src it = Done batches
      /\ total_rows batches
         = SorterResultIterator.total_length_ it - SorterResultIterator.offset_ it
      /\ Forall (fun b => 0 < num_rows b <= Emit.batch_size src) batches.
Proof.
  intros Hb. induction fuel as [|fuel IH]; intros it Hr Hfuel.
  - destruct Hr as (Hlen & Hoff & Htot & Hread). simpl.
    unfold SorterResultIterator.HasNext.
    destruct (Z.geb_spec (SorterResultIterator.offset_ it)
                (SorterResultIterator.total_length_ it)); [|lia].
    exists []. simpl. repeat split; [lia|done].
  - simpl. unfold SorterResultIterator.HasNext.
    destruct (Z.geb_spec (SorterResultIterator.offset_ it)
                (SorterResultIterator.total_length_ it)) as [Hge|Hlt].
    + destruct Hr as (Hlen & Hoff & Htot & Hread).
      exists []. simpl. repeat split; [lia|done].
    + destruct (Indexed_Next_advances src it Hr) as (b & it' & HN & Hrows & Ho & Ht & Hr');
        [lia|].
      rewrite HN.
      destruct (IH it' Hr') as (bs & Hbs & Hsum & Hall); [lia|].
      rewrite Hbs. exists (b :: bs). simpl.
      split; [done|]. split; [lia|].
      constructor; [lia|done].
Qed.

(** ** The partition before the sort *)

(** C1: the code at the failing input.  The schema is (a, b) and the key is
    b.  The batch has a null in column a of row 0 and no null in b.  The
    partition loop reads the first array of the batch, column a: row 0 is
    put into the null region although its key is valid, only row 1 is handed
    to the sort, and the keys of the result are 2, 1. *)
Theorem C1_partition_reads_first_array :
  let a := field "a" int32 true in
  let b := field "b" int32 true in
  exists src st c,
    Impl.key_index_list [b] [a; b] = Some [1%nat]
    /\ Impl.ProduceCodes true true 10000 [1%nat] [a; b] = Some (Emit.Indexed src)
    /\ TypedSorterImpl.Evaluate src (TypedSorterImpl.create src)
         [[null; non_null 7]; [non_null 2; non_null 1]] = Some (OK, st)
    /\ TypedSorterImpl.partition_pass src st = Some c
    /\ TypedSorterImpl.indices_buf c = [item 0 0; item 0 1]
    /\ TypedSorterImpl.nulls_total_ st = 1
    /\ Ptr_eval (TypedSorterImpl.env st c) (Emit.first (Emit.sort_func src)) = 1
    /\ Ptr_eval (TypedSorterImpl.env st c) (Emit.last (Emit.sort_func src)) = 2
    /\ TypedSorterImpl.view st 1 (item 0 0) = Some 2
    /\ TypedSorterImpl.view st 1 (item 0 1) = Some 1
    /\ TypedSorterImpl.Finish reference_library (fun _ => OK) src st
       = Some (OK, [item 0 0; item 0 1]).
Proof.
  intros a b. do 3 eexists.
  repeat (split; [reflexivity|]). reflexivity.
Qed.

(** *** What the partition loop of the indexed kernel does *)

Lemma for_each_seq_inv {S : Type} (body : S -> nat -> option S)
    (I : nat -> S -> Prop) :
  forall (n k : nat) (s : S),
    I k s ->
    (forall j t, (k <= j < k + n)%nat -> I j t ->
                 exists t', body t j = Some t' /\ I (Datatypes.S j) t') ->
    exists s', for_each body (seq k n) s = Some s' /\ I (k + n)%nat s'.
Proof.
  induction n as [|n IH]; intros k s Hk Hstep; simpl.
  - exists s. by rewrite Nat.add_0_r.
  - destruct (Hstep k s) as (t & Ht & HI); [lia|done|].
    rewrite Ht. simpl.
    destruct (IH (Datatypes.S k) t HI) as (s' & Hs' & HI').
    { intros j u Hj. apply Hstep. lia. }
    exists s'. split; [done|]. by replace (k + Datatypes.S n)%nat
      with (Datatypes.S k + n)%nat by lia.
Qed.

Lemma nulls_of_app r1 r2 : nulls_of (r1 ++ r2) = nulls_of r1 ++ nulls_of r2.
Proof. unfold nulls_of. by rewrite filter_app, fmap_app. Qed.

Lemma valids_of_app r1 r2 : valids_of (r1 ++ r2) = valids_of r1 ++ valids_of r2.
Proof. unfold valids_of. by rewrite filter_app, fmap_app. Qed.

Lemma nulls_valids_length rows :
  (length (nulls_of rows) + length (valids_of rows) = length rows)%nat.
Proof.
  unfold nulls_of, valids_of. rewrite !length_fmap.
  induction rows as [|[x [[] v]] rows IH]; [done| |].
  - rewrite (filter_cons_False (fun r => valid r.2 = false)) by done.
    rewrite (filter_cons_True (fun r => valid r.2 = true)) by done.
    simpl. lia.
  - rewrite (filter_cons_True (fun r => valid r.2 = false)) by done.
    rewrite (filter_cons_False (fun r => valid r.2 = true)) by done.
    simpl. lia.
Qed.

Lemma layout_length nf n_nulls n_valid done :
  (length (nulls_of done) <= n_nulls)%nat ->
  (length (valids_of done) <= n_valid)%nat ->
  length (TypedSorterImpl.indices_buf (layout nf n_nulls n_valid done))
  = (n_nulls + n_valid)%nat.
Proof.
  intros Hn Hv. unfold layout. destruct nf; simpl;
    rewrite !length_app, !length_replicate; lia.
Qed.

Lemma insert_first_free {A : Type} (pre post buf : list A) (x y : A) (k : nat) :
  buf = pre ++ y :: post -> k = length pre ->
  <[k := x]> buf = pre ++ x :: post.
Proof.
  intros -> ->. rewrite insert_app_r_alt by lia. by rewrite Nat.sub_diag.
Qed.

Ltac store_at pre :=
  erewrite (insert_first_free pre);
  [|rewrite <- ?app_assoc; reflexivity
   |rewrite ?length_app, ?length_replicate; lia].

Lemma nulls_of_single x c : nulls_of [(x, c)] = if valid c then [] else [x].
Proof. by destruct c as [[] v]. Qed.

Lemma valids_of_single x c : valids_of [(x, c)] = if valid c then [x] else [].
Proof. by destruct c as [[] v]. Qed.

(** one row more: the store of the row and the step of its counter *)
Lemma visit_row_layout nf src st n_nulls n_valid done aid (a : Array) i c :
  Emit.pre_sort_valid src = Impl.pre_sort_valid nf ->
  Emit.pre_sort_null src = Impl.pre_sort_null nf ->
  TypedSorterImpl.items_total_ st = Z.of_nat (n_nulls + n_valid) ->
  TypedSorterImpl.nulls_total_ st = Z.of_nat n_nulls ->
  Z.of_nat aid < 2 ^ 32 -> Z.of_nat i < 2 ^ 32 ->
  a !! i = Some c ->
  let row := (item (Z.of_nat aid) (Z.of_nat i), c) in
  (length (nulls_of (done ++ [row])) <= n_nulls)%nat ->
  (length (valids_of (done ++ [row])) <= n_valid)%nat ->
  TypedSorterImpl.visit_row src st aid a (layout nf n_nulls n_valid done) i
  = Some (layout nf n_nulls n_valid (done ++ [row])).
Proof.
  intros Hsv Hsn Hit Hnt Haid Hi Hc row. subst row.
  rewrite nulls_of_app, valids_of_app, !length_app.
  rewrite nulls_of_single, valids_of_single. intros Hn Hv.
  unfold TypedSorterImpl.visit_row, IsNull.
  destruct (Z.ltb_spec (Z.of_nat i) 0); [lia|].
  rewrite Nat2Z.id, Hc. simpl.
  unfold TypedSorterImpl.store. rewrite Hsv, Hsn.
  rewrite layout_length by (destruct (valid c); simpl in *; lia).
  unfold wrap32. rewrite !Z.mod_small by lia.
  unfold layout. rewrite nulls_of_app, valids_of_app, !length_app.
  rewrite nulls_of_single, valids_of_single.
  set (ns := nulls_of done) in *. set (vs := valids_of done) in *.
  destruct (valid c); simpl in Hn, Hv |- *.
  - rewrite app_nil_r, Nat.add_0_r.
    destruct (n_valid - length vs)%nat as [|m] eqn:Hm; [lia|].
    replace (n_valid - (length vs + 1))%nat with m by lia.
    destruct nf; simpl; rewrite ?Hit, ?Hnt;
      (rewrite (proj2 (andb_true_iff _ _))
         by (split; [apply Z.leb_le|apply Z.ltb_lt]; lia)); simpl.
    + store_at ((ns ++ replicate (n_nulls - length ns) (item 0 0)) ++ vs).
      do 2 f_equal; [|lia]. rewrite <- ?app_assoc. reflexivity.
    + store_at vs.
      do 2 f_equal; [|lia]. rewrite <- ?app_assoc. reflexivity.
  - rewrite app_nil_r, Nat.add_0_r.
    destruct (n_nulls - length ns)%nat as [|m] eqn:Hm; [lia|].
    replace (n_nulls - (length ns + 1))%nat with m by lia.
    destruct nf; simpl; rewrite ?Hit, ?Hnt;
      (rewrite (proj2 (andb_true_iff _ _))
         by (split; [apply Z.leb_le|apply Z.ltb_lt]; lia)); simpl.
    + store_at ns.
      do 2 f_equal; [|lia]. rewrite <- ?app_assoc. reflexivity.
    + store_at ((vs ++ replicate (n_valid - length vs) (item 0 0)) ++ ns).
      do 2 f_equal; [|lia]. rewrite <- ?app_assoc. reflexivity.
Qed.

Lemma nulls_of_take_le rows n done :
  (length (nulls_of (done ++ take n rows)) <= length (nulls_of (done ++ rows)))%nat.
Proof.
  rewrite <- (take_drop n rows) at 2.
  rewrite !nulls_of_app, !length_app. lia.
Qed.

Lemma valids_of_take_le rows n done :
  (length (valids_of (done ++ take n rows)) <= length (valids_of (done ++ rows)))%nat.
Proof.
  rewrite <- (take_drop n rows) at 2.
  rewrite !valids_of_app, !length_app. lia.
Qed.

Lemma rows_of_take_S aid (a : Array) j c :
  a !! j = Some c ->
  take (S j) (rows_of aid a)
  = take j (rows_of aid a) ++ [(item (Z.of_nat aid) (Z.of_nat j), c)].
Proof.
  intros Hc. apply take_S_r. unfold rows_of.
  by rewrite list_lookup_imap, Hc.
Qed.

(** one array more *)
Lemma visit_array_layout nf src st n_nulls n_valid done aid (a : Array) :
  Emit.pre_sort_valid src = Impl.pre_sort_valid nf ->
  Emit.pre_sort_null src = Impl.pre_sort_null nf ->
  TypedSorterImpl.items_total_ st = Z.of_nat (n_nulls + n_valid) ->
  TypedSorterImpl.nulls_total_ st = Z.of_nat n_nulls ->
  TypedSorterImpl.first_ st !! aid = Some a ->
  Z.of_nat aid < 2 ^ 32 -> Z.of_nat (length a) <= 2 ^ 32 ->
  (length (nulls_of (done ++ rows_of aid a)) <= n_nulls)%nat ->
  (length (valids_of (done ++ rows_of aid a)) <= n_valid)%nat ->
  TypedSorterImpl.visit_array src st (layout nf n_nulls n_valid done) aid
  = Some (layout nf n_nulls n_valid (done ++ rows_of aid a)).
Proof.
  intros Hsv Hsn Hit Hnt Ha Haid Hlen Hn Hv.
  unfold TypedSorterImpl.visit_array. rewrite Ha. simpl.
  destruct (for_each_seq_inv (TypedSorterImpl.visit_row src st aid a)
              (fun j c => c = layout nf n_nulls n_valid
                                (done ++ take j (rows_of aid a)))
              (length a) 0 (layout nf n_nulls n_valid done))
    as (c & Hc & ->).
  - by rewrite take_0, app_nil_r.
  - intros j t [_ Hj] ->. simpl in Hj.
    destruct (lookup_lt_is_Some_2 a j Hj) as [cj Hcj].
    eexists. split; [|reflexivity].
    rewrite (rows_of_take_S _ _ _ _ Hcj), app_assoc.
    apply (visit_row_layout nf src st n_nulls n_valid _ aid a j cj);
      try done; try lia.
    + rewrite <- app_assoc, <- rows_of_take_S by done.
      etrans; [apply nulls_of_take_le|done].
    + rewrite <- app_assoc, <- rows_of_take_S by done.
      etrans; [apply valids_of_take_le|done].
  - rewrite Hc. simpl. f_equal. f_equal. f_equal.
    apply take_ge. unfold rows_of. by rewrite length_imap.
Qed.

Lemma rows_in_order_take_S (first : list Array) k a :
  first !! k = Some a ->
  rows_in_order (take (S k) first) = rows_in_order (take k first) ++ rows_of k a.
Proof.
  intros Ha. unfold rows_in_order.
  rewrite (take_S_r _ _ _ Ha), imap_app, concat_app. simpl.
  rewrite app_nil_r, length_take, Nat.add_0_r.
  apply lookup_lt_Some in Ha.
  by replace (k `min` length first)%nat with k by lia.
Qed.

Lemma rows_in_order_take_le (first : list Array) k :
  exists rest, rows_in_order first = rows_in_order (take k first) ++ rest.
Proof.
  unfold rows_in_order.
  exists (concat (imap (fun n => rows_of (length (take k first) + n))
                    (drop k first))).
  by rewrite <- concat_app, <- imap_app, take_drop.
Qed.

(** while the rows are fewer than 2^60, the byte size is not cut *)
Lemma buf_size_small st :
  0 <= TypedSorterImpl.items_total_ st < 2 ^ 60 ->
  TypedSorterImpl.buf_size st = 8 * TypedSorterImpl.items_total_ st.
Proof.
  intros H. unfold TypedSorterImpl.buf_size, TypedSorterImpl.sizeof_ArrayItemIndex,
    wrap64.
  rewrite Z.mod_small by lia.
  destruct (Z.ltb_spec (TypedSorterImpl.items_total_ st * 8) (2 ^ 63)); lia.
Qed.

(** the partition loop of [Finish]: the rows with a null first cell, in
    the order of the visit, and the rows with a valid first cell, in that
    order, each group in its region *)
Lemma partition_pass_layout nf src st :
  Emit.pre_sort_valid src = Impl.pre_sort_valid nf ->
  Emit.pre_sort_null src = Impl.pre_sort_null nf ->
  consistent st ->
  let rows := rows_in_order (TypedSorterImpl.first_ st) in
  TypedSorterImpl.partition_pass src st
  = Some (TypedSorterImpl.cursor
            (if nf then nulls_of rows ++ valids_of rows
             else valids_of rows ++ nulls_of rows)
            (Z.of_nat (length (valids_of rows)))
            (Z.of_nat (length (nulls_of rows)))).
Proof.
  intros Hsv Hsn (Hnb & Hit & Hnt & Hcnt & Hlens & Hsz) rows.
  set (n_nulls := length (nulls_of rows)).
  set (n_valid := length (valids_of rows)).
  assert (Hsum : (n_nulls + n_valid = length rows)%nat)
    by apply nulls_valids_length.
  unfold TypedSorterImpl.partition_pass.
  rewrite buf_size_small by lia.
  unfold TypedSorterImpl.sizeof_ArrayItemIndex.
  replace (8 * TypedSorterImpl.items_total_ st / 8)
    with (TypedSorterImpl.items_total_ st)
    by (rewrite Z.mul_comm, Z.div_mul; lia).
  rewrite Z.leb_refl.
  rewrite Hnb, Hit, !Nat2Z.id. fold rows. rewrite <- Hsum.
  destruct (for_each_seq_inv
              (fun c array_id =>
                 c ← TypedSorterImpl.visit_array src st c array_id;
                 _ ← TypedSorterImpl.next_array_id array_id;
                 Some c)
              (fun k c => c = layout nf n_nulls n_valid
                                (rows_in_order (take k (TypedSorterImpl.first_ st))))
              (length (TypedSorterImpl.first_ st)) 0
              (TypedSorterImpl.cursor (replicate (n_nulls + n_valid) (item 0 0)) 0 0))
    as (c & Hc & ->).
  - unfold layout. simpl. rewrite !Nat.sub_0_r.
    destruct nf; [by rewrite replicate_add|].
    by rewrite Nat.add_comm, replicate_add.
  - intros k t [_ Hk] ->. simpl in Hk.
    destruct (lookup_lt_is_Some_2 _ k Hk) as [a Ha].
    eexists. split; [|reflexivity].
    rewrite (rows_in_order_take_S _ _ _ Ha).
    destruct (rows_in_order_take_le (TypedSorterImpl.first_ st) (S k))
      as [rest Hrest].
    rewrite (rows_in_order_take_S _ _ _ Ha) in Hrest.
    rewrite (visit_array_layout nf src st n_nulls n_valid
               (rows_in_order (take k (TypedSorterImpl.first_ st))) k a);
      try done; try lia.
    + simpl. unfold TypedSorterImpl.next_array_id.
      destruct (Z.ltb_spec (Z.of_nat k) (2 ^ 31 - 1)); [done|lia].
    + by rewrite Hit, Hsum.
    + by eapply Forall_lookup_1 in Hlens.
    + unfold n_nulls, rows. rewrite Hrest, !nulls_of_app, !length_app. lia.
    + unfold n_valid, rows. rewrite Hrest, !valids_of_app, !length_app. lia.
  - rewrite Hc. simpl. rewrite firstn_all. fold rows. unfold layout.
    fold n_nulls n_valid. rewrite !Nat.sub_diag. simpl.
    by rewrite !app_nil_r.
Qed.

(** the sort statement receives the rows with a valid first cell, and only
    those; the null region keeps its place and its order *)
Lemma sort_pass_layout lib nf asc idx src st i n :
  Emit.sort_func src = Impl.sort_func nf asc idx ->
  consistent st ->
  let rows := rows_in_order (TypedSorterImpl.first_ st) in
  TypedSorterImpl.sort_pass lib src st
    (TypedSorterImpl.cursor
       (if nf then nulls_of rows ++ valids_of rows
        else valids_of rows ++ nulls_of rows) i n)
  = sorted ← TypedSorterImpl.sort_items lib src st (valids_of rows);
    Some (if nf then nulls_of rows ++ sorted else sorted ++ nulls_of rows).
Proof.
  intros Hsort (_ & Hit & Hnt & _) rows.
  pose proof (nulls_valids_length rows) as Hsum.
  unfold TypedSorterImpl.sort_pass, sort_range.
  assert (Hf : Emit.first (Emit.sort_func src) = Impl.sort_first nf).
  { rewrite Hsort. unfold Impl.sort_func.
    destruct asc; [|done]. by destruct idx as [|? [|]]. }
  assert (Hl : Emit.last (Emit.sort_func src) = Impl.sort_last nf).
  { rewrite Hsort. unfold Impl.sort_func.
    destruct asc; [|done]. by destruct idx as [|? [|]]. }
  rewrite Hf, Hl. fold rows in Hit, Hnt.
  destruct nf; simpl; rewrite ?Hit, ?Hnt, ?length_app.
  - repeat match goal with
           | |- context [?a <=? ?b] => rewrite (proj2 (Z.leb_le a b)) by lia
           end; simpl.
    replace (Z.to_nat (0 + Z.of_nat (length rows)
                       - (0 + Z.of_nat (length (nulls_of rows)))))
      with (length (valids_of rows)) by lia.
    replace (Z.to_nat (0 + Z.of_nat (length (nulls_of rows))))
      with (length (nulls_of rows)) by lia.
    replace (Z.to_nat (0 + Z.of_nat (length rows)))
      with (length (nulls_of rows ++ valids_of rows))
      by (rewrite length_app; lia).
    rewrite drop_app_length, firstn_all, take_app_length, drop_all.
    destruct (TypedSorterImpl.sort_items lib src st (valids_of rows)); simpl;
      [|done].
    by rewrite app_nil_r.
  - repeat match goal with
           | |- context [?a <=? ?b] => rewrite (proj2 (Z.leb_le a b)) by lia
           end; simpl.
    replace (Z.to_nat (0 + Z.of_nat (length rows)
                       - Z.of_nat (length (nulls_of rows)) - 0))
      with (length (valids_of rows)) by lia.
    replace (Z.to_nat (0 + Z.of_nat (length rows)
                       - Z.of_nat (length (nulls_of rows))))
      with (length (valids_of rows)) by lia.
    change (Z.to_nat 0) with 0%nat. rewrite drop_0.
    by rewrite take_app_length, drop_app_length.
Qed.

(** [Finish] of the indexed kernel as a whole: the error of the pool when
    it refuses the buffer, and the sorted indices otherwise *)
Lemma Finish_layout lib pool nf asc batch idx schema src st :
  Impl.ProduceCodes nf asc batch idx schema = Some (Emit.Indexed src) ->
  consistent st ->
  let rows := rows_in_order (TypedSorterImpl.first_ st) in
  TypedSorterImpl.Finish lib pool src st
  = match pool (8 * TypedSorterImpl.items_total_ st) with
    | OK =>
        sorted ← TypedSorterImpl.sort_items lib src st (valids_of rows);
        Some (OK, if nf then nulls_of rows ++ sorted else sorted ++ nulls_of rows)
    | e => Some (e, [])
    end.
Proof.
  intros Hp Hst rows. unfold Impl.ProduceCodes in Hp.
  destruct (Impl.comp_body asc 0 idx) as [body|]; simpl in Hp; [|done].
  injection Hp as <-. unfold TypedSorterImpl.Finish.
  rewrite buf_size_small by (destruct Hst as (_ & Hit & _ & _ & _ & Hsz); lia).
  destruct (pool _); [|done].
  rewrite (partition_pass_layout nf) by done. simpl.
  rewrite (sort_pass_layout lib nf asc idx) by done. fold rows.
  by destruct (TypedSorterImpl.sort_items _ _ _ _).
Qed.

Lemma create_consistent src : consistent (TypedSorterImpl.create src).
Proof. repeat split; simpl; try done. Qed.

Lemma rows_in_order_snoc (first : list Array) (a : Array) :
  rows_in_order (first ++ [a]) = rows_in_order first ++ rows_of (length first) a.
Proof.
  unfold rows_in_order. rewrite imap_app, concat_app. simpl.
  by rewrite app_nil_r, Nat.add_0_r.
Qed.

Lemma length_rows_of aid (a : Array) : length (rows_of aid a) = length a.
Proof. unfold rows_of. apply length_imap. Qed.

Lemma length_nulls_of_imap (f : nat -> Cell -> ArrayItemIndex * Cell) :
  forall a : Array,
    (forall i c, snd (f i c) = c) ->
    length (nulls_of (imap f a)) = length (filter (fun c => valid c = false) a).
Proof.
  intros a. revert f. induction a as [|c a IH]; intros f Hf; [done|].
  rewrite imap_cons.
  change (f 0%nat c :: imap (f ∘ S) a) with ([f 0%nat c] ++ imap (f ∘ S) a).
  rewrite nulls_of_app, length_app, IH by (intros; apply Hf).
  unfold nulls_of. rewrite length_fmap.
  destruct (valid c) eqn:Hc.
  - rewrite filter_cons_False by (simpl; rewrite Hf; congruence).
    rewrite (filter_cons_False (fun c => valid c = false)) by congruence.
    done.
  - rewrite filter_cons_True by (simpl; by rewrite Hf).
    rewrite (filter_cons_True (fun c => valid c = false)) by done.
    done.
Qed.

Lemma null_count_rows_of aid (a : Array) :
  null_count a = Z.of_nat (length (nulls_of (rows_of aid a))).
Proof. unfold null_count, rows_of. by rewrite length_nulls_of_imap. Qed.

(** [Evaluate] keeps the counters in step with what is retained, as long as
    the 64-bit counters and the 32-bit positions do not overflow *)
Lemma Evaluate_consistent src st in_ in0 status st' :
  consistent st ->
  in_ !! 0%nat = Some in0 ->
  Z.of_nat (length (TypedSorterImpl.first_ st)) < 2 ^ 31 - 1 ->
  Z.of_nat (length in0) <= 2 ^ 32 ->
  TypedSorterImpl.items_total_ st + array_length in0 < 2 ^ 60 ->
  TypedSorterImpl.Evaluate src st in_ = Some (status, st') ->
  status = OK /\ consistent st'.
Proof.
  intros (Hnb & Hit & Hnt & Hcnt & Hlens & Hsz) Hin0 Hb Hl Hsum.
  unfold TypedSorterImpl.Evaluate. rewrite Hin0. simpl.
  destruct (for_each _ _ _) as [cached|]; simpl; [|done].
  intros [= <- <-]. split; [done|].
  pose proof (nulls_valids_length (rows_in_order (TypedSorterImpl.first_ st))).
  pose proof (nulls_valids_length (rows_of (length (TypedSorterImpl.first_ st)) in0)).
  pose proof (length_rows_of (length (TypedSorterImpl.first_ st)) in0).
  unfold array_length in *.
  repeat split; simpl.
  - rewrite Hnb, length_app. simpl. unfold wrap64.
    rewrite Z.mod_small; lia.
  - rewrite rows_in_order_snoc, length_app, Hit, length_rows_of.
    unfold wrap64. rewrite Z.mod_small; lia.
  - rewrite rows_in_order_snoc, nulls_of_app, length_app, Hnt.
    rewrite (null_count_rows_of (length (TypedSorterImpl.first_ st))).
    unfold wrap64. rewrite Z.mod_small; lia.
  - rewrite length_app. simpl. lia.
  - apply Forall_app. split; [done|]. by constructor.
  - unfold wrap64. rewrite Z.mod_small; lia.
Qed.

(** *** What the partition of the in-place kernel does *)

(** The lambda of [std::stable_partition] receives an element of the value
    buffer and passes it to [IsNull] as a row number.  Here the rows are
    2, null, 0: the values 2, 0, 0 are tested as rows 2, 0, 0, none of which
    is null, so nothing moves, and the value 2 stays in the slot that the
    iterator reports as null. *)
Lemma Inplace_partition_tests_values :
  exists src st it,
    SortInplaceKernel.ProduceCodes true true (fun _ => "int32_t") 10000
      [field "a" int32 true] = Some (Emit.Inplace src)
    /\ InplaceSorterImpl.Evaluate InplaceSorterImpl.create
         [[non_null 2; null; non_null 0]] = Some (OK, st)
    /\ InplaceSorterImpl.MakeResultIterator reference_library src st
       = Some (OK, Some it)
    /\ InplaceResultIterator.nulls_total_ it = 1
    /\ InplaceResultIterator.indices_begin_ it = [2; 0; 0].
Proof.
  do 3 eexists. repeat (split; [reflexivity|]). reflexivity.
Qed.

(** ** Terminal operation before any [Evaluate] *)

Lemma sort_items_nil lib nf asc idx src st :
  rearranges lib ->
  Emit.sort_func src = Impl.sort_func nf asc idx ->
  TypedSorterImpl.sort_items lib src st [] = Some [].
Proof.
  intros [Hska Hstd] Hsort. unfold TypedSorterImpl.sort_items.
  rewrite Hsort. unfold Impl.sort_func.
  destruct asc; [destruct idx as [|k [|]]|]; simpl; f_equal;
    apply Permutation_nil_r; (apply Hska || apply Hstd).
Qed.

(** the indexed kernel: an empty index array and an exhausted iterator,
    when the pool grants the buffer of no bytes *)
Lemma Indexed_empty_ok lib pool nf asc batch idx schema src :
  rearranges lib ->
  Impl.ProduceCodes nf asc batch idx schema = Some (Emit.Indexed src) ->
  pool 0 = OK ->
  exists it,
    TypedSorterImpl.MakeResultIterator lib pool src (TypedSorterImpl.create src)
      = Some (OK, Some it)
    /\ SorterResultIterator.indices_begin_ it = []
    /\ SorterResultIterator.HasNext it = false.
Proof.
  intros Hlib Hp Hpool. unfold TypedSorterImpl.MakeResultIterator.
  rewrite (Finish_layout lib pool nf asc batch idx schema)
    by (done || apply create_consistent).
  change (8 * TypedSorterImpl.items_total_ (TypedSorterImpl.create src)) with 0.
  rewrite Hpool.
  assert (Hsort : Emit.sort_func src = Impl.sort_func nf asc idx).
  { unfold Impl.ProduceCodes in Hp.
    destruct (Impl.comp_body asc 0 idx); simpl in Hp; [|done].
    by injection Hp as <-. }
  change (rows_in_order (TypedSorterImpl.first_ (TypedSorterImpl.create src)))
    with (@nil (ArrayItemIndex * Cell)).
  change (valids_of []) with (@nil ArrayItemIndex).
  rewrite (sort_items_nil lib nf asc idx) by done. simpl.
  eexists. split; [reflexivity|]. by destruct nf.
Qed.

(** C9: the code at the failing input.  For the in-place kernel the terminal
    operation before any [Evaluate] hands an empty vector to
    [arrow::Concatenate], and the error of that call is returned: there is no
    empty result and no iterator. *)
Theorem C9_inplace_empty_is_an_error (lib : SortLibrary) (src : Emit.InplaceSource) :
  InplaceSorterImpl.MakeResultIterator lib src InplaceSorterImpl.create
  = Some (Error Invalid "Must pass at least one array", None).
Proof. reflexivity. Qed.

(** ** The signature *)

Lemma append_cons c (s t : string) : String c s +:+ t = String c (s +:+ t).
Proof. reflexivity. Qed.

Lemma prefix_empty (s : string) : String.prefix "" s = true.
Proof. by destruct s. Qed.

Lemma prefix_cons a b (s t : string) :
  String.prefix (String a s) (String b t) = true <-> a = b /\ String.prefix s t = true.
Proof.
  simpl. destruct (ascii_dec a b) as [->|Hne]; [tauto|].
  split; [done|]. by intros [? _].
Qed.

Lemma occurs_prefix tok s : String.prefix tok s = true -> occurs tok s = true.
Proof. intros H. destruct s; simpl in *; rewrite H; done. Qed.

Lemma occurs_after (t : string) c r : occurs (String c "") (t +:+ String c r) = true.
Proof.
  induction t as [|b t IH].
  - apply occurs_prefix. change ("" +:+ String c r) with (String c r).
    apply prefix_cons. split; [done|apply prefix_empty].
  - rewrite append_cons. cbn [occurs]. rewrite IH. apply orb_true_r.
Qed.

(** if [tok] begins [u +:+ w], it begins [u] already, or [u] is a proper
    beginning of [tok] and the rest of [tok] begins [w] *)
Lemma prefix_app_cases (tok : string) :
  forall u w : string,
    String.prefix tok (u +:+ w) = true ->
    String.prefix tok u = true
    \/ exists t2, tok = u +:+ t2 /\ String.prefix t2 w = true.
Proof.
  induction tok as [|a tok IH]; intros u w H.
  - left. apply prefix_empty.
  - destruct u as [|b u].
    + right. by exists (String a tok).
    + rewrite append_cons in H. apply prefix_cons in H as [-> H].
      destruct (IH u w H) as [Hp|(t2 & -> & Hp)].
      * left. by apply prefix_cons.
      * right. by exists t2.
Qed.

Lemma starts_with_marker_head (s : string) :
  starts_with_marker s = true -> exists r, s = String "[" r.
Proof.
  unfold starts_with_marker, key_marker, schema_marker.
  destruct s as [|c s]; [done|].
  intros H. apply orb_true_iff in H.
  destruct H as [H|H]; apply prefix_cons in H as [<- _]; by eexists.
Qed.

(** a marker has its only bracket at the front *)
Lemma marker_split (tok u : string) c t2 :
  tok = String c u +:+ String "[" t2 ->
  occurs (String "[" "") (match tok with EmptyString => "" | String _ r => r end)
  = true.
Proof. intros ->. rewrite append_cons. apply occurs_after. Qed.

Lemma append_empty_r (s : string) : s +:+ "" = s.
Proof. induction s as [|c s IH]; [done|]. by rewrite append_cons, IH. Qed.

Lemma occurs_self (tok : string) : occurs tok tok = true.
Proof.
  apply occurs_prefix. induction tok as [|c tok IH]; [done|].
  by apply prefix_cons.
Qed.

(** a marker cannot begin inside a marker-free text and end in a text that
    begins with a marker *)
Lemma no_marker_across (u w : string) c :
  starts_with_marker (String c u +:+ w) = true ->
  starts_with_marker w = true ->
  marker_free (String c u) = false.
Proof.
  intros Hs Hw.
  destruct (starts_with_marker_head _ Hw) as [w' ->].
  unfold starts_with_marker in Hs. apply orb_true_iff in Hs.
  unfold marker_free. apply andb_false_iff.
  rewrite !negb_false_iff.
  destruct Hs as [Hs|Hs]; [left|right];
    (apply prefix_app_cases in Hs as [Hs|(t2 & Ht & Hs)];
     [by apply occurs_prefix|]);
    (destruct t2 as [|d t2];
     [rewrite append_empty_r in Ht; rewrite <- Ht; apply occurs_self|]);
    exfalso; apply prefix_cons in Hs as [-> _].
  - pose proof (marker_split _ _ _ _ Ht) as Hocc. discriminate Hocc.
  - pose proof (marker_split _ _ _ _ Ht) as Hocc. discriminate Hocc.
Qed.

Lemma marker_free_tail c s : marker_free (String c s) = true -> marker_free s = true.
Proof.
  unfold marker_free. cbn [occurs].
  rewrite !andb_true_iff, !negb_true_iff, !orb_false_iff. tauto.
Qed.

Lemma app_marker_inj (s : string) :
  forall s' r r' : string,
    marker_free s = true -> marker_free s' = true ->
    starts_with_marker r = true -> starts_with_marker r' = true ->
    s +:+ r = s' +:+ r' -> s = s' /\ r = r'.
Proof.
  induction s as [|c s IH]; intros [|c' s'] r r' Hs Hs' Hr Hr' Heq.
  - done.
  - change ("" +:+ r) with r in Heq. subst r.
    by rewrite (no_marker_across _ _ _ Hr Hr') in Hs'.
  - change ("" +:+ r') with r' in Heq. subst r'.
    by rewrite (no_marker_across _ _ _ Hr' Hr) in Hs.
  - rewrite !append_cons in Heq. injection Heq as -> Heq.
    destruct (IH s' r r') as [-> ->];
      eauto using marker_free_tail.
Qed.

Lemma sort_key_args_cons f r :
  sort_key_args 0 (f :: r) = key_marker +:+ Field_ToString f +:+ sort_key_args 0 r.
Proof. reflexivity. Qed.

Lemma prefix_app_self (tok rest : string) : String.prefix tok (tok +:+ rest) = true.
Proof.
  induction tok as [|c tok IH]; [apply prefix_empty|].
  rewrite append_cons. by apply prefix_cons.
Qed.

Lemma key_part_starts_with_marker keys (rest : string) :
  starts_with_marker (sort_key_args 0 keys +:+ schema_marker +:+ rest) = true.
Proof.
  unfold starts_with_marker. destruct keys as [|f r].
  - change (sort_key_args 0 [] +:+ schema_marker +:+ rest)
      with (schema_marker +:+ rest).
    rewrite (prefix_app_self schema_marker). apply orb_true_r.
  - rewrite sort_key_args_cons, !append_assoc.
    by rewrite (prefix_app_self key_marker).
Qed.

(** the keys, read back from the argument string *)
Lemma key_part_inj (keys : list Field) :
  forall (keys' : list Field) (rest rest' : string),
    Forall (fun f => marker_free (Field_ToString f) = true) keys ->
    Forall (fun f => marker_free (Field_ToString f) = true) keys' ->
    sort_key_args 0 keys +:+ schema_marker +:+ rest
    = sort_key_args 0 keys' +:+ schema_marker +:+ rest' ->
    Field_ToString <$> keys = Field_ToString <$> keys' /\ rest = rest'.
Proof.
  induction keys as [|f r IH]; intros [|f' r'] rest rest' Hk Hk' Heq.
  - split; [done|]. by apply (String.app_inj schema_marker).
  - exfalso. rewrite sort_key_args_cons in Heq.
    unfold key_marker, schema_marker in Heq.
    rewrite !append_assoc in Heq. discriminate Heq.
  - exfalso. rewrite sort_key_args_cons in Heq.
    unfold key_marker, schema_marker in Heq.
    rewrite !append_assoc in Heq. discriminate Heq.
  - rewrite !sort_key_args_cons, !append_assoc in Heq.
    apply (String.app_inj key_marker) in Heq.
    apply Forall_cons in Hk as [Hf Hk]. apply Forall_cons in Hk' as [Hf' Hk'].
    apply app_marker_inj in Heq as [Hff Heq];
      auto using key_part_starts_with_marker.
    destruct (IH r' rest rest' Hk Hk' Heq) as [Hr ->].
    split; [|done]. rewrite !fmap_cons. by rewrite Hff, Hr.
Qed.

Lemma to_hex_inj (a b : N) : to_hex a = to_hex b -> a = b.
Proof.
  unfold to_hex. intros H.
  apply HexadecimalN.Unsigned.to_uint_inj.
  pose proof (HexadecimalString.NilEmpty.usu (N.to_hex_uint a)) as Ha.
  rewrite H, HexadecimalString.NilEmpty.usu in Ha. by injection Ha.
Qed.

(** C6: the code at the failing input.  The loop that prints the keys into
    the argument string declares a counter for the markers and never
    advances it: every key is printed behind the marker [[sort_key_0]].
    The name of the second key field below contains that marker.  The key
    lists (x, y) and (y, x) are rearrangements of each other and have
    different comparators, and yet both are printed as the same text, so
    that the signature is the same under any hash.  A kernel is built for
    (x, y); the request for (y, x) then finds that library under its
    signature and gets it: its key positions are (1, 0) and its sorter
    compares by (0, 1). *)
Theorem C6_reordered_keys_share_signature (hash : string -> N)
    (GetCTypeString : DataType -> string) (nulls_first asc : bool) :
  let x := field "x" int32 true in
  let y := field "x: int32[sort_key_0]x" int32 true in
  let schema := [x; y] in
  let build keys :=
    SortArraysToIndicesKernel.construct (fun _ => OK) (fun _ => OK) hash
      GetCTypeString 10000 keys schema nulls_first asc in
  [y; x] ≡ₚ [x; y]
  /\ [y; x] <> [x; y]
  /\ sort_key_args 0 [x; y]
     = "[sort_key_0]x: int32[sort_key_0]x: int32[sort_key_0]x: int32"
  /\ sort_key_args 0 [y; x]
     = "[sort_key_0]x: int32[sort_key_0]x: int32[sort_key_0]x: int32"
  /\ signature hash nulls_first asc [y; x] schema
     = signature hash nulls_first asc [x; y] schema
  /\ exists k1 h1 k2 src,
       build [x; y] (Loader.host false ∅)
       = Some (SortArraysToIndicesKernel.Constructed k1 h1)
       /\ build [y; x] h1 = Some (SortArraysToIndicesKernel.Constructed k2 h1)
       /\ SortArraysToIndicesKernel.key_index_list_ k1 = [0; 1]%nat
       /\ SortArraysToIndicesKernel.key_index_list_ k2 = [1; 0]%nat
       /\ SortArraysToIndicesKernel.sorter k1 = Some (Emit.Indexed src)
       /\ SortArraysToIndicesKernel.sorter k2 = Some (Emit.Indexed src)
       /\ Impl.comp_body asc 0 [0; 1]%nat = Some (Emit.comp_func src)
       /\ Impl.comp_body asc 0 [1; 0]%nat <> Some (Emit.comp_func src).
Proof.
  intros x y schema build.
  split; [apply Permutation_swap|]. split; [intros [=]|].
  split; [reflexivity|]. split; [reflexivity|].
  assert (Hsig : signature hash nulls_first asc [y; x] schema
                 = signature hash nulls_first asc [x; y] schema).
  { unfold signature. apply (f_equal to_hex), (f_equal hash).
    by destruct nulls_first, asc. }
  split; [exact Hsig|].
  destruct (Impl.ProduceCodes nulls_first asc 10000 [0; 1]%nat schema)
    as [codes|] eqn:Hcodes; [|by destruct asc].
  assert (Hsrc : exists src, codes = Emit.Indexed src
                   /\ Impl.comp_body asc 0 [0; 1]%nat = Some (Emit.comp_func src)
                   /\ Impl.comp_body asc 0 [1; 0]%nat <> Some (Emit.comp_func src)).
  { destruct asc; injection Hcodes as <-; eexists;
      (split; [reflexivity|]); (split; [reflexivity|]); intros [=]. }
  destruct Hsrc as (src & -> & Hc1 & Hc2).
  exists (SortArraysToIndicesKernel.kernel SortArraysToIndicesKernel.UseImpl
            nulls_first asc [0; 1]%nat (Some (Emit.Indexed src))),
    (Loader.host false
       (<[signature hash nulls_first asc [x; y] schema := Emit.Indexed src]> ∅)),
    (SortArraysToIndicesKernel.kernel SortArraysToIndicesKernel.UseImpl
       nulls_first asc [1; 0]%nat (Some (Emit.Indexed src))),
    src.
  split; [|split; [|done]].
  - unfold build, SortArraysToIndicesKernel.construct.
    change (SortArraysToIndicesKernel.variant_of [x; y] schema)
      with SortArraysToIndicesKernel.UseImpl.
    change (SortArraysToIndicesKernel.new_Impl [x; y] schema nulls_first asc)
      with (Some (SortArraysToIndicesKernel.kernel
                    SortArraysToIndicesKernel.UseImpl nulls_first asc
                    [0; 1]%nat None)).
    cbv iota beta. rewrite LoadJITFunction_cases.
    unfold SortArraysToIndicesKernel.ProduceCodes.
    cbn [SortArraysToIndicesKernel.impl_ SortArraysToIndicesKernel.nulls_first_
         SortArraysToIndicesKernel.asc_ SortArraysToIndicesKernel.key_index_list_
         SortArraysToIndicesKernel.sorter Loader.lock_held Loader.libraries].
    rewrite lookup_empty, Hcodes. reflexivity.
  - unfold build, SortArraysToIndicesKernel.construct.
    change (SortArraysToIndicesKernel.variant_of [y; x] schema)
      with SortArraysToIndicesKernel.UseImpl.
    change (SortArraysToIndicesKernel.new_Impl [y; x] schema nulls_first asc)
      with (Some (SortArraysToIndicesKernel.kernel
                    SortArraysToIndicesKernel.UseImpl nulls_first asc
                    [1; 0]%nat None)).
    cbv iota beta. rewrite LoadJITFunction_cases.
    cbn [SortArraysToIndicesKernel.impl_ SortArraysToIndicesKernel.nulls_first_
         SortArraysToIndicesKernel.asc_ SortArraysToIndicesKernel.key_index_list_
         SortArraysToIndicesKernel.sorter Loader.lock_held Loader.libraries].
    rewrite Hsig, lookup_insert_eq. reflexivity.
Qed.

(** ** The batch size and the signature *)

Lemma ProduceCodes_batch_size GetCTypeString batch k schema codes :
  SortArraysToIndicesKernel.ProduceCodes GetCTypeString batch k schema = Some codes ->
  source_batch_size codes = batch.
Proof.
  unfold SortArraysToIndicesKernel.ProduceCodes.
  destruct (SortArraysToIndicesKernel.impl_ k).
  - unfold SortInplaceKernel.ProduceCodes.
    destruct (schema !! 0%nat); simpl; [|done]. by intros [= <-].
  - unfold Impl.ProduceCodes.
    destruct (Impl.comp_body _ 0 _); simpl; [|done]. by intros [= <-].
Qed.

(** the object that the constructor builds carries the flags it was given
    and no sorter yet *)
Lemma new_object keys schema nf asc k :
  match SortArraysToIndicesKernel.variant_of keys schema with
  | SortArraysToIndicesKernel.UseSortInplace =>
      SortArraysToIndicesKernel.new_SortInplaceKernel keys schema nf asc
  | SortArraysToIndicesKernel.UseImpl =>
      SortArraysToIndicesKernel.new_Impl keys schema nf asc
  end = Some k ->
  SortArraysToIndicesKernel.nulls_first_ k = nf
  /\ SortArraysToIndicesKernel.asc_ k = asc
  /\ SortArraysToIndicesKernel.sorter k = None.
Proof.
  unfold SortArraysToIndicesKernel.new_SortInplaceKernel,
    SortArraysToIndicesKernel.new_Impl.
  destruct (SortArraysToIndicesKernel.variant_of _ _).
  - destruct (SortInplaceKernel.key_index_list _ _); simpl; [|done].
    by intros [= <-].
  - destruct (Impl.key_index_list _ _); simpl; [|done]. by intros [= <-].
Qed.

(** C10: the batch size is no part of the signature.  A kernel is built
    under the batch size [b1], and its library is compiled and stored: the
    source carries [b1] as a literal, and it is stored under a signature
    that is computed from the flags, the keys and the schema alone.  The
    same request under any other batch size [b2] finds that library under
    its signature and gets the kernel with the literal [b1]; nothing is
    compiled. *)
Theorem C10_batch_size_not_in_signature
    (compiler loader : Emit.Source -> Status) (hash : string -> N)
    (GetCTypeString : DataType -> string) (b1 b2 : Z)
    (key_field_list : list Field) (result_schema : Schema)
    (nulls_first asc : bool) (h h1 : Loader.Host)
    (k1 : SortArraysToIndicesKernel.Kernel)
    (Hbuilt : SortArraysToIndicesKernel.construct compiler loader hash
                GetCTypeString b1
                key_field_list result_schema nulls_first asc h
              = Some (SortArraysToIndicesKernel.Constructed k1 h1))
    (Hfresh : Loader.libraries h
                !! signature hash nulls_first asc key_field_list result_schema
              = None) :
  exists src,
    SortArraysToIndicesKernel.sorter k1 = Some src
    /\ source_batch_size src = b1
    /\ Loader.libraries h1
         !! signature hash nulls_first asc key_field_list result_schema
       = Some src
    /\ SortArraysToIndicesKernel.construct compiler loader hash GetCTypeString b2
         key_field_list result_schema nulls_first asc h1
       = Some (SortArraysToIndicesKernel.Constructed k1 h1).
Proof.
  revert Hbuilt. unfold SortArraysToIndicesKernel.construct.
  set (sig := signature hash nulls_first asc key_field_list result_schema) in *.
  destruct (match SortArraysToIndicesKernel.variant_of key_field_list result_schema with
            | SortArraysToIndicesKernel.UseSortInplace => _
            | SortArraysToIndicesKernel.UseImpl => _
            end) as [k|] eqn:Hk; [|done].
  apply new_object in Hk as (Hnf & Hasc & Hso). rewrite Hnf, Hasc, Hso.
  rewrite !LoadJITFunction_cases. fold sig.
  destruct (Loader.lock_held h); simpl; [done|].
  rewrite Hfresh.
  destruct (SortArraysToIndicesKernel.ProduceCodes GetCTypeString b1 _ _)
    as [codes|] eqn:Hcodes; simpl; [|done].
  destruct (compiler codes); simpl; [|done].
  destruct (loader codes) eqn:Hload; simpl; [|done].
  intros [= <- <-]. exists codes. simpl.
  split; [done|]. split; [by eapply ProduceCodes_batch_size|].
  rewrite lookup_insert_eq. split; [done|]. by rewrite Hload.
Qed.

Lemma C10_batch_size_not_in_signature_witness :
  exists k1 h1,
    SortArraysToIndicesKernel.construct (fun _ => OK) (fun _ => OK) (fun _ => 0%N)
      (fun _ => "int32_t") 10000 [field "a" int32 true]
      [field "a" int32 true; field "b" int32 true] true true
      (Loader.host false ∅)
    = Some (SortArraysToIndicesKernel.Constructed k1 h1)
    /\ SortArraysToIndicesKernel.construct (fun _ => OK) (fun _ => OK)
         (fun _ => 0%N)
         (fun _ => "int32_t") 4096 [field "a" int32 true]
         [field "a" int32 true; field "b" int32 true] true true h1
       = Some (SortArraysToIndicesKernel.Constructed k1 h1).
Proof.
  do 2 eexists.
  match goal with |- ?G /\ _ => assert (Hbuilt : G) by (vm_compute; reflexivity) end.
  split; [exact Hbuilt|].
  destruct (C10_batch_size_not_in_signature (fun _ => OK) (fun _ => OK)
              (fun _ => 0%N)
              (fun _ => "int32_t") 10000 4096 _ _ _ _ _ _ _ Hbuilt eq_refl)
    as (src & _ & _ & _ & H).
  exact H.
Defined.

(** * Further properties of the code *)

(** ** The constructors and the factory *)

Lemma GetAllFieldIndices_from_elem (s : Schema) (n : string) :
  forall (k i : nat),
    i ∈ GetAllFieldIndices_from k s n
    <-> exists j g, i = (k + j)%nat /\ s !! j = Some g /\ name g = n.
Proof.
  induction s as [|f s IH]; intros k i; simpl.
  - split; [by intros ?%elem_of_nil|]. by intros (j & g & _ & ? & _).
  - destruct (String.eqb_spec (name f) n) as [Hn|Hn].
    + rewrite elem_of_cons, IH. split.
      * intros [->|(j & g & -> & Hg & Hgn)].
        -- exists 0%nat, f. by rewrite Nat.add_0_r.
        -- exists (S j), g. split; [lia|done].
      * intros ([|j] & g & -> & Hg & Hgn).
        -- left. lia.
        -- right. exists j, g. split; [lia|done].
    + rewrite IH. split.
      * intros (j & g & -> & Hg & Hgn). exists (S j), g. split; [lia|done].
      * intros ([|j] & g & -> & Hg & Hgn).
        -- simpl in Hg. injection Hg as <-. done.
        -- exists j, g. split; [lia|done].
Qed.

Lemma GetAllFieldIndices_from_length (s : Schema) (n : string) :
  forall k, length (GetAllFieldIndices_from k s n)
            = length (filter (fun g => name g = n) s).
Proof.
  induction s as [|f s IH]; intros k; [done|].
  cbn [GetAllFieldIndices_from].
  destruct (String.eqb_spec (name f) n) as [Hn|Hn].
  - rewrite (filter_cons_True (fun g => name g = n)) by done.
    cbn [length]. by rewrite IH.
  - rewrite (filter_cons_False (fun g => name g = n)) by done. by rewrite IH.
Qed.

Lemma key_index_list_None keys schema :
  Exists (fun f => length (filter (fun g => name g = name f) schema) <> 1%nat) keys ->
  Impl.key_index_list keys schema = None.
Proof.
  induction 1 as [f r Hf|f r _ IH]; simpl.
  - unfold GetAllFieldIndices.
    pose proof (GetAllFieldIndices_from_length schema (name f) 0) as Hl.
    by destruct (GetAllFieldIndices_from 0 schema (name f)) as [|i [|]].
  - rewrite IH. by destruct (GetAllFieldIndices schema (name f)) as [|i [|]].
Qed.

(** X1: when the constructor of the kernel returns, every key has been
    resolved to the one position of the schema that carries its name: the
    list of positions is as long as the list of keys, the field at each
    position has the name of its key, and no other field has that name. *)
Theorem X1_keys_resolved_by_name (key_field_list : list Field)
    (result_schema : Schema) (idx : list nat)
    (H : Impl.key_index_list key_field_list result_schema = Some idx) :
  Forall2
    (fun f i =>
       exists g, result_schema !! i = Some g /\ name g = name f
         /\ forall i' g', result_schema !! i' = Some g' -> name g' = name f -> i' = i)
    key_field_list idx.
Proof.
  revert idx H. induction key_field_list as [|f r IH]; intros idx; simpl.
  - intros [= <-]. constructor.
  - destruct (GetAllFieldIndices result_schema (name f)) as [|i [|]] eqn:Hi;
      try done.
    destruct (Impl.key_index_list r result_schema) as [l|]; simpl; [|done].
    intros [= <-]. constructor; [|by apply IH].
    assert (Hel : forall i', i' ∈ GetAllFieldIndices result_schema (name f)
                             <-> i' = i).
    { intros i'. rewrite Hi. by rewrite list_elem_of_singleton. }
    unfold GetAllFieldIndices in Hel.
    destruct (proj1 (GetAllFieldIndices_from_elem _ _ 0 i) (proj2 (Hel i) eq_refl))
      as (j & g & -> & Hg & Hgn).
    exists g. split; [done|]. split; [done|].
    intros i' g' Hg' Hn'. apply Hel, GetAllFieldIndices_from_elem.
    by exists i', g'.
Qed.

Lemma X1_keys_resolved_by_name_witness :
  Forall2
    (fun f i =>
       exists g, [field "a" int32 true; field "b" utf8 true] !! i = Some g
         /\ name g = name f
         /\ forall i' g',
              [field "a" int32 true; field "b" utf8 true] !! i' = Some g' ->
              name g' = name f -> i' = i)
    [field "b" utf8 true; field "a" int32 true] [1; 0]%nat.
Proof.
  exact (X1_keys_resolved_by_name [field "b" utf8 true; field "a" int32 true]
           [field "a" int32 true; field "b" utf8 true] [1; 0]%nat eq_refl).
Defined.

(** X2: a key whose name is not the name of exactly one field of the schema
    makes the constructor throw, for both variants, before the build/load
    step is entered: the file lock is not taken and the library store is not
    touched. *)
Theorem X2_unresolved_key_throws compiler loader hash GetCTypeString GetBatchSize
    (key_field_list : list Field) (result_schema : Schema)
    (nulls_first asc : bool) (h : Loader.Host)
    (H : Exists (fun f => length (filter (fun g => name g = name f) result_schema)
                          <> 1%nat) key_field_list) :
  SortArraysToIndicesKernel.construct compiler loader hash GetCTypeString
    GetBatchSize key_field_list result_schema nulls_first asc h
  = Some (SortArraysToIndicesKernel.Thrown h).
Proof.
  unfold SortArraysToIndicesKernel.construct,
    SortArraysToIndicesKernel.new_SortInplaceKernel,
    SortArraysToIndicesKernel.new_Impl, SortInplaceKernel.key_index_list.
  rewrite (key_index_list_None _ _ H).
  by destruct (SortArraysToIndicesKernel.variant_of _ _).
Qed.

Lemma X2_unresolved_key_throws_witness :
  SortArraysToIndicesKernel.construct (fun _ => OK) (fun _ => OK) (fun _ => 0%N)
    (fun _ => "int32_t") 10000 [field "c" int32 true]
    [field "a" int32 true; field "b" int32 true] true true (Loader.host false ∅)
  = Some (SortArraysToIndicesKernel.Thrown (Loader.host false ∅)).
Proof.
  apply X2_unresolved_key_throws. apply Exists_cons_hd. simpl. lia.
Defined.

(** ** The build/load step, continued *)

(** X3: what a call of [LoadJITFunction] that returns leaves behind.  The
    libraries stored under other signatures are as before.  If the call
    returns [OK], the lock is free, and the [sorter] member holds the
    library that the store has under the signature, which loads.  If it
    returns an error, the lock is held, the [sorter] member is as before,
    the generator has been run, and either the compiler refused its source,
    with the store as before, or the compiler accepted it, the artifact is
    in the store under the signature and it is the loader that refused
    it. *)
Theorem X3_LoadJITFunction_outcome compiler loader hash ProduceCodes
    (nulls_first asc : bool) (key_field_list : list Field)
    (result_schema : Schema) (h h' : Loader.Host)
    (sorter sorter' : option Emit.Source) (status : Status)
    (H : Loader.LoadJITFunction compiler loader hash ProduceCodes nulls_first asc
           key_field_list result_schema h sorter
         = Some (status, h', sorter')) :
  let sig := signature hash nulls_first asc key_field_list result_schema in
  (forall other, other <> sig ->
     Loader.libraries h' !! other = Loader.libraries h !! other)
  /\ if ok status
     then Loader.lock_held h' = false
          /\ exists lib,
               sorter' = Some lib
               /\ Loader.libraries h' !! sig = Some lib
               /\ loader lib = OK
     else Loader.lock_held h' = true
          /\ sorter' = sorter
          /\ exists codes,
               ProduceCodes result_schema = Some codes
               /\ ((compiler codes = status
                    /\ Loader.libraries h' = Loader.libraries h)
                   \/ (compiler codes = OK
                       /\ loader codes = status
                       /\ Loader.libraries h'
                          = <[sig := codes]> (Loader.libraries h))).
Proof.
  intros sig. revert H. rewrite LoadJITFunction_cases. fold sig.
  destruct (Loader.lock_held h); [done|].
  assert (Hbuild :
    match ProduceCodes result_schema with
    | None => None
    | Some codes =>
        match compiler codes with
        | OK =>
            match loader codes with
            | OK => Some (OK, Loader.host false
                                (<[sig := codes]> (Loader.libraries h)), Some codes)
            | e => Some (e, Loader.host true
                              (<[sig := codes]> (Loader.libraries h)), sorter)
            end
        | e => Some (e, Loader.host true (Loader.libraries h), sorter)
        end
    end = Some (status, h', sorter') ->
    (forall other, other <> sig ->
       Loader.libraries h' !! other = Loader.libraries h !! other)
    /\ if ok status
       then Loader.lock_held h' = false
            /\ exists lib,
                 sorter' = Some lib
                 /\ Loader.libraries h' !! sig = Some lib
                 /\ loader lib = OK
       else Loader.lock_held h' = true
            /\ sorter' = sorter
            /\ exists codes,
                 ProduceCodes result_schema = Some codes
                 /\ ((compiler codes = status
                      /\ Loader.libraries h' = Loader.libraries h)
                     \/ (compiler codes = OK
                         /\ loader codes = status
                         /\ Loader.libraries h'
                            = <[sig := codes]> (Loader.libraries h)))).
  { destruct (ProduceCodes result_schema) as [codes|]; [|done].
    destruct (compiler codes) as [|code msg] eqn:Hc.
    - destruct (loader codes) as [|code msg] eqn:Hl; intros [= <- <- <-]; simpl.
      + split; [intros other Hne; by rewrite lookup_insert_ne|].
        split; [done|]. exists codes. by rewrite lookup_insert_eq.
      + split; [intros other Hne; by rewrite lookup_insert_ne|].
        split; [done|]. split; [done|]. exists codes. split; [done|].
        right. done.
    - intros [= <- <- <-]. simpl. split; [done|].
      split; [done|]. split; [done|]. exists codes. split; [done|]. by left. }
  destruct (Loader.libraries h !! sig) as [lib|] eqn:Hlib; [|done].
  destruct (loader lib) as [|code msg] eqn:Hl; [|done].
  intros [= <- <- <-]. simpl. split; [done|]. split; [done|]. by exists lib.
Qed.

Lemma X3_LoadJITFunction_outcome_witness :
  exists h' sorter',
    Loader.LoadJITFunction (fun _ => OK) (fun _ => Error IOError "undefined symbol")
      (fun _ => 0%N)
      (Impl.ProduceCodes true true 10000 [0%nat]) true true
      [field "a" int32 true] [field "a" int32 true; field "b" int32 true]
      (Loader.host false ∅) None
    = Some (Error IOError "undefined symbol", h', sorter')
    /\ Loader.lock_held h' = true
    /\ sorter' = None.
Proof.
  do 2 eexists.
  match goal with |- ?G /\ _ => assert (Hrun : G) by (vm_compute; reflexivity) end.
  split; [exact Hrun|].
  pose proof (X3_LoadJITFunction_outcome _ _ _ _ _ _ _ _ _ _ _ _ _ Hrun) as Hout.
  simpl in Hout. destruct Hout as (_ & Hl & Hs & _). by split.
Defined.

(** X4: a library is generated and compiled once per signature.  After a
    call that returned [OK], a later request whose signature is the same,
    made on any state of the process in which the artifact under that
    signature is still the one that was stored, gets that library whatever
    its own key list, generator and compiler would give: nothing is
    generated or compiled again, and the store does not change.  This is so
    when the lock is free; while the lock is held, as after a failed build,
    the request waits for it and does not return. *)
Theorem X4_library_reused_by_signature compiler compiler' loader hash
    ProduceCodes ProduceCodes'
    (nulls_first asc nulls_first' asc' : bool)
    (key_field_list key_field_list' : list Field)
    (result_schema result_schema' : Schema) (h h1 h2 : Loader.Host)
    (sorter sorter1 sorter' : option Emit.Source)
    (H : Loader.LoadJITFunction compiler loader hash ProduceCodes nulls_first asc
           key_field_list result_schema h sorter
         = Some (OK, h1, sorter1))
    (Hsig : signature hash nulls_first' asc' key_field_list' result_schema'
            = signature hash nulls_first asc key_field_list result_schema)
    (Hkept : Loader.libraries h2
               !! signature hash nulls_first asc key_field_list result_schema
             = Loader.libraries h1
                 !! signature hash nulls_first asc key_field_list result_schema) :
  Loader.LoadJITFunction compiler' loader hash ProduceCodes' nulls_first' asc'
    key_field_list' result_schema' h2 sorter'
  = if Loader.lock_held h2 then None
    else Some (OK, Loader.host false (Loader.libraries h2), sorter1).
Proof.
  destruct (X3_LoadJITFunction_outcome _ _ _ _ _ _ _ _ _ _ _ _ _ H)
    as (_ & _ & lib & -> & Hlib & Hload). simpl in Hlib.
  rewrite LoadJITFunction_cases, Hsig, Hkept, Hlib, Hload. done.
Qed.

Lemma X4_library_reused_by_signature_witness :
  exists h1 sorter1,
    Loader.LoadJITFunction (fun _ => OK) (fun _ => OK) (fun _ => 0%N)
      (Impl.ProduceCodes true true 10000 [0%nat]) true true
      [field "a" int32 true] [field "a" int32 true; field "b" int32 true]
      (Loader.host false ∅) None
    = Some (OK, h1, sorter1)
    /\ Loader.LoadJITFunction (fun _ => Error UnknownError "no compiler")
         (fun _ => OK) (fun _ => 0%N) (fun _ => None) false false
         [field "b" int32 true] [field "a" int32 true; field "b" int32 true]
         h1 None
       = Some (OK, h1, sorter1).
Proof.
  do 2 eexists.
  match goal with |- ?G /\ _ => assert (Hrun : G) by (vm_compute; reflexivity) end.
  split; [exact Hrun|].
  exact (X4_library_reused_by_signature (fun _ => OK)
           (fun _ => Error UnknownError "no compiler") (fun _ => OK) (fun _ => 0%N)
           _ (fun _ => None) _ _ false false _ [field "b" int32 true] _
           [field "a" int32 true; field "b" int32 true] _ _ _ _ _ None
           Hrun eq_refl eq_refl).
Defined.

(** ** The argument string of the signature, continued *)

(** X5: the argument string tells the ordering flags apart, and, for keys
    whose printed fields contain no marker, also the printed keys and the
    printed schema: two requests with the same argument string have the same
    flags, the same sequence of printed key fields and the same printed
    schema. *)
Theorem X5_argument_string_determines_request
    (nulls_first asc nulls_first' asc' : bool)
    (keys keys' : list Field) (schema schema' : Schema)
    (Hk : Forall (fun f => marker_free (Field_ToString f) = true) keys)
    (Hk' : Forall (fun f => marker_free (Field_ToString f) = true) keys')
    (H : func_args_ss nulls_first asc keys schema
         = func_args_ss nulls_first' asc' keys' schema') :
  nulls_first = nulls_first' /\ asc = asc'
  /\ Field_ToString <$> keys = Field_ToString <$> keys'
  /\ Schema_ToString schema = Schema_ToString schema'.
Proof.
  unfold func_args_ss in H. apply String.app_inj in H.
  assert (Hnf : nulls_first = nulls_first').
  { destruct nulls_first, nulls_first'; try done; discriminate H. }
  subst nulls_first'. apply String.app_inj, String.app_inj in H.
  assert (Hasc : asc = asc').
  { destruct asc, asc'; try done; discriminate H. }
  subst asc'. apply String.app_inj in H.
  apply key_part_inj in H as [? ?]; done.
Qed.

Lemma X5_argument_string_determines_request_witness :
  true = true /\ false = false
  /\ Field_ToString <$> [field "a" int32 true] = Field_ToString <$> [field "a" int32 true]
  /\ Schema_ToString [field "a" int32 true; field "b" date32 true]
     = Schema_ToString [field "a" int32 true; field "b" date32 true].
Proof.
  refine (X5_argument_string_determines_request true false true false
            [field "a" int32 true] [field "a" int32 true]
            [field "a" int32 true; field "b" date32 true]
            [field "a" int32 true; field "b" date32 true] _ _ eq_refl);
    repeat constructor.
Defined.

(** ** The comparator, continued *)

Lemma composite_comparator_total asc (v : nat -> ArrayItemIndex -> Z) k ks x y :
  exists b, composite_comparator asc (fun k x => Some (v k x)) (k :: ks) x y = Some b.
Proof.
  revert k. induction ks as [|k' ks IH]; intros k; simpl; [by eexists|].
  destruct (v k x =? v k y); [apply IH|by eexists].
Qed.

Lemma strict_irrefl asc a : strict asc a a = false.
Proof. unfold strict. destruct asc; lia. Qed.

Lemma composite_comparator_true asc (v : nat -> ArrayItemIndex -> Z) ks :
  forall k x y,
    composite_comparator asc (fun k x => Some (v k x)) (k :: ks) x y = Some true
    <-> exists j kj,
          (k :: ks) !! j = Some kj
          /\ (forall i ki, (i < j)%nat -> (k :: ks) !! i = Some ki -> v ki x = v ki y)
          /\ strict asc (v kj x) (v kj y) = true.
Proof.
  induction ks as [|k' ks IH]; intros k x y.
  - simpl. split.
    + intros [= Hs]. exists 0%nat, k. split; [done|]. split; [lia|done].
    + intros ([|j] & kj & Hj & _ & Hs); [|done].
      simpl in Hj. injection Hj as <-. by rewrite Hs.
  - change (composite_comparator asc (fun k x => Some (v k x)) (k :: k' :: ks) x y)
      with (if v k x =? v k y
            then composite_comparator asc (fun k x => Some (v k x)) (k' :: ks) x y
            else Some (strict asc (v k x) (v k y))).
    destruct (Z.eqb_spec (v k x) (v k y)) as [Heq|Hne].
    + rewrite IH. split.
      * intros (j & kj & Hj & Hpre & Hs). exists (S j), kj.
        split; [done|]. split; [|done].
        intros [|i] ki Hi Hki.
        -- simpl in Hki. by injection Hki as <-.
        -- apply (Hpre i); [lia|done].
      * intros ([|j] & kj & Hj & Hpre & Hs).
        -- simpl in Hj. injection Hj as <-.
           rewrite Heq, strict_irrefl in Hs. done.
        -- exists j, kj. split; [done|]. split; [|done].
           intros i ki Hi Hki. apply (Hpre (S i)); [lia|done].
    + split.
      * intros [= Hs]. exists 0%nat, k. split; [done|]. split; [lia|done].
      * intros ([|j] & kj & Hj & Hpre & Hs).
        -- simpl in Hj. injection Hj as <-. by rewrite Hs.
        -- exfalso. apply Hne. apply (Hpre 0%nat); [lia|done].
Qed.

Lemma strict_trans asc a b c :
  strict asc a b = true -> strict asc b c = true -> strict asc a c = true.
Proof. unfold strict. destruct asc; lia. Qed.

Lemma composite_comparator_trichotomy asc (v : nat -> ArrayItemIndex -> Z) ks :
  forall k x y,
    composite_comparator asc (fun k x => Some (v k x)) (k :: ks) x y = Some true
    \/ composite_comparator asc (fun k x => Some (v k x)) (k :: ks) y x = Some true
    \/ (forall i ki, (k :: ks) !! i = Some ki -> v ki x = v ki y).
Proof.
  induction ks as [|k' ks IH]; intros k x y.
  - simpl. unfold strict.
    destruct (Z.lt_trichotomy (v k x) (v k y)) as [Hlt|[Heq|Hgt]].
    + destruct asc; [left|right; left]; f_equal; lia.
    + right; right. intros [|i] ki Hi; [|done].
      simpl in Hi. by injection Hi as <-.
    + destruct asc; [right; left|left]; f_equal; lia.
  - change (composite_comparator asc (fun k x => Some (v k x)) (k :: k' :: ks) x y)
      with (if v k x =? v k y
            then composite_comparator asc (fun k x => Some (v k x)) (k' :: ks) x y
            else Some (strict asc (v k x) (v k y))).
    change (composite_comparator asc (fun k x => Some (v k x)) (k :: k' :: ks) y x)
      with (if v k y =? v k x
            then composite_comparator asc (fun k x => Some (v k x)) (k' :: ks) y x
            else Some (strict asc (v k y) (v k x))).
    destruct (Z.eqb_spec (v k x) (v k y)) as [Heq|Hne].
    + rewrite (proj2 (Z.eqb_eq (v k y) (v k x))) by done.
      destruct (IH k' x y) as [H|[H|H]]; [by left|by right; left|].
      right; right. intros [|i] ki Hi.
      * simpl in Hi. by injection Hi as <-.
      * by apply (H i).
    + rewrite (proj2 (Z.eqb_neq (v k y) (v k x))) by done.
      unfold strict. destruct asc; [destruct (Z.lt_trichotomy (v k x) (v k y))
        as [?|[?|?]]|destruct (Z.lt_trichotomy (v k x) (v k y)) as [?|[?|?]]];
        try done.
      all: first [left; f_equal; lia | right; left; f_equal; lia].
Qed.

(** X6: on integer key columns the generated comparator is a strict weak
    order, which is what [std::sort] requires of it: it always answers, it
    is irreflexive and transitive, and being unordered either way is
    transitive as well. *)
Theorem X6_comparator_strict_weak_order (asc : bool) (k0 : nat) (ks : list nat)
    (v : nat -> ArrayItemIndex -> Z) :
  exists c : Emit.Comp,
    Impl.comp_body asc 0 (k0 :: ks) = Some c
    /\ let comp x y := Comp_eval (fun k x => Some (v k x)) c x y in
       (forall x y, exists b, comp x y = Some b)
       /\ (forall x, comp x x = Some false)
       /\ (forall x y z, comp x y = Some true -> comp y z = Some true ->
                         comp x z = Some true)
       /\ (forall x y z,
             comp x y = Some false -> comp y x = Some false ->
             comp y z = Some false -> comp z y = Some false ->
             comp x z = Some false /\ comp z x = Some false).
Proof.
  destruct (comp_body_composite asc (fun k x => Some (v k x))
              (item 0 0) (item 0 0) (k0 :: ks) (length ks) 0%nat)
    as (c & Hc & _); [simpl; lia|].
  exists c. split; [done|].
  assert (Hev : forall x y,
    Comp_eval (fun k x => Some (v k x)) c x y
    = composite_comparator asc (fun k x => Some (v k x)) (k0 :: ks) x y).
  { intros x y.
    destruct (comp_body_composite asc (fun k x => Some (v k x)) x y
                (k0 :: ks) (length ks) 0%nat) as (c' & Hc' & Hev);
      [simpl; lia|].
    rewrite Hc in Hc'. by injection Hc' as <-. }
  cbv zeta.
  assert (Hfalse : forall x y,
    (forall i ki, (k0 :: ks) !! i = Some ki -> v ki x = v ki y) ->
    composite_comparator asc (fun k x => Some (v k x)) (k0 :: ks) x y = Some false).
  { intros x y Heq.
    destruct (composite_comparator_total asc v k0 ks x y) as [[] Hb]; [|done].
    apply composite_comparator_true in Hb as (j & kj & Hj & _ & Hs).
    rewrite (Heq j kj Hj), strict_irrefl in Hs. done. }
  assert (Hirr : forall x,
    composite_comparator asc (fun k x => Some (v k x)) (k0 :: ks) x x = Some false).
  { intros x. by apply Hfalse. }
  assert (Htr : forall x y z,
    composite_comparator asc (fun k x => Some (v k x)) (k0 :: ks) x y = Some true ->
    composite_comparator asc (fun k x => Some (v k x)) (k0 :: ks) y z = Some true ->
    composite_comparator asc (fun k x => Some (v k x)) (k0 :: ks) x z = Some true).
  { intros x y z Hxy Hyz.
    apply composite_comparator_true in Hxy as (j1 & k1 & Hj1 & Hp1 & Hs1).
    apply composite_comparator_true in Hyz as (j2 & k2 & Hj2 & Hp2 & Hs2).
    apply composite_comparator_true.
    destruct (Nat.lt_trichotomy j1 j2) as [Hlt|[Heq|Hgt]].
    - exists j1, k1. split; [done|]. split.
      + intros i ki Hi Hki. rewrite (Hp1 i ki) by done. apply (Hp2 i); [lia|done].
      + by rewrite <- (Hp2 j1 k1).
    - subst j2. rewrite Hj1 in Hj2. injection Hj2 as <-.
      exists j1, k1. split; [done|]. split.
      + intros i ki Hi Hki. rewrite (Hp1 i ki) by done. by apply (Hp2 i).
      + by eapply strict_trans.
    - exists j2, k2. split; [done|]. split.
      + intros i ki Hi Hki. rewrite (Hp1 i ki) by (done || lia). by apply (Hp2 i).
      + by rewrite (Hp1 j2 k2). }
  split; [|split; [|split]].
  - intros x y. rewrite Hev. apply composite_comparator_total.
  - intros x. by rewrite Hev.
  - intros x y z. rewrite !Hev. apply Htr.
  - intros x y z. rewrite !Hev. intros Hxy Hyx Hyz Hzy.
    destruct (composite_comparator_trichotomy asc v ks k0 x y) as [H|[H|Exy]];
      [congruence|congruence|].
    destruct (composite_comparator_trichotomy asc v ks k0 y z) as [H|[H|Eyz]];
      [congruence|congruence|].
    split; apply Hfalse; intros i ki Hi.
    + by rewrite (Exy i ki), (Eyz i ki).
    + by rewrite (Exy i ki), (Eyz i ki).
Qed.

Lemma composite_comparator_flip (view : nat -> ArrayItemIndex -> option Z) keys x y :
  composite_comparator false view keys x y = composite_comparator true view keys y x.
Proof.
  induction keys as [|k ks IH]; [done|]. simpl.
  destruct (view k x) as [a|], (view k y) as [b|]; simpl; try done.
  rewrite (Z.eqb_sym a b), IH. unfold strict.
  replace (a >? b) with (b <? a) by (rewrite Z.gtb_ltb; done).
  done.
Qed.

(** X7: the two directions mirror each other: the comparator generated for
    a descending sort answers on (x, y) what the comparator generated for an
    ascending sort over the same keys answers on (y, x). *)
Theorem X7_descending_mirrors_ascending (k0 : nat) (ks : list nat) :
  exists c_asc c_desc : Emit.Comp,
    Impl.comp_body true 0 (k0 :: ks) = Some c_asc
    /\ Impl.comp_body false 0 (k0 :: ks) = Some c_desc
    /\ forall (view : nat -> ArrayItemIndex -> option Z) (x y : ArrayItemIndex),
         Comp_eval view c_desc x y = Comp_eval view c_asc y x.
Proof.
  destruct (comp_body_composite true (fun _ _ => None) (item 0 0) (item 0 0)
              (k0 :: ks) (length ks) 0%nat) as (ca & Hca & _); [simpl; lia|].
  destruct (comp_body_composite false (fun _ _ => None) (item 0 0) (item 0 0)
              (k0 :: ks) (length ks) 0%nat) as (cd & Hcd & _); [simpl; lia|].
  exists ca, cd. split; [done|]. split; [done|].
  intros view x y.
  destruct (comp_body_composite true view y x (k0 :: ks) (length ks) 0%nat)
    as (ca' & Hca' & Ha); [simpl; lia|].
  destruct (comp_body_composite false view x y (k0 :: ks) (length ks) 0%nat)
    as (cd' & Hcd' & Hd); [simpl; lia|].
  rewrite Hca in Hca'. rewrite Hcd in Hcd'.
  injection Hca' as <-. injection Hcd' as <-.
  rewrite Ha, Hd.
  apply composite_comparator_flip.
Qed.

(** ** The partition and the sort statement, continued *)

(** X8: the three fragments of [Finish] agree on the layout of the index
    buffer.  While the counters of the partition loop are in their ranges, a
    row with a valid first cell is stored inside the range that the sort
    statement names, a row with a null first cell is stored inside the
    buffer and outside that range, and the range has room for exactly the
    rows that are not counted as nulls. *)
Theorem X8_stores_agree_with_sort_range (nulls_first asc : bool) (idx : list nat)
    (st : TypedSorterImpl.State) (c : TypedSorterImpl.Cursor)
    (Hi : 0 <= TypedSorterImpl.indices_i c
            < TypedSorterImpl.items_total_ st - TypedSorterImpl.nulls_total_ st)
    (Hn : 0 <= TypedSorterImpl.indices_null c < TypedSorterImpl.nulls_total_ st) :
  let env := TypedSorterImpl.env st c in
  let lo := Ptr_eval env (Emit.first (Impl.sort_func nulls_first asc idx)) in
  let hi := Ptr_eval env (Emit.last (Impl.sort_func nulls_first asc idx)) in
  let at_valid := Ptr_eval env (Store_target (Impl.pre_sort_valid nulls_first)) in
  let at_null := Ptr_eval env (Store_target (Impl.pre_sort_null nulls_first)) in
  lo <= at_valid < hi
  /\ 0 <= at_null < TypedSorterImpl.items_total_ st
  /\ ~ (lo <= at_null < hi)
  /\ hi - lo = TypedSorterImpl.items_total_ st - TypedSorterImpl.nulls_total_ st.
Proof.
  assert (Hf : Emit.first (Impl.sort_func nulls_first asc idx)
               = Impl.sort_first nulls_first).
  { unfold Impl.sort_func. destruct asc; [|done]. by destruct idx as [|? [|]]. }
  assert (Hl : Emit.last (Impl.sort_func nulls_first asc idx)
               = Impl.sort_last nulls_first).
  { unfold Impl.sort_func. destruct asc; [|done]. by destruct idx as [|? [|]]. }
  rewrite Hf, Hl. destruct nulls_first; simpl; lia.
Qed.

Lemma X8_stores_agree_with_sort_range_witness :
  1 <= 1 + 1 < 3 /\ 0 <= 0 < 3 /\ ~ (1 <= 0 < 3) /\ 3 - 1 = 3 - 1.
Proof.
  refine (X8_stores_agree_with_sort_range true true [0%nat]
            (TypedSorterImpl.state [] [] 1 3 1)
            (TypedSorterImpl.cursor [] 1 0) _ _); simpl; lia.
Defined.

(** ** The accumulate phase *)

Lemma wrap64_add_l a b : wrap64 (wrap64 a + b) = wrap64 (a + b).
Proof. unfold wrap64. by rewrite Z.add_mod_idemp_l. Qed.

Lemma Evaluate_inv src st in_ status st' :
  TypedSorterImpl.Evaluate src st in_ = Some (status, st') ->
  exists in0,
    in_ !! 0%nat = Some in0 /\ status = OK
    /\ TypedSorterImpl.first_ st' = TypedSorterImpl.first_ st ++ [in0]
    /\ TypedSorterImpl.num_batches_ st' = wrap64 (TypedSorterImpl.num_batches_ st + 1)
    /\ TypedSorterImpl.items_total_ st'
       = wrap64 (TypedSorterImpl.items_total_ st + array_length in0)
    /\ TypedSorterImpl.nulls_total_ st'
       = wrap64 (TypedSorterImpl.nulls_total_ st + null_count in0)
    /\ for_each (TypedSorterImpl.cached_insert_run in_) (Emit.cached_insert src)
         (TypedSorterImpl.cached_ st) = Some (TypedSorterImpl.cached_ st').
Proof.
  unfold TypedSorterImpl.Evaluate.
  destruct (in_ !! 0%nat) as [in0|]; simpl; [|done].
  destruct (for_each _ _ _) as [cached|]; simpl; [|done].
  intros [= <- <-]. by exists in0.
Qed.

Lemma feed_counters src batches :
  forall st st',
    feed src st batches = Some st' ->
    length (firsts batches) = length batches
    /\ TypedSorterImpl.first_ st' = TypedSorterImpl.first_ st ++ firsts batches
    /\ TypedSorterImpl.num_batches_ st'
       = (if batches is [] then TypedSorterImpl.num_batches_ st
          else wrap64 (TypedSorterImpl.num_batches_ st + Z.of_nat (length batches)))
    /\ TypedSorterImpl.items_total_ st'
       = (if batches is [] then TypedSorterImpl.items_total_ st
          else wrap64 (TypedSorterImpl.items_total_ st + rows_fed batches))
    /\ TypedSorterImpl.nulls_total_ st'
       = (if batches is [] then TypedSorterImpl.nulls_total_ st
          else wrap64 (TypedSorterImpl.nulls_total_ st + nulls_fed batches)).
Proof.
  induction batches as [|in_ r IH]; intros st st'; simpl.
  - intros [= <-]. by rewrite app_nil_r.
  - destruct (TypedSorterImpl.Evaluate src st in_) as [[s st1]|] eqn:Hev;
      simpl; [|done].
    intros Hfeed.
    destruct (Evaluate_inv _ _ _ _ _ Hev) as (in0 & Hin0 & _ & Hf & Hn & Hi & Hnu & _).
    destruct (IH _ _ Hfeed) as (Hlen & Hf' & Hn' & Hi' & Hnu').
    unfold firsts, rows_fed, nulls_fed in *. simpl. rewrite Hin0. simpl.
    split; [by rewrite Hlen|].
    split; [by rewrite Hf', Hf, <- app_assoc|].
    rewrite Hn', Hi', Hnu', Hn, Hi, Hnu.
    destruct r as [|in1 r]; simpl.
    + rewrite !Z.add_0_r. done.
    + rewrite !wrap64_add_l. repeat split; f_equal; lia.
Qed.

(** X9: the counters of the generated sorter after any sequence of
    [Evaluate] calls: the retained first arrays are the first arrays of the
    batches in order, and the three 64-bit counters are the number of
    batches, the sum of the lengths and the sum of the null counts of those
    first arrays, modulo 2^64. *)
Theorem X9_counters_after_feeding (src : Emit.IndexedSource)
    (batches : list (list Array)) (st : TypedSorterImpl.State)
    (H : feed src (TypedSorterImpl.create src) batches = Some st) :
  TypedSorterImpl.first_ st = firsts batches
  /\ length (firsts batches) = length batches
  /\ TypedSorterImpl.num_batches_ st = wrap64 (Z.of_nat (length batches))
  /\ TypedSorterImpl.items_total_ st = wrap64 (rows_fed batches)
  /\ TypedSorterImpl.nulls_total_ st = wrap64 (nulls_fed batches).
Proof.
  destruct (feed_counters _ _ _ _ H) as (Hlen & Hf & Hn & Hi & Hnu).
  simpl in *. split; [done|]. split; [done|].
  rewrite Hn, Hi, Hnu. by destruct batches.
Qed.

Lemma X9_counters_after_feeding_witness :
  exists st,
    feed (Emit.indexed_source [0%nat; 1%nat] (Emit.Return Emit.Lt 0)
            (Impl.pre_sort_valid true) (Impl.pre_sort_null true)
            (Impl.sort_func true true [0%nat]) [0%nat; 1%nat] 10000)
      (TypedSorterImpl.state [[]; []] [] 0 0 0)
      [[[null; non_null 7]; [non_null 2; non_null 1]];
       [[non_null 3]; [non_null 5]]]
    = Some st
    /\ TypedSorterImpl.items_total_ st = 3
    /\ TypedSorterImpl.nulls_total_ st = 1.
Proof.
  eexists.
  match goal with |- ?G /\ _ => assert (Hrun : G) by (vm_compute; reflexivity) end.
  split; [exact Hrun|].
  destruct (X9_counters_after_feeding _ _ _ Hrun) as (_ & _ & _ & Hi & Hn).
  split; [exact Hi|exact Hn].
Defined.

Lemma rows_fed_cons in_ in0 r :
  in_ !! 0%nat = Some in0 -> rows_fed (in_ :: r) = array_length in0 + rows_fed r.
Proof. intros H. unfold rows_fed, firsts. simpl. by rewrite H. Qed.

Lemma rows_fed_nonneg batches : 0 <= rows_fed batches.
Proof.
  unfold rows_fed. induction (firsts batches) as [|a l IH]; [done|].
  cbn [foldr]. unfold array_length in *. lia.
Qed.

Lemma Evaluate_uniform src st n in_ :
  Emit.cached_insert src = seq 0 n ->
  (0 < n)%nat -> uniform n in_ -> shaped n st ->
  exists in0 st',
    in_ !! 0%nat = Some in0
    /\ length in0 = batch_rows in_
    /\ TypedSorterImpl.Evaluate src st in_ = Some (OK, st')
    /\ shaped n st'.
Proof.
  intros Hsrc Hn [Hlen Hall] [Hc Hcols].
  destruct (lookup_lt_is_Some_2 in_ 0) as [in0 Hin0]; [lia|].
  assert (Hrows : batch_rows in_ = length in0).
  { unfold batch_rows. by rewrite Hin0. }
  exists in0. eexists. split; [done|]. split; [done|].
  unfold TypedSorterImpl.Evaluate. rewrite Hin0, Hsrc. simpl.
  rewrite for_each_cached_insert by (simpl; lia). simpl.
  rewrite drop_0, <- Hc, firstn_all, drop_all, app_nil_r.
  split; [reflexivity|]. split; simpl.
  - rewrite length_zip_with. change (drop 0 in_) with in_. lia.
  - apply Forall_forall. intros col' Hcol'.
    change (drop 0 in_) with in_ in Hcol'.
    apply elem_of_lookup_zip_with in Hcol' as (c & col & a & -> & Hcol & Ha).
    apply Forall2_app.
    + by eapply Forall_lookup_1 in Hcols.
    + constructor; [|constructor].
      eapply Forall_lookup_1 in Hall; [|exact Ha]. simpl in Hall. lia.
Qed.

Lemma create_shaped src : shaped (length (Emit.cached_insert src)) (TypedSorterImpl.create src).
Proof.
  split; simpl; [by rewrite length_replicate|].
  apply Forall_forall. intros col Hcol.
  apply elem_of_replicate in Hcol as [-> _]. constructor.
Qed.

(** feeding batches that are uniform and fit: every call returns [OK], and
    the counters and the caches stay in step with what is retained *)
Lemma feed_invariant src n batches :
  Emit.cached_insert src = seq 0 n -> (0 < n)%nat ->
  Forall (uniform n) batches ->
  Forall (fun in_ => Z.of_nat (batch_rows in_) <= 2 ^ 32) batches ->
  forall st,
    consistent st -> shaped n st ->
    Z.of_nat (length (TypedSorterImpl.first_ st) + length batches) <= 2 ^ 31 - 1 ->
    TypedSorterImpl.items_total_ st + rows_fed batches < 2 ^ 60 ->
    exists st', feed src st batches = Some st' /\ consistent st' /\ shaped n st'.
Proof.
  intros Hsrc Hn Hu Hr. induction batches as [|in_ r IH]; intros st Hc Hs Hb Ht.
  - by exists st.
  - apply Forall_cons in Hu as [Hu1 Hu]. apply Forall_cons in Hr as [Hr1 Hr].
    destruct (Evaluate_uniform src st n in_) as (in0 & st1 & Hin0 & Hl0 & Hev & Hs1);
      try done.
    rewrite (rows_fed_cons _ _ _ Hin0) in Ht.
    pose proof (rows_fed_nonneg r).
    destruct (Evaluate_consistent src st in_ in0 OK st1) as [_ Hc1]; try done.
    { simpl in Hb. lia. }
    { lia. }
    { unfold array_length in *. lia. }
    destruct (Evaluate_inv _ _ _ _ _ Hev) as (in0' & Hin0' & _ & Hf & _ & Hi & _).
    rewrite Hin0 in Hin0'. injection Hin0' as <-.
    destruct (IH Hu Hr st1) as (st' & Hfeed & Hc' & Hs'); try done.
    { rewrite Hf, length_app. simpl in *. lia. }
    { rewrite Hi. unfold wrap64. destruct Hc as (_ & Hit & _).
      rewrite Z.mod_small; unfold array_length in *; lia. }
    exists st'. simpl. rewrite Hev. simpl. done.
Qed.

Lemma feed_from_create src n batches :
  Emit.cached_insert src = seq 0 n -> (0 < n)%nat ->
  Forall (uniform n) batches -> fits batches ->
  exists st,
    feed src (TypedSorterImpl.create src) batches = Some st
    /\ consistent st /\ shaped n st.
Proof.
  intros Hsrc Hn Hu (Hb & Hr & Ht).
  pose proof (create_shaped src) as Hs. rewrite Hsrc, length_seq in Hs.
  apply (feed_invariant src n batches Hsrc Hn Hu Hr _ (create_consistent src) Hs).
  - simpl. lia.
  - simpl. lia.
Qed.

(** ** The terminal operation of the indexed kernel on what was fed *)

Lemma rows_in_order_elem first x c :
  (x, c) ∈ rows_in_order first ->
  exists aid (a : Array) i,
    first !! aid = Some a /\ a !! i = Some c
    /\ x = item (Z.of_nat aid) (Z.of_nat i).
Proof.
  induction first as [|a first IH] using rev_ind; [by intros ?%elem_of_nil|].
  rewrite rows_in_order_snoc. intros [H|H]%elem_of_app.
  - destruct (IH H) as (aid & a' & i & Ha & Hi & ->).
    exists aid, a', i. split; [|done].
    by apply lookup_app_l_Some.
  - unfold rows_of in H. apply elem_of_lookup_imap in H as (i & c' & Heq & Hi).
    injection Heq as -> ->.
    exists (length first), a, i. split; [|done].
    by rewrite lookup_app_r, Nat.sub_diag by lia.
Qed.

Lemma nulls_valids_Permutation rows :
  nulls_of rows ++ valids_of rows ≡ₚ fst <$> rows.
Proof.
  unfold nulls_of, valids_of. induction rows as [|r rows IH]; [done|].
  rewrite !filter_cons. destruct (valid (snd r)) eqn:Hv.
  - rewrite decide_False, decide_True by done.
    rewrite !fmap_cons, <- Permutation_middle. by constructor.
  - rewrite decide_True, decide_False by done.
    rewrite !fmap_cons. simpl. by constructor.
Qed.

(** in a shaped state every row of the first arrays has a cell in every
    cached column *)
Lemma shaped_row_readable n st key x c :
  shaped n st -> (key < n)%nat ->
  (x, c) ∈ rows_in_order (TypedSorterImpl.first_ st) ->
  exists col (a : Array) c',
    TypedSorterImpl.cached_ st !! key = Some col
    /\ col !! Z.to_nat (array_id x) = Some a
    /\ 0 <= id x
    /\ a !! Z.to_nat (id x) = Some c'.
Proof.
  intros [Hlen Hcols] Hkey Hx.
  apply rows_in_order_elem in Hx as (aid & a0 & i & Ha0 & Hi & ->).
  destruct (lookup_lt_is_Some_2 (TypedSorterImpl.cached_ st) key) as [col Hcol];
    [lia|].
  eapply Forall_lookup_1 in Hcols; [|exact Hcol]. simpl in Hcols.
  destruct (Forall2_lookup_l _ _ _ _ _ Hcols Ha0) as (a & Ha & Hla).
  destruct (lookup_lt_is_Some_2 a i) as [c' Hc'].
  { rewrite <- Hla. by eapply lookup_lt_Some. }
  exists col, a, c'. simpl. rewrite !Nat2Z.id. repeat split; try done. lia.
Qed.

Lemma shaped_view n st key x c :
  shaped n st -> (key < n)%nat ->
  (x, c) ∈ rows_in_order (TypedSorterImpl.first_ st) ->
  is_Some (TypedSorterImpl.view st key x).
Proof.
  intros Hs Hk Hx.
  destruct (shaped_row_readable n st key x c Hs Hk Hx)
    as (col & a & c' & Hcol & Ha & Hid & Hc').
  unfold TypedSorterImpl.view, GetView. rewrite Hcol. simpl. rewrite Ha. simpl.
  destruct (id x <? 0) eqn:E; [lia|]. rewrite Hc'. by eexists.
Qed.

Lemma composite_comparator_defined asc view keys x y :
  keys <> [] ->
  Forall (fun k => is_Some (view k x)) keys ->
  Forall (fun k => is_Some (view k y)) keys ->
  is_Some (composite_comparator asc view keys x y).
Proof.
  induction keys as [|k keys IH]; [done|]. intros _ Hx Hy.
  apply Forall_cons in Hx as [[a Ha] Hx]. apply Forall_cons in Hy as [[b Hb] Hy].
  simpl. rewrite Ha, Hb. simpl.
  destruct keys as [|k' keys]; [by eexists|].
  destruct (a =? b); [by apply IH|by eexists].
Qed.

(** on rows whose keys can all be read, the sort statement returns, and
    what it returns is a rearrangement of its range *)
Lemma sort_items_rearranges lib nf asc batch idx schema src st range :
  rearranges lib ->
  Impl.ProduceCodes nf asc batch idx schema = Some (Emit.Indexed src) ->
  Forall (fun x => Forall (fun k => is_Some (TypedSorterImpl.view st k x)) idx) range ->
  exists sorted,
    TypedSorterImpl.sort_items lib src st range = Some sorted
    /\ sorted ≡ₚ range.
Proof.
  intros [Hska Hstd] Hp Hrange. unfold Impl.ProduceCodes in Hp.
  destruct (Impl.comp_body asc 0 idx) as [body|] eqn:Hbody; simpl in Hp; [|done].
  injection Hp as <-. unfold TypedSorterImpl.sort_items. simpl.
  assert (Hne : idx <> []).
  { intros ->. by rewrite comp_body_unfold in Hbody. }
  assert (Hcomp : is_Some (mapM (fun x => Comp_eval (TypedSorterImpl.view st) body x x)
                             range)).
  { apply mapM_is_Some. eapply Forall_impl; [exact Hrange|].
    intros x Hx. simpl.
    destruct (comp_body_composite asc (TypedSorterImpl.view st) x x idx
                (length idx - 1) 0) as (c & Hc & Heval).
    { destruct idx; [done|simpl; lia]. }
    rewrite Hbody in Hc. injection Hc as <-.
    rewrite Heval. by apply composite_comparator_defined. }
  unfold Impl.sort_func.
  destruct asc; [destruct idx as [|k [|k' idx]]|]; simpl.
  - done.
  - assert (Hkey : is_Some (mapM (TypedSorterImpl.view st k) range)).
    { apply mapM_is_Some. eapply Forall_impl; [exact Hrange|].
      intros x Hx. by apply Forall_cons in Hx as [? _]. }
    destruct Hkey as [? ->]. simpl. eexists. split; [done|]. apply Hska.
  - destruct Hcomp as [? ->]. simpl. eexists. split; [done|]. apply Hstd.
  - destruct Hcomp as [? ->]. simpl. eexists. split; [done|]. apply Hstd.
Qed.

Lemma length_concat_imap {X : Type} (first : list Array) :
  forall f : nat -> Array -> list X,
    (forall i a, length (f i a) = length a) ->
    Z.of_nat (length (concat (imap f first)))
    = foldr (fun a n => array_length a + n) 0 first.
Proof.
  induction first as [|a first IH]; intros f Hf; [done|].
  cbn [imap concat foldr]. rewrite length_app, Hf, Nat2Z.inj_add.
  rewrite IH by (intros; apply Hf). done.
Qed.

Lemma rows_fed_length batches :
  rows_fed batches = Z.of_nat (length (rows_in_order (firsts batches))).
Proof.
  unfold rows_fed, rows_in_order. symmetry. apply length_concat_imap.
  intros. apply length_rows_of.
Qed.

Lemma insert_by_Permutation {A : Type} (lt : A -> A -> bool) x l :
  insert_by lt x l ≡ₚ x :: l.
Proof.
  induction l as [|y l IH]; [done|]. simpl. destruct (lt y x); [|done].
  rewrite IH. apply Permutation_swap.
Qed.

Lemma insertion_sort_Permutation {A : Type} (lt : A -> A -> bool) l :
  insertion_sort lt l ≡ₚ l.
Proof.
  unfold insertion_sort. induction l as [|x l IH]; [done|].
  simpl. rewrite insert_by_Permutation. by constructor.
Qed.

Lemma reference_library_rearranges : rearranges reference_library.
Proof. split; intros; apply insertion_sort_Permutation. Qed.

Lemma ProduceCodes_fields nf asc batch idx schema src :
  Impl.ProduceCodes nf asc batch idx schema = Some (Emit.Indexed src) ->
  idx <> []
  /\ Emit.cached_insert src = seq 0 (length schema)
  /\ Emit.typed_build src = seq 0 (length schema)
  /\ Emit.batch_size src = batch.
Proof.
  intros Hp. unfold Impl.ProduceCodes in Hp.
  destruct (Impl.comp_body asc 0 idx) as [body|] eqn:Hbody; simpl in Hp; [|done].
  injection Hp as <-. split; [|done].
  intros ->. by rewrite comp_body_unfold in Hbody.
Qed.

(** the accumulate phase followed by [Finish], on batches that are uniform
    and fit *)
Lemma Finish_fed lib pool nf asc batch idx schema src batches :
  rearranges lib ->
  Impl.ProduceCodes nf asc batch idx schema = Some (Emit.Indexed src) ->
  Forall (fun k => (k < length schema)%nat) idx ->
  Forall (uniform (length schema)) batches ->
  fits batches ->
  exists st sorted,
    feed src (TypedSorterImpl.create src) batches = Some st
    /\ shaped (length schema) st
    /\ TypedSorterImpl.first_ st = firsts batches
    /\ sorted ≡ₚ valids_of (rows_in_order (firsts batches))
    /\ TypedSorterImpl.Finish lib pool src st
       = match pool (8 * rows_fed batches) with
         | OK =>
             Some (OK, if nf
                       then nulls_of (rows_in_order (firsts batches)) ++ sorted
                       else sorted ++ nulls_of (rows_in_order (firsts batches)))
         | e => Some (e, [])
         end.
Proof.
  intros Hlib Hp Hidx Hu Hfit.
  destruct (ProduceCodes_fields _ _ _ _ _ _ Hp) as (Hne & Hci & _ & _).
  assert (Hn : (0 < length schema)%nat).
  { destruct idx as [|k idx]; [done|]. apply Forall_cons in Hidx as [? _]. lia. }
  destruct (feed_from_create src (length schema) batches Hci Hn Hu Hfit)
    as (st & Hfeed & Hc & Hs).
  destruct (feed_counters _ _ _ _ Hfeed) as (_ & Hfirst & _). simpl in Hfirst.
  destruct (sort_items_rearranges lib nf asc batch idx schema src st
              (valids_of (rows_in_order (TypedSorterImpl.first_ st))) Hlib Hp)
    as (sorted & Hsort & Hperm).
  { apply Forall_forall. intros x Hx. unfold valids_of in Hx.
    apply list_elem_of_fmap in Hx as ([x' c] & -> & Hx).
    apply list_elem_of_filter in Hx as [_ Hx]. simpl.
    eapply Forall_impl; [exact Hidx|]. intros k Hk. simpl in Hk.
    by eapply shaped_view. }
  exists st, sorted. split; [done|]. split; [done|]. split; [done|].
  rewrite <- Hfirst. split; [done|].
  rewrite (Finish_layout lib pool nf asc batch idx schema) by done.
  cbv zeta. rewrite Hsort.
  replace (TypedSorterImpl.items_total_ st) with (rows_fed batches); [done|].
  destruct Hc as (_ & -> & _). rewrite Hfirst. apply rows_fed_length.
Qed.

(** X10: the terminal operation of the indexed kernel.  After batches that
    all have one array per field of the schema and rows of one length, and
    that fit the counters of [Finish] (at most 2^31 - 1 batches of at most
    2^32 rows each, fewer than 2^60 rows in all), have been fed, [Finish]
    asks the memory pool for 8 bytes per row.  When the pool refuses, its
    error is returned.  Otherwise [Finish] returns [OK] with an index array
    that holds the rows whose first cell is null in the order in which they
    came, before or behind the others as [nulls_first] says; the others are
    what the sort library made of them, a rearrangement; in all, every row
    position of the input occurs as often as it was fed. *)
Theorem X10_Finish_on_fed_batches (lib : SortLibrary) (pool : Z -> Status)
    (nulls_first asc : bool)
    (batch : Z) (idx : list nat) (schema : Schema) (src : Emit.IndexedSource)
    (batches : list (list Array))
    (Hlib : rearranges lib)
    (Hp : Impl.ProduceCodes nulls_first asc batch idx schema = Some (Emit.Indexed src))
    (Hidx : Forall (fun k => (k < length schema)%nat) idx)
    (Hu : Forall (uniform (length schema)) batches)
    (Hfit : fits batches) :
  exists st sorted indices,
    feed src (TypedSorterImpl.create src) batches = Some st
    /\ indices = (if nulls_first
                  then nulls_of (rows_in_order (firsts batches)) ++ sorted
                  else sorted ++ nulls_of (rows_in_order (firsts batches)))
    /\ sorted ≡ₚ valids_of (rows_in_order (firsts batches))
    /\ indices ≡ₚ fst <$> rows_in_order (firsts batches)
    /\ TypedSorterImpl.Finish lib pool src st
       = match pool (8 * rows_fed batches) with
         | OK => Some (OK, indices)
         | e => Some (e, [])
         end.
Proof.
  destruct (Finish_fed lib pool nulls_first asc batch idx schema src batches)
    as (st & sorted & Hfeed & _ & _ & Hperm & HF); try done.
  exists st, sorted. eexists. split; [done|]. split; [reflexivity|].
  split; [done|]. split; [|exact HF].
  rewrite <- nulls_valids_Permutation.
  destruct nulls_first.
  - by rewrite Hperm.
  - rewrite Hperm. apply Permutation_app_comm.
Qed.

Lemma X10_Finish_on_fed_batches_witness :
  exists st sorted indices,
    feed (Emit.indexed_source [0; 1]%nat
            (Emit.IfEq 1 (Emit.Return Emit.Gt 0) (Emit.Return Emit.Gt 1))
            (Impl.pre_sort_valid false) (Impl.pre_sort_null false)
            (Impl.sort_func false false [1; 0]%nat) [0; 1]%nat 2)
      (TypedSorterImpl.state [[]; []] [] 0 0 0)
      [[[non_null 1; null]; [non_null 5; non_null 6]];
       [[non_null 3]; [non_null 5]]]
    = Some st
    /\ indices = sorted ++ [item 0 1]
    /\ sorted ≡ₚ [item 0 0; item 1 0]
    /\ indices ≡ₚ [item 0 0; item 0 1; item 1 0]
    /\ TypedSorterImpl.Finish reference_library (fun _ => OK)
         (Emit.indexed_source [0; 1]%nat
            (Emit.IfEq 1 (Emit.Return Emit.Gt 0) (Emit.Return Emit.Gt 1))
            (Impl.pre_sort_valid false) (Impl.pre_sort_null false)
            (Impl.sort_func false false [1; 0]%nat) [0; 1]%nat 2) st
       = Some (OK, indices).
Proof.
  apply (X10_Finish_on_fed_batches reference_library (fun _ => OK) false false 2
           [1; 0]%nat
           [field "a" int32 true; field "b" int32 true]
           (Emit.indexed_source [0; 1]%nat
            (Emit.IfEq 1 (Emit.Return Emit.Gt 0) (Emit.Return Emit.Gt 1))
            (Impl.pre_sort_valid false) (Impl.pre_sort_null false)
            (Impl.sort_func false false [1; 0]%nat) [0; 1]%nat 2)
           [[[non_null 1; null]; [non_null 5; non_null 6]];
            [[non_null 3]; [non_null 5]]]).
  - apply reference_library_rearranges.
  - reflexivity.
  - repeat constructor.
  - repeat constructor.
  - split; [simpl; lia|]. split; [|reflexivity].
    repeat (constructor; [unfold batch_rows; simpl; lia|]). constructor.
Defined.

(** the iterator that [MakeResultIterator] hands out after such batches *)
Lemma MakeResultIterator_fed lib pool nf asc batch idx schema src batches :
  rearranges lib ->
  Impl.ProduceCodes nf asc batch idx schema = Some (Emit.Indexed src) ->
  Forall (fun k => (k < length schema)%nat) idx ->
  Forall (uniform (length schema)) batches ->
  fits batches ->
  pool (8 * rows_fed batches) = OK ->
  exists st it,
    feed src (TypedSorterImpl.create src) batches = Some st
    /\ TypedSorterImpl.MakeResultIterator lib pool src st = Some (OK, Some it)
    /\ readable src it
    /\ SorterResultIterator.offset_ it = 0
    /\ SorterResultIterator.total_length_ it = rows_fed batches
    /\ SorterResultIterator.indices_begin_ it ≡ₚ fst <$> rows_in_order (firsts batches)
    /\ SorterResultIterator.cached_ it = TypedSorterImpl.cached_ st
    /\ SorterResultIterator.builders_ it = replicate (length schema) [].
Proof.
  intros Hlib Hp Hidx Hu Hfit Hpool.
  destruct (Finish_fed lib pool nf asc batch idx schema src batches)
    as (st & sorted & Hfeed & Hs & Hfirst & Hperm & HF); try done.
  rewrite Hpool in HF.
  destruct (ProduceCodes_fields _ _ _ _ _ _ Hp) as (_ & _ & Htb & _).
  set (rows := rows_in_order (firsts batches)) in *.
  set (indices := if nf then nulls_of rows ++ sorted else sorted ++ nulls_of rows) in *.
  assert (Hall : indices ≡ₚ fst <$> rows).
  { rewrite <- nulls_valids_Permutation. unfold indices. destruct nf.
    - by rewrite Hperm.
    - rewrite Hperm. apply Permutation_app_comm. }
  assert (Hlen : Z.of_nat (length indices) = rows_fed batches).
  { rewrite Hall, length_fmap. symmetry. apply rows_fed_length. }
  exists st, (SorterResultIterator.create indices (TypedSorterImpl.cached_ st)).
  split; [done|]. split.
  { unfold TypedSorterImpl.MakeResultIterator. by rewrite HF. }
  pose proof (rows_fed_nonneg batches) as Hnn.
  destruct Hfit as (_ & _ & Htot).
  split; [|repeat split; simpl; try done].
  - repeat split; simpl; try lia.
    rewrite Hall. apply Forall_fmap, Forall_forall. intros [x c] Hx. simpl.
    rewrite Htb. apply Forall_forall. intros i Hi.
    apply elem_of_seq in Hi. unfold rows in Hx. rewrite <- Hfirst in Hx.
    eapply shaped_row_readable; [exact Hs|lia|exact Hx].
  - by destruct Hs as [-> _].
Qed.

(** X11: the whole pipeline of the indexed kernel returns every row that
    was fed.  After batches that all have one array per field of the schema
    and rows of one length, and that fit the counters of [Finish] (at most
    2^31 - 1 batches of at most 2^32 rows each, fewer than 2^60 rows in
    all), [MakeResultIterator] asks the memory pool for the index buffer.
    When the pool refuses, its error is returned and there is no iterator.
    Otherwise [MakeResultIterator] returns [OK] with an iterator; calling
    [Next] while [HasNext] holds ends after at most as many calls as there
    are rows, every call returns a batch that is not empty and has at most
    the configured number of rows, and the batches together have as many
    rows as were fed. *)
Theorem X11_iterator_returns_every_row (lib : SortLibrary) (pool : Z -> Status)
    (nulls_first asc : bool)
    (batch : Z) (idx : list nat) (schema : Schema) (src : Emit.IndexedSource)
    (batches : list (list Array))
    (Hlib : rearranges lib)
    (Hp : Impl.ProduceCodes nulls_first asc batch idx schema = Some (Emit.Indexed src))
    (Hidx : Forall (fun k => (k < length schema)%nat) idx)
    (Hu : Forall (uniform (length schema)) batches)
    (Hfit : fits batches)
    (Hbatch : 0 < batch < 2 ^ 64) :
  exists st,
    feed src (TypedSorterImpl.create src) batches = Some st
    /\ match pool (8 * rows_fed batches) with
       | OK =>
           exists it outs,
             TypedSorterImpl.MakeResultIterator lib pool src st = Some (OK, Some it)
             /\ drain (Z.to_nat (rows_fed batches)) src it = Done outs
             /\ total_rows outs = rows_fed batches
             /\ Forall (fun b => 0 < num_rows b <= batch) outs
       | e => TypedSorterImpl.MakeResultIterator lib pool src st = Some (e, None)
       end.
Proof.
  destruct (pool (8 * rows_fed batches)) as [|code msg] eqn:Hpool.
  - destruct (MakeResultIterator_fed lib pool nulls_first asc batch idx schema src
                batches) as (st & it & Hfeed & Hmk & Hr & Ho & Ht & _); try done.
    destruct (ProduceCodes_fields _ _ _ _ _ _ Hp) as (_ & _ & _ & Hb).
    pose proof (rows_fed_nonneg batches) as Hnn.
    destruct (Indexed_drain src) with (fuel := Z.to_nat (rows_fed batches)) (it := it)
      as (outs & Hd & Hrows & Hall); try done.
    { by rewrite Hb. }
    { rewrite Ho, Ht. lia. }
    exists st. split; [done|]. exists it, outs.
    rewrite Ho, Ht, Z.sub_0_r in Hrows. rewrite Hb in Hall. done.
  - destruct (Finish_fed lib pool nulls_first asc batch idx schema src batches)
      as (st & sorted & Hfeed & _ & _ & _ & HF); try done.
    rewrite Hpool in HF. exists st. split; [done|].
    unfold TypedSorterImpl.MakeResultIterator. by rewrite HF.
Qed.

Lemma X11_iterator_returns_every_row_witness :
  exists st,
    feed (Emit.indexed_source [0; 1]%nat
            (Emit.IfEq 1 (Emit.Return Emit.Gt 0) (Emit.Return Emit.Gt 1))
            (Impl.pre_sort_valid false) (Impl.pre_sort_null false)
            (Impl.sort_func false false [1; 0]%nat) [0; 1]%nat 2)
      (TypedSorterImpl.state [[]; []] [] 0 0 0)
      [[[non_null 1; null]; [non_null 5; non_null 6]];
       [[non_null 3]; [non_null 5]]]
    = Some st
    /\ exists it outs,
         TypedSorterImpl.MakeResultIterator reference_library (fun _ => OK)
           (Emit.indexed_source [0; 1]%nat
            (Emit.IfEq 1 (Emit.Return Emit.Gt 0) (Emit.Return Emit.Gt 1))
            (Impl.pre_sort_valid false) (Impl.pre_sort_null false)
            (Impl.sort_func false false [1; 0]%nat) [0; 1]%nat 2) st
         = Some (OK, Some it)
         /\ drain 3
              (Emit.indexed_source [0; 1]%nat
            (Emit.IfEq 1 (Emit.Return Emit.Gt 0) (Emit.Return Emit.Gt 1))
            (Impl.pre_sort_valid false) (Impl.pre_sort_null false)
            (Impl.sort_func false false [1; 0]%nat) [0; 1]%nat 2) it
            = Done outs
         /\ total_rows outs = 3
         /\ Forall (fun b => 0 < num_rows b <= 2) outs.
Proof.
  apply (X11_iterator_returns_every_row reference_library (fun _ => OK) false false
           2 [1; 0]%nat
           [field "a" int32 true; field "b" int32 true]
           (Emit.indexed_source [0; 1]%nat
            (Emit.IfEq 1 (Emit.Return Emit.Gt 0) (Emit.Return Emit.Gt 1))
            (Impl.pre_sort_valid false) (Impl.pre_sort_null false)
            (Impl.sort_func false false [1; 0]%nat) [0; 1]%nat 2)
           [[[non_null 1; null]; [non_null 5; non_null 6]];
            [[non_null 3]; [non_null 5]]]).
  - apply reference_library_rearranges.
  - reflexivity.
  - repeat constructor.
  - repeat constructor.
  - split; [simpl; lia|]. split; [|reflexivity].
    repeat (constructor; [unfold batch_rows; simpl; lia|]). constructor.
  - lia.
Defined.

(** ** What [Next] of the indexed kernel puts into a batch *)

Lemma typed_build_run_cell cached x builders i c :
  cell_at cached i x = Some c ->
  SorterResultIterator.typed_build_run cached x builders i
  = Some (alter (fun b => b ++ [built c]) i builders).
Proof.
  unfold cell_at, SorterResultIterator.typed_build_run, IsNull, GetView, built.
  destruct (cached !! i) as [col|]; simpl; [|done].
  destruct (col !! Z.to_nat (array_id x)) as [a|]; simpl; [|done].
  destruct (id x <? 0); [done|]. intros ->. simpl.
  by destruct (valid c).
Qed.

Lemma for_each_append {X : Type} (body : list (list X) -> nat -> option (list (list X)))
    (vals : list X) :
  (forall s i a, vals !! i = Some a ->
                 body s i = Some (alter (fun v => v ++ [a]) i s)) ->
  forall (n k : nat) (bs : list (list X)),
    (k + n <= length vals)%nat -> (k + n <= length bs)%nat ->
    for_each body (seq k n) bs
    = Some (take k bs
              ++ zip_with (fun v a => v ++ [a]) (take n (drop k bs)) (drop k vals)
              ++ drop (k + n) bs).
Proof.
  intros Hbody.
  induction n as [|n IH]; intros k bs Hin Hc; cbn [for_each seq].
  - simpl. by rewrite Nat.add_0_r, take_drop.
  - destruct (lookup_lt_is_Some_2 vals k) as [a Ha]; [lia|].
    destruct (lookup_lt_is_Some_2 bs k) as [v Hv]; [lia|].
    rewrite (Hbody _ _ _ Ha). simpl.
    rewrite IH by (rewrite ?length_alter; lia). f_equal.
    rewrite take_alter_lt, !drop_alter_lt by lia.
    rewrite (take_S_r _ _ _ Hv).
    rewrite alter_app_r_alt by (rewrite length_take; lia).
    replace (k - length (take k bs))%nat with 0%nat
      by (rewrite length_take; lia).
    rewrite (drop_S _ _ _ Ha), (drop_S bs _ _ Hv). simpl.
    rewrite <- app_assoc. simpl.
    by replace (k + S n)%nat with (S (k + n)) by lia.
Qed.

(** one item: every builder receives the cell of its column *)
Lemma append_cells cached x n builders :
  length builders = n ->
  (forall i, (i < n)%nat -> is_Some (cell_at cached i x)) ->
  exists vals,
    for_each (SorterResultIterator.typed_build_run cached x) (seq 0 n) builders
    = Some (zip_with (fun v a => v ++ [a]) builders vals)
    /\ length vals = n
    /\ forall i, (i < n)%nat ->
         exists v, vals !! i = Some v /\ built <$> cell_at cached i x = Some v.
Proof.
  intros Hlen Hcells.
  set (vals := (fun i => built (default null (cell_at cached i x))) <$> seq 0 n).
  assert (Hl : length vals = n) by (unfold vals; by rewrite length_fmap, length_seq).
  assert (Hv : forall i, (i < n)%nat ->
                 vals !! i = Some (built (default null (cell_at cached i x)))).
  { intros i Hi. unfold vals. rewrite list_lookup_fmap, lookup_seq_lt by done. done. }
  exists vals. split; [|split; [done|]].
  - rewrite (for_each_append _ vals); [|idtac|lia|lia].
    + simpl. rewrite drop_0, <- Hlen, firstn_all, drop_all, app_nil_r.
      change (drop 0 vals) with vals. done.
    + intros s i a Ha.
      assert (Hi : (i < n)%nat) by (rewrite <- Hl; by eapply lookup_lt_Some).
      rewrite (Hv i Hi) in Ha. injection Ha as <-.
      destruct (Hcells i Hi) as [c Hc]. rewrite Hc. simpl.
      by apply typed_build_run_cell.
  - intros i Hi. rewrite (Hv i Hi). destruct (Hcells i Hi) as [c ->].
    by eexists.
Qed.

Lemma Next_columns src it n :
  readable src it ->
  0 <= Emit.batch_size src < 2 ^ 64 ->
  Emit.typed_build src = seq 0 n ->
  SorterResultIterator.builders_ it = replicate n [] ->
  exists batch it',
    SorterResultIterator.Next src it = Some (OK, batch, it')
    /\ num_rows batch
       = Z.min (Emit.batch_size src)
           (SorterResultIterator.total_length_ it - SorterResultIterator.offset_ it)
    /\ length (columns batch) = n
    /\ (forall i, (i < n)%nat ->
          columns batch !! i
          = mapM (fun x => built <$> cell_at (SorterResultIterator.cached_ it) i x)
              (window it (num_rows batch)))
    /\ SorterResultIterator.builders_ it' = replicate n []
    /\ SorterResultIterator.cached_ it' = SorterResultIterator.cached_ it
    /\ SorterResultIterator.indices_begin_ it' = SorterResultIterator.indices_begin_ it.
Proof.
  intros (Hlen & Hoff & Htot & Hread) Hb Htb Hbs.
  unfold SorterResultIterator.Next.
  rewrite batch_length_min by done.
  set (L := Z.min _ _).
  set (cached := SorterResultIterator.cached_ it).
  set (slice0 := drop (Z.to_nat (SorterResultIterator.offset_ it))
                   (SorterResultIterator.indices_begin_ it)).
  destruct (for_each_seq_inv (SorterResultIterator.append_item src it)
              (fun k bs =>
                 length bs = n
                 /\ forall i, (i < n)%nat ->
                      exists col,
                        bs !! i = Some col
                        /\ Forall2 (fun x c => built <$> cell_at cached i x = Some c)
                             (take k slice0) col)
              (Z.to_nat L) 0 (SorterResultIterator.builders_ it))
    as (outs & Houts & Hol & Hcols).
  { rewrite Hbs. split; [by rewrite length_replicate|].
    intros i Hi. exists []. split; [by apply lookup_replicate_2|constructor]. }
  { intros j t Hj [Htl Ht].
    unfold SorterResultIterator.append_item.
    destruct (lookup_lt_is_Some_2 (SorterResultIterator.indices_begin_ it)
                (Z.to_nat (SorterResultIterator.offset_ it + Z.of_nat j)))
      as [x Hx]; [lia|].
    rewrite Hx. simpl. rewrite Htb.
    assert (Hcells : forall i, (i < n)%nat -> is_Some (cell_at cached i x)).
    { intros i Hi. eapply Forall_lookup_1 in Hread; [|exact Hx].
      rewrite Forall_forall in Hread.
      destruct (Hread i) as (col & a & c & Hcol & Ha & Hid & Hc).
      { rewrite Htb. apply elem_of_seq. lia. }
      unfold cell_at, cached. rewrite Hcol. simpl. rewrite Ha. simpl.
      destruct (id x <? 0) eqn:E; [lia|]. by eexists. }
    destruct (append_cells cached x n t Htl Hcells) as (vals & Hfe & Hvl & Hvals).
    unfold cached in Hfe. rewrite Hfe.
    eexists. split; [reflexivity|]. split.
    { rewrite length_zip_with. lia. }
    intros i Hi. destruct (Ht i Hi) as (col & Hcol & HF).
    destruct (Hvals i Hi) as (v & Hv & Hcell).
    exists (col ++ [v]). split.
    { rewrite lookup_zip_with, Hcol, Hv. done. }
    assert (Hs : slice0 !! j = Some x).
    { unfold slice0. rewrite lookup_drop. rewrite <- Hx. f_equal. lia. }
    rewrite (take_S_r _ _ _ Hs). apply Forall2_app; [done|].
    by constructor. }
  rewrite Houts. simpl. do 2 eexists. split; [reflexivity|]. simpl.
  split; [done|]. split; [done|]. split; [|by rewrite Hol].
  intros i Hi. destruct (Hcols i Hi) as (col & -> & HF).
  symmetry. apply mapM_Some. exact HF.
Qed.

(** X12: what a batch returned by [Next] holds.  On an iterator whose
    indices all name cells of the cached arrays, [Next] returns [OK] with
    [min(batch size, rows left)] rows and one column per field; column [i]
    lists, for the indices from the cursor on and in their order, the cell
    that each index names in cached column [i], with the slot of a null
    cell dropped.  The builders are empty again afterwards. *)
Theorem X12_Next_copies_the_indexed_rows (src : Emit.IndexedSource)
    (it : SorterResultIterator.State) (n : nat)
    (Hr : readable src it)
    (Hb : 0 <= Emit.batch_size src < 2 ^ 64)
    (Htb : Emit.typed_build src = seq 0 n)
    (Hbs : SorterResultIterator.builders_ it = replicate n []) :
  exists batch it',
    SorterResultIterator.Next src it = Some (OK, batch, it')
    /\ num_rows batch
       = Z.min (Emit.batch_size src)
           (SorterResultIterator.total_length_ it - SorterResultIterator.offset_ it)
    /\ length (columns batch) = n
    /\ (forall i, (i < n)%nat ->
          columns batch !! i
          = mapM (fun x => built <$> cell_at (SorterResultIterator.cached_ it) i x)
              (window it (num_rows batch)))
    /\ SorterResultIterator.builders_ it' = replicate n [].
Proof.
  destruct (Next_columns src it n Hr Hb Htb Hbs)
    as (batch & it' & HN & Hrows & Hl & Hcols & Hbs' & _).
  by exists batch, it'.
Qed.

Lemma X12_Next_copies_the_indexed_rows_witness :
  let src := Emit.indexed_source [0; 1]%nat (Emit.Return Emit.Lt 0)
               (Impl.pre_sort_valid true) (Impl.pre_sort_null true)
               (Impl.sort_func true true [0%nat]) [0; 1]%nat 2 in
  let it := SorterResultIterator.create [item 0 1; item 1 0; item 0 0]
              [[[non_null 1; null]; [non_null 3]];
               [[non_null 5; non_null 6]; [non_null 5]]] in
  exists batch it',
    SorterResultIterator.Next src it = Some (OK, batch, it')
    /\ num_rows batch = 2
    /\ length (columns batch) = 2%nat
    /\ (forall i, (i < 2)%nat ->
          columns batch !! i
          = mapM (fun x => built <$> cell_at (SorterResultIterator.cached_ it) i x)
              (window it (num_rows batch)))
    /\ SorterResultIterator.builders_ it' = [[]; []].
Proof.
  intros src it.
  apply (X12_Next_copies_the_indexed_rows src it 2).
  - unfold readable. simpl. repeat split; try lia.
    repeat (constructor;
            [repeat (constructor;
                     [do 3 eexists; repeat split; try reflexivity; simpl; lia|]);
             constructor|]).
    constructor.
  - simpl. lia.
  - reflexivity.
  - reflexivity.
Defined.

Ltac readable_by_evaluation :=
  unfold readable; simpl; repeat split; try lia;
  repeat (constructor;
          [repeat (constructor;
                   [do 3 eexists; repeat split; try reflexivity; simpl; lia|]);
           constructor|]);
  constructor.

(** X13: the cursor of the iterator.  A call of [Next] moves the cursor
    forward by the number of rows it returned, never past the end of the
    index array, and leaves an iterator on which [Next] can be called
    again: its indices still name cells of the cached arrays. *)
Theorem X13_Next_advances_cursor (src : Emit.IndexedSource)
    (it : SorterResultIterator.State)
    (Hr : readable src it)
    (Hb : 0 <= Emit.batch_size src < 2 ^ 64) :
  exists batch it',
    SorterResultIterator.Next src it = Some (OK, batch, it')
    /\ 0 <= num_rows batch
    /\ SorterResultIterator.offset_ it'
       = SorterResultIterator.offset_ it + num_rows batch
    /\ SorterResultIterator.offset_ it' <= SorterResultIterator.total_length_ it'
    /\ SorterResultIterator.total_length_ it' = SorterResultIterator.total_length_ it
    /\ SorterResultIterator.indices_begin_ it' = SorterResultIterator.indices_begin_ it
    /\ readable src it'.
Proof.
  destruct (Indexed_Next_advances src it Hr Hb)
    as (batch & it' & HN & Hrows & Ho & Ht & Hr').
  exists batch, it'. destruct Hr as (_ & Hoff & _).
  split; [done|]. split; [lia|]. split; [done|]. split; [lia|].
  split; [done|]. split; [|done].
  unfold SorterResultIterator.Next in HN.
  destruct (for_each _ _ _); simpl in HN; [|done].
  by injection HN as <- <-.
Qed.

Lemma X13_Next_advances_cursor_witness :
  let src := Emit.indexed_source [0; 1]%nat (Emit.Return Emit.Lt 0)
               (Impl.pre_sort_valid true) (Impl.pre_sort_null true)
               (Impl.sort_func true true [0%nat]) [0; 1]%nat 2 in
  let it := SorterResultIterator.create [item 0 1; item 1 0; item 0 0]
              [[[non_null 1; null]; [non_null 3]];
               [[non_null 5; non_null 6]; [non_null 5]]] in
  exists batch it',
    SorterResultIterator.Next src it = Some (OK, batch, it')
    /\ 0 <= num_rows batch
    /\ SorterResultIterator.offset_ it' = 0 + num_rows batch
    /\ SorterResultIterator.offset_ it' <= SorterResultIterator.total_length_ it'
    /\ SorterResultIterator.total_length_ it' = 3
    /\ SorterResultIterator.indices_begin_ it' = [item 0 1; item 1 0; item 0 0]
    /\ readable src it'.
Proof.
  intros src it.
  apply (X13_Next_advances_cursor src it).
  - readable_by_evaluation.
  - simpl. lia.
Defined.

(** X14: an exhausted iterator.  Once the cursor has reached the end,
    [HasNext] is false; a call of [Next] all the same is not an error: it
    returns [OK] with a batch of no rows, and [HasNext] stays false. *)
Theorem X14_Next_after_the_end (src : Emit.IndexedSource)
    (it : SorterResultIterator.State)
    (Hr : readable src it)
    (Hb : 0 <= Emit.batch_size src < 2 ^ 64)
    (Hend : SorterResultIterator.offset_ it = SorterResultIterator.total_length_ it) :
  SorterResultIterator.HasNext it = false
  /\ exists batch it',
       SorterResultIterator.Next src it = Some (OK, batch, it')
       /\ num_rows batch = 0
       /\ SorterResultIterator.offset_ it' = SorterResultIterator.offset_ it
       /\ SorterResultIterator.HasNext it' = false.
Proof.
  destruct (Indexed_exhausted src it Hr Hb Hend) as (Hno & batch & it' & HN & H0 & Hno').
  split; [done|]. exists batch, it'. repeat split; try done.
  destruct (Indexed_Next_advances src it Hr Hb)
    as (batch2 & it2 & HN2 & _ & Ho & _).
  rewrite HN in HN2. injection HN2 as <- <-. lia.
Qed.

Lemma X14_Next_after_the_end_witness :
  let src := Emit.indexed_source [0%nat] (Emit.Return Emit.Lt 0)
               (Impl.pre_sort_valid true) (Impl.pre_sort_null true)
               (Impl.sort_func true true [0%nat]) [0%nat] 2 in
  let it := SorterResultIterator.state [[[non_null 1; null]]] [[]]
              [item 0 1; item 0 0] 2 2 in
  SorterResultIterator.HasNext it = false
  /\ exists batch it',
       SorterResultIterator.Next src it = Some (OK, batch, it')
       /\ num_rows batch = 0
       /\ SorterResultIterator.offset_ it' = 2
       /\ SorterResultIterator.HasNext it' = false.
Proof.
  intros src it.
  apply (X14_Next_after_the_end src it).
  - readable_by_evaluation.
  - simpl. lia.
  - reflexivity.
Defined.

(** X15: the terminal operation of the indexed kernel before any
    [Evaluate].  [MakeResultIterator] on a sorter that was fed nothing asks
    the memory pool for a buffer of no bytes.  When the pool grants it,
    [OK] is returned with an iterator over an empty index array, and that
    iterator has no next batch; when the pool refuses, its error is
    returned and there is no iterator. *)
Theorem X15_indexed_empty_terminal (lib : SortLibrary) (pool : Z -> Status)
    (nulls_first asc : bool)
    (batch : Z) (idx : list nat) (schema : Schema) (src : Emit.IndexedSource)
    (Hlib : rearranges lib)
    (Hp : Impl.ProduceCodes nulls_first asc batch idx schema = Some (Emit.Indexed src)) :
  match pool 0 with
  | OK =>
      exists it,
        TypedSorterImpl.MakeResultIterator lib pool src (TypedSorterImpl.create src)
          = Some (OK, Some it)
        /\ SorterResultIterator.indices_begin_ it = []
        /\ SorterResultIterator.total_length_ it = 0
        /\ SorterResultIterator.HasNext it = false
  | e =>
      TypedSorterImpl.MakeResultIterator lib pool src (TypedSorterImpl.create src)
      = Some (e, None)
  end.
Proof.
  destruct (pool 0) as [|code msg] eqn:Hpool.
  - destruct (Indexed_empty_ok lib pool nulls_first asc batch idx schema src Hlib Hp
                Hpool) as (it & Hmk & Hnil & Hno).
    exists it. repeat split; try done.
    unfold TypedSorterImpl.MakeResultIterator in Hmk.
    destruct (TypedSorterImpl.Finish _ _ _ _) as [[status out]|]; simpl in Hmk;
      [|done].
    destruct (negb (ok status)); [done|].
    injection Hmk as <-. simpl in *. by rewrite Hnil.
  - unfold TypedSorterImpl.MakeResultIterator.
    rewrite (Finish_layout lib pool nulls_first asc batch idx schema)
      by (done || apply create_consistent).
    change (8 * TypedSorterImpl.items_total_ (TypedSorterImpl.create src)) with 0.
    by rewrite Hpool.
Qed.

Lemma X15_indexed_empty_terminal_witness :
  exists it,
    TypedSorterImpl.MakeResultIterator reference_library (fun _ => OK)
      (Emit.indexed_source [0; 1]%nat (Emit.Return Emit.Lt 1)
         (Impl.pre_sort_valid true) (Impl.pre_sort_null true)
         (Impl.sort_func true true [1%nat]) [0; 1]%nat 10000)
      (TypedSorterImpl.state [[]; []] [] 0 0 0)
      = Some (OK, Some it)
    /\ SorterResultIterator.indices_begin_ it = []
    /\ SorterResultIterator.total_length_ it = 0
    /\ SorterResultIterator.HasNext it = false.
Proof.
  apply (X15_indexed_empty_terminal reference_library (fun _ => OK) true true 10000
           [1%nat]
           [field "a" int32 true; field "b" int32 true]
           (Emit.indexed_source [0; 1]%nat (Emit.Return Emit.Lt 1)
              (Impl.pre_sort_valid true) (Impl.pre_sort_null true)
              (Impl.sort_func true true [1%nat]) [0; 1]%nat 10000)).
  - apply reference_library_rearranges.
  - reflexivity.
Defined.

(** ** Where the constructor is undefined *)

Lemma LoadJITFunction_None compiler loader hash ProduceCodes nf asc keys schema
    h sorter :
  Loader.lock_held h = false ->
  Loader.LoadJITFunction compiler loader hash ProduceCodes nf asc keys schema h sorter
    = None
  <-> ~ (exists lib,
           Loader.libraries h !! signature hash nf asc keys schema = Some lib
           /\ loader lib = OK)
      /\ ProduceCodes schema = None.
Proof.
  intros Hl. rewrite LoadJITFunction_cases, Hl.
  assert (Hbuild :
    match ProduceCodes schema with
    | None => None
    | Some codes =>
        match compiler codes with
        | OK =>
            match loader codes with
            | OK => Some (OK, Loader.host false
                                (<[signature hash nf asc keys schema := codes]>
                                   (Loader.libraries h)), Some codes)
            | e => Some (e, Loader.host true
                              (<[signature hash nf asc keys schema := codes]>
                                 (Loader.libraries h)), sorter)
            end
        | e => Some (e, Loader.host true (Loader.libraries h), sorter)
        end
    end = None <-> ProduceCodes schema = None).
  { destruct (ProduceCodes schema) as [codes|]; [|done].
    destruct (compiler codes); [|done]. by destruct (loader codes). }
  destruct (Loader.libraries h !! _) as [lib|] eqn:Hlib.
  - destruct (loader lib) as [|code msg] eqn:Hload.
    + split; [done|]. intros [Hno _]. destruct Hno. by exists lib.
    + rewrite Hbuild. split; [|by intros [_ ?]].
      intros Hp. split; [|done]. intros (lib' & [= <-] & Hok). congruence.
  - rewrite Hbuild. split; [|by intros [_ ?]].
    intros Hp. split; [|done]. by intros (lib' & [=] & _).
Qed.

Lemma Impl_ProduceCodes_None nf asc batch idx schema :
  Impl.ProduceCodes nf asc batch idx schema = None <-> idx = [].
Proof.
  unfold Impl.ProduceCodes. split.
  - intros H. destruct idx as [|k idx]; [done|].
    destruct (comp_body_composite asc (fun _ _ => None) (item 0 0) (item 0 0)
                (k :: idx) (length idx) 0) as (c & Hc & _); [simpl; lia|].
    by rewrite Hc in H.
  - intros ->. by rewrite comp_body_unfold.
Qed.

(** X16: where the constructor of the kernel runs into undefined behaviour.
    With the file lock free, the constructor either throws or returns a
    kernel, except in one case: the key list is empty and the store has no
    library under the signature that loads, so that the generator is run;
    it then reads the first element of the empty list of key positions. *)
Theorem X16_constructor_undefined_only_without_keys compiler loader hash
    GetCTypeString
    GetBatchSize (key_field_list : list Field) (result_schema : Schema)
    (nulls_first asc : bool) (h : Loader.Host)
    (Hlock : Loader.lock_held h = false) :
  SortArraysToIndicesKernel.construct compiler loader hash GetCTypeString
    GetBatchSize key_field_list result_schema nulls_first asc h = None
  <-> key_field_list = []
      /\ ~ (exists lib,
              Loader.libraries h
                !! signature hash nulls_first asc key_field_list result_schema
              = Some lib
              /\ loader lib = OK).
Proof.
  unfold SortArraysToIndicesKernel.construct.
  destruct (SortArraysToIndicesKernel.variant_of key_field_list result_schema) eqn:Hv.
  - unfold SortArraysToIndicesKernel.variant_of in Hv.
    destruct (Nat.eqb_spec (length key_field_list) 1) as [Hk|]; [|done].
    destruct (Nat.eqb_spec (num_fields result_schema) 1) as [Hs|]; [|done].
    assert (Hne : key_field_list <> []) by (by intros ->).
    split; [|by intros [? _]].
    unfold SortArraysToIndicesKernel.new_SortInplaceKernel.
    destruct (SortInplaceKernel.key_index_list _ _) as [idx|]; [|done]. simpl.
    destruct (Loader.LoadJITFunction _ _ _ _ _ _ _ _ _ _) as [[[s h'] so]|] eqn:HL.
    { simpl. by destruct (negb (ok s)). }
    apply LoadJITFunction_None in HL as [_ HP]; [|done].
    unfold SortArraysToIndicesKernel.ProduceCodes,
      SortInplaceKernel.ProduceCodes in HP. simpl in HP.
    destruct result_schema as [|f [|]]; done.
  - unfold SortArraysToIndicesKernel.new_Impl.
    destruct (Impl.key_index_list key_field_list result_schema) as [idx|] eqn:Hidx.
    + apply key_index_list_length in Hidx. simpl.
      destruct (Loader.LoadJITFunction _ _ _ _ _ _ _ _ _ _) as [[[s h'] so]|] eqn:HL.
      * simpl. split; [by destruct (negb (ok s))|].
        intros [-> Hlib].
        assert (HN : Loader.LoadJITFunction compiler loader hash
                       (SortArraysToIndicesKernel.ProduceCodes GetCTypeString
                          GetBatchSize
                          (SortArraysToIndicesKernel.kernel
                             SortArraysToIndicesKernel.UseImpl nulls_first asc idx
                             None))
                       nulls_first asc [] result_schema h None = None).
        { apply LoadJITFunction_None; [done|]. split; [done|].
          unfold SortArraysToIndicesKernel.ProduceCodes. simpl.
          apply Impl_ProduceCodes_None. by destruct idx. }
        by rewrite HN in HL.
      * apply LoadJITFunction_None in HL as [Hlib HP]; [|done].
        unfold SortArraysToIndicesKernel.ProduceCodes in HP. simpl in HP.
        apply Impl_ProduceCodes_None in HP as ->.
        split; [|done]. intros _. split; [|done]. by destruct key_field_list.
    + split; [done|]. intros [-> _]. done.
Qed.

Lemma X16_constructor_undefined_only_without_keys_witness :
  SortArraysToIndicesKernel.construct (fun _ => OK) (fun _ => OK) (fun _ => 0%N)
    (fun _ => "int32_t") 10000 [] [field "a" int32 true] true true
    (Loader.host false ∅) = None
  <-> @nil Field = []
      /\ ~ (exists lib,
              Loader.libraries (Loader.host false ∅)
                !! signature (fun _ => 0%N) true true [] [field "a" int32 true]
              = Some lib
              /\ (fun _ : Emit.Source => OK) lib = OK).
Proof.
  apply (X16_constructor_undefined_only_without_keys (fun _ => OK) (fun _ => OK)
           (fun _ => 0%N)
           (fun _ => "int32_t") 10000 [] [field "a" int32 true] true true
           (Loader.host false ∅)).
  reflexivity.
Defined.

(** ** The in-place kernel *)

Lemma feed_inplace_counters batches :
  forall st st',
    feed_inplace st batches = Some st' ->
    InplaceSorterImpl.cached_0_ st' = InplaceSorterImpl.cached_0_ st ++ firsts batches
    /\ InplaceSorterImpl.items_total_ st'
       = (if batches is [] then InplaceSorterImpl.items_total_ st
          else wrap64 (InplaceSorterImpl.items_total_ st + rows_fed batches))
    /\ InplaceSorterImpl.nulls_total_ st'
       = (if batches is [] then InplaceSorterImpl.nulls_total_ st
          else wrap64 (InplaceSorterImpl.nulls_total_ st + nulls_fed batches)).
Proof.
  induction batches as [|in_ r IH]; intros st st'; simpl.
  - intros [= <-]. by rewrite app_nil_r.
  - unfold InplaceSorterImpl.Evaluate.
    destruct (in_ !! 0%nat) as [in0|] eqn:Hin0; simpl; [|done].
    intros Hfeed.
    destruct (IH _ _ Hfeed) as (Hf' & Hi' & Hnu'). simpl in *.
    unfold firsts, rows_fed, nulls_fed in *. simpl. rewrite Hin0. simpl.
    split; [by rewrite Hf', <- app_assoc|].
    rewrite Hi', Hnu'.
    destruct r as [|in1 r]; simpl.
    + rewrite !Z.add_0_r. done.
    + rewrite !wrap64_add_l. split; f_equal; lia.
Qed.

Lemma feed_inplace_defined batches :
  Forall (fun in_ : list Array => is_Some (in_ !! 0%nat)) batches ->
  forall st, is_Some (feed_inplace st batches).
Proof.
  induction 1 as [|in_ r [in0 Hin0] _ IH]; intros st; simpl; [by eexists|].
  unfold InplaceSorterImpl.Evaluate. rewrite Hin0. simpl. apply IH.
Qed.

Lemma rows_fed_concat batches :
  rows_fed batches = Z.of_nat (length (concat (firsts batches))).
Proof.
  unfold rows_fed. induction (firsts batches) as [|a l IH]; [done|].
  cbn [foldr concat]. rewrite length_app, IH. unfold array_length. lia.
Qed.

(** X17: the in-place kernel on a column without nulls.  After batches
    whose first arrays hold no null and fewer than 2^64 rows in all,
    [MakeResultIterator] returns [OK] with an iterator over the values of
    those arrays as the sort library returned them: sorted by value for an
    ascending sort, by the comparator [>] for a descending one.  With a
    library that only rearranges, these are the values that were fed. *)
Theorem X17_inplace_sorts_values_without_nulls (lib : SortLibrary)
    (nulls_first asc : bool) (GetCTypeString : DataType -> string) (batch : Z)
    (schema : Schema) (src : Emit.InplaceSource) (batches : list (list Array))
    (Hlib : rearranges lib)
    (Hp : SortInplaceKernel.ProduceCodes nulls_first asc GetCTypeString batch schema
          = Some (Emit.Inplace src))
    (Hne : batches <> [])
    (Hfirst : Forall (fun in_ : list Array => is_Some (in_ !! 0%nat)) batches)
    (Hrows : rows_fed batches < 2 ^ 64)
    (Hnulls : nulls_fed batches = 0) :
  exists st it,
    feed_inplace InplaceSorterImpl.create batches = Some st
    /\ InplaceSorterImpl.MakeResultIterator lib src st = Some (OK, Some it)
    /\ InplaceResultIterator.indices_begin_ it
       = (if asc then ska_sort_by lib Z (fun v => v) (values_fed batches)
          else std_sort_by lib Z (fun x y => x >? y) (values_fed batches))
    /\ InplaceResultIterator.indices_begin_ it ≡ₚ values_fed batches
    /\ InplaceResultIterator.offset_ it = 0
    /\ InplaceResultIterator.total_length_ it = rows_fed batches
    /\ InplaceResultIterator.nulls_total_ it = 0.
Proof.
  destruct (feed_inplace_defined batches Hfirst InplaceSorterImpl.create) as [st Hfeed].
  destruct (feed_inplace_counters _ _ _ Hfeed) as (Hc & Hi & Hn). simpl in Hc, Hi, Hn.
  pose proof (rows_fed_nonneg batches) as Hr0.
  assert (Hi' : InplaceSorterImpl.items_total_ st = rows_fed batches).
  { rewrite Hi. destruct batches; [done|]. unfold wrap64. by rewrite Z.mod_small. }
  assert (Hn' : InplaceSorterImpl.nulls_total_ st = 0).
  { rewrite Hn. destruct batches; [done|]. by rewrite Hnulls. }
  assert (Hfne : firsts batches <> []).
  { destruct batches as [|in_ r]; [done|]. apply Forall_cons in Hfirst as [[in0 H0] _].
    unfold firsts. simpl. by rewrite H0. }
  unfold SortInplaceKernel.ProduceCodes in Hp.
  destruct (schema !! 0%nat) as [f|]; simpl in Hp; [|done].
  injection Hp as <-.
  assert (Hcat : Concatenate (firsts batches) = inr (concat (firsts batches))).
  { unfold Concatenate. by destruct (firsts batches). }
  assert (Hlen : Z.of_nat (length (values_fed batches)) = rows_fed batches).
  { unfold values_fed. rewrite length_fmap. symmetry. apply rows_fed_concat. }
  assert (Hlo : Ptr_eval (InplaceSorterImpl.env st (concat (firsts batches)))
                  (Impl.sort_first nulls_first) = 0).
  { destruct nulls_first; simpl; lia. }
  assert (Hhi : Ptr_eval (InplaceSorterImpl.env st (concat (firsts batches)))
                  (Impl.sort_last nulls_first) = rows_fed batches).
  { destruct nulls_first; simpl; lia. }
  assert (Hrange : forall sort : list Z -> option (list Z),
             sort_range sort 0 (rows_fed batches) (values_fed batches)
             = sort (values_fed batches) ≫= Some).
  { intros sort. unfold sort_range. rewrite Hlen.
    destruct (Z.leb_spec 0 0); [|lia].
    destruct (Z.leb_spec 0 (rows_fed batches)); [|lia].
    destruct (Z.leb_spec (rows_fed batches) (rows_fed batches)); [|lia].
    simpl. change (Z.to_nat 0) with 0%nat. rewrite drop_0.
    rewrite Z.sub_0_r, <- Hlen, Nat2Z.id, firstn_all.
    destruct (sort (values_fed batches)) as [sorted|]; simpl; [|done].
    by rewrite drop_all, app_nil_r. }
  exists st.
  unfold InplaceSorterImpl.MakeResultIterator. rewrite Hc, Hcat, Hn'. simpl.
  fold (values_fed batches).
  unfold SortInplaceKernel.sort_func.
  destruct asc; simpl; rewrite Hlo, Hhi, Hrange; simpl;
    (eexists; split; [done|]; split; [reflexivity|]; simpl;
     split; [reflexivity|]; split; [apply Hlib|]; done).
Qed.

Lemma X17_inplace_sorts_values_without_nulls_witness :
  let src := Emit.inplace_source "int32_t" Emit.Gt
               (SortInplaceKernel.partition_func true)
               (SortInplaceKernel.sort_func true false) 2 in
  let batches := [[[non_null 3; non_null 1]]; [[non_null 2]]] in
  exists st it,
    feed_inplace InplaceSorterImpl.create batches = Some st
    /\ InplaceSorterImpl.MakeResultIterator reference_library src st
       = Some (OK, Some it)
    /\ InplaceResultIterator.indices_begin_ it
       = std_sort_by reference_library Z (fun x y => x >? y) [3; 1; 2]
    /\ InplaceResultIterator.indices_begin_ it ≡ₚ [3; 1; 2]
    /\ InplaceResultIterator.offset_ it = 0
    /\ InplaceResultIterator.total_length_ it = 3
    /\ InplaceResultIterator.nulls_total_ it = 0.
Proof.
  intros src batches.
  apply (X17_inplace_sorts_values_without_nulls reference_library true false
           (fun _ => "int32_t") 2 [field "a" int32 true] src batches).
  - apply reference_library_rearranges.
  - reflexivity.
  - discriminate.
  - repeat (constructor; [eexists; reflexivity|]). constructor.
  - reflexivity.
  - reflexivity.
Defined.

(** X18: where [Next] of the in-place iterator returns no batch.  Whenever
    the cursor lies before the end of the nulls and rows are left, the loop
    of [Next] appends nulls without advancing its counter, and the only way
    out of it is the error of the builder: however many appends the builder
    grants, [Next] is left through that error, and no batch is returned.
    With a positive batch size this is so for every iterator that [HasNext]
    reports as not exhausted and whose cursor is below [nulls_total_]. *)
Theorem X18_inplace_Next_fails_before_nulls_end (src : Emit.InplaceSource)
    (it : InplaceResultIterator.State) (room : nat)
    (Hb : 0 < Emit.inplace_batch_size src < 2 ^ 64)
    (Ho : 0 <= InplaceResultIterator.offset_ it)
    (Ht : InplaceResultIterator.total_length_ it < 2 ^ 64)
    (Hnext : InplaceResultIterator.HasNext it = true)
    (Hn : InplaceResultIterator.offset_ it < InplaceResultIterator.nulls_total_ it) :
  InplaceResultIterator.Next room src it = Failed.
Proof.
  unfold InplaceResultIterator.HasNext in Hnext.
  destruct (Z.geb_spec (InplaceResultIterator.offset_ it)
              (InplaceResultIterator.total_length_ it)) as [|Hlt]; [done|].
  unfold InplaceResultIterator.Next.
  rewrite batch_length_min by lia.
  destruct (Z.geb_spec (InplaceResultIterator.offset_ it)
              (InplaceResultIterator.nulls_total_ it)) as [|_]; [lia|].
  rewrite mixed_loop_stuck; [done|lia|done].
Qed.

Lemma X18_inplace_Next_fails_before_nulls_end_witness :
  InplaceResultIterator.Next 1000
    (Emit.inplace_source "int32_t" Emit.Lt (SortInplaceKernel.partition_func true)
       (SortInplaceKernel.sort_func true true) 10000)
    (InplaceResultIterator.create [0; 4; 7] 1 3)
  = Failed.
Proof.
  apply (X18_inplace_Next_fails_before_nulls_end
           (Emit.inplace_source "int32_t" Emit.Lt
              (SortInplaceKernel.partition_func true)
              (SortInplaceKernel.sort_func true true) 10000)
           (InplaceResultIterator.create [0; 4; 7] 1 3) 1000).
  - simpl. lia.
  - simpl. lia.
  - simpl. lia.
  - reflexivity.
  - simpl. lia.
Defined.

Lemma append_loop_window it :
  forall (n room k : nat) (builder : Array),
    0 <= InplaceResultIterator.offset_ it ->
    (Z.to_nat (InplaceResultIterator.offset_ it) + k + n
       <= length (InplaceResultIterator.indices_begin_ it))%nat ->
    InplaceResultIterator.append_loop room it (seq k n) builder
    = if (n <=? room)%nat
      then Done (builder
                   ++ (non_null
                         <$> take n (drop (Z.to_nat (InplaceResultIterator.offset_ it) + k)
                                       (InplaceResultIterator.indices_begin_ it))))
      else Failed.
Proof.
  induction n as [|n IH]; intros room k builder Ho Hlen;
    cbn [InplaceResultIterator.append_loop seq].
  - by rewrite take_0, app_nil_r.
  - destruct (lookup_lt_is_Some_2 (InplaceResultIterator.indices_begin_ it)
                (Z.to_nat (InplaceResultIterator.offset_ it) + k)) as [v Hv]; [lia|].
    replace (Z.to_nat (InplaceResultIterator.offset_ it + Z.of_nat k))
      with (Z.to_nat (InplaceResultIterator.offset_ it) + k)%nat by lia.
    rewrite Hv. destruct room as [|room]; simpl; [done|].
    rewrite IH by (done || lia).
    rewrite (drop_S _ _ _ Hv). simpl. rewrite <- app_assoc. simpl.
    by replace (Z.to_nat (InplaceResultIterator.offset_ it) + S k)%nat
      with (S (Z.to_nat (InplaceResultIterator.offset_ it) + k)) by lia.
Qed.

(** X19: [Next] of the in-place iterator behind the nulls.  When the
    cursor has reached [nulls_total_] (always, if the column had no null),
    the loop of [Next] advances with every append, and [Next] does one of
    two things.  If the builder grants the [min(batch size, rows left)]
    appends, it returns [OK] with a batch of that many rows and one column,
    which holds the values from the cursor on, in their order and all valid;
    the cursor has moved by the number of rows.  If the builder refuses one
    of them, [Next] is left with the error of the builder. *)
Theorem X19_inplace_Next_behind_the_nulls (src : Emit.InplaceSource)
    (it : InplaceResultIterator.State) (room : nat)
    (Hb : 0 <= Emit.inplace_batch_size src < 2 ^ 64)
    (Ho : 0 <= InplaceResultIterator.offset_ it
          <= InplaceResultIterator.total_length_ it)
    (Ht : InplaceResultIterator.total_length_ it
          = Z.of_nat (length (InplaceResultIterator.indices_begin_ it)))
    (Hlt : InplaceResultIterator.total_length_ it < 2 ^ 64)
    (Hn : InplaceResultIterator.nulls_total_ it <= InplaceResultIterator.offset_ it) :
  let n := Z.min (Emit.inplace_batch_size src)
             (InplaceResultIterator.total_length_ it
              - InplaceResultIterator.offset_ it) in
  InplaceResultIterator.Next room src it
  = if (Z.to_nat n <=? room)%nat
    then Done (OK,
               record_batch n
                 [InplaceResultIterator.builder_0_ it
                    ++ (non_null <$> inplace_window it n)],
               InplaceResultIterator.state []
                 (InplaceResultIterator.indices_begin_ it)
                 (InplaceResultIterator.offset_ it + n)
                 (InplaceResultIterator.total_length_ it)
                 (InplaceResultIterator.nulls_total_ it))
    else Failed.
Proof.
  intros n. unfold InplaceResultIterator.Next.
  rewrite batch_length_min by lia. fold n.
  destruct (Z.geb_spec (InplaceResultIterator.offset_ it)
              (InplaceResultIterator.nulls_total_ it)) as [_|]; [|lia].
  rewrite append_loop_window by (unfold n; lia).
  destruct (Z.to_nat n <=? room)%nat; [|done].
  rewrite Nat.add_0_r. unfold wrap64. rewrite Z.mod_small by (unfold n; lia).
  done.
Qed.

Lemma X19_inplace_Next_behind_the_nulls_witness :
  InplaceResultIterator.Next 2
    (Emit.inplace_source "int32_t" Emit.Lt (SortInplaceKernel.partition_func true)
       (SortInplaceKernel.sort_func true true) 2)
    (InplaceResultIterator.create [1; 4; 7] 0 3)
  = Done (OK, record_batch 2 [[non_null 1; non_null 4]],
          InplaceResultIterator.state [] [1; 4; 7] 2 3 0).
Proof.
  apply (X19_inplace_Next_behind_the_nulls
           (Emit.inplace_source "int32_t" Emit.Lt
              (SortInplaceKernel.partition_func true)
              (SortInplaceKernel.sort_func true true) 2)
           (InplaceResultIterator.create [1; 4; 7] 0 3) 2).
  - simpl. lia.
  - simpl. lia.
  - reflexivity.
  - simpl. lia.
  - simpl. lia.
Defined.

(** X20: the second look-up in the constructor of the in-place kernel never
    fails.  The constructor of [Impl], which runs first, has already
    resolved every key, the first one included; so whenever there is a first
    key, the in-place constructor throws exactly when the one of [Impl]
    throws, and it leaves the same list of key positions. *)
Theorem X20_inplace_constructor_check_is_redundant (key_field_list : list Field)
    (result_schema : Schema)
    (Hne : key_field_list <> []) :
  SortInplaceKernel.key_index_list key_field_list result_schema
  = Impl.key_index_list key_field_list result_schema.
Proof.
  unfold SortInplaceKernel.key_index_list.
  destruct key_field_list as [|f r]; [done|]. simpl.
  destruct (GetAllFieldIndices result_schema (name f)) as [|i [|]]; try done.
  by destruct (Impl.key_index_list r result_schema).
Qed.

Lemma X20_inplace_constructor_check_is_redundant_witness :
  SortInplaceKernel.key_index_list [field "a" int32 true] [field "a" int32 true]
  = Impl.key_index_list [field "a" int32 true] [field "a" int32 true].
Proof.
  apply (X20_inplace_constructor_check_is_redundant
           [field "a" int32 true] [field "a" int32 true]).
  discriminate.
Defined.

Lemma for_each_cached_insert_short (in_ : list Array) :
  forall (n k : nat) (cached : list (list Array)),
    (k <= length in_ < k + n)%nat ->
    for_each (TypedSorterImpl.cached_insert_run in_) (seq k n) cached = None.
Proof.
  induction n as [|n IH]; intros k cached Hk; [lia|]. cbn [for_each seq].
  destruct (TypedSorterImpl.cached_insert_run in_ cached k) as [cached'|] eqn:Hrun;
    simpl; [|done].
  apply IH. unfold TypedSorterImpl.cached_insert_run in Hrun.
  destruct (in_ !! k) as [a|] eqn:Ha; [|done].
  apply lookup_lt_Some in Ha. lia.
Qed.

(** X21: what [Evaluate] of the indexed kernel requires of a batch.  The
    generated code reads [in[0]] and [in[i]] for every column [i] of the
    schema without looking at the size of [in]: the call is defined exactly
    when the batch has at least one array and an array for every column;
    on a shorter batch it reads past the end of the vector. *)
Theorem X21_Evaluate_needs_one_array_per_column (src : Emit.IndexedSource)
    (st : TypedSorterImpl.State) (in_ : list Array) (n : nat)
    (Hsrc : Emit.cached_insert src = seq 0 n) :
  is_Some (TypedSorterImpl.Evaluate src st in_)
  <-> (0 < length in_)%nat /\ (n <= length in_)%nat.
Proof.
  unfold TypedSorterImpl.Evaluate. rewrite Hsrc.
  destruct (in_ !! 0%nat) as [in0|] eqn:Hin0; simpl.
  - apply lookup_lt_Some in Hin0.
    destruct (le_lt_dec n (length in_)) as [Hle|Hlt].
    + split; [done|]. intros _.
      destruct (for_each_defined (TypedSorterImpl.cached_insert_run in_) (seq 0 n))
        with (s := TypedSorterImpl.cached_ st) as [cached Hc].
      { intros s i Hi. apply elem_of_seq in Hi.
        unfold TypedSorterImpl.cached_insert_run.
        destruct (lookup_lt_is_Some_2 in_ i) as [a ->]; [lia|]. by eexists. }
      rewrite Hc. by eexists.
    + rewrite for_each_cached_insert_short by lia. simpl.
      split; [by intros [? ?]|lia].
  - apply lookup_ge_None in Hin0. split; [by intros [? ?]|lia].
Qed.

Lemma X21_Evaluate_needs_one_array_per_column_witness :
  is_Some (TypedSorterImpl.Evaluate
             (Emit.indexed_source [0; 1]%nat (Emit.Return Emit.Lt 0)
                (Impl.pre_sort_valid true) (Impl.pre_sort_null true)
                (Impl.sort_func true true [0%nat]) [0; 1]%nat 10000)
             (TypedSorterImpl.state [[]; []] [] 0 0 0)
             [[non_null 1]; [non_null 2]])
  <-> (0 < 2)%nat /\ (2 <= 2)%nat.
Proof.
  apply (X21_Evaluate_needs_one_array_per_column
           (Emit.indexed_source [0; 1]%nat (Emit.Return Emit.Lt 0)
              (Impl.pre_sort_valid true) (Impl.pre_sort_null true)
              (Impl.sort_func true true [0%nat]) [0; 1]%nat 10000)
           (TypedSorterImpl.state [[]; []] [] 0 0 0)
           [[non_null 1]; [non_null 2]] 2).
  reflexivity.
Defined.
